(** * RigControls: the undo/redo command stack ([rigcontrols/undo.py])

    A shallow embedding of the command classes ([Command], [SetAttrCommand],
    [AppendCommand], [AddItemCommand], [CommandGroup]) and of [UndoStack],
    followed by the properties of the stack; and, of [RigUIControls.py],
    the list handling of [RigGraphicsView].

    Modelling decisions.
    - Python objects live in a store indexed by references.  Target objects
      (the application state the commands mutate) are kept in [heap]; the
      only attribute a command ever assigns on itself after [__init__],
      [originalItem], is kept in a second store indexed by the identity of
      the command object, so that one command object reached twice (pushed
      twice, or listed twice in a group) shares one [originalItem].
    - The attributes assigned once in [__init__] ([object_], [attrName],
      [item], [commands]) are the arguments of the constructors of [command],
      next to the identity [self] of the object.
    - Targets are never command objects and never the stack's own lists.
    - A target is an instance with data attributes and no methods, a Python
      list (whose attributes are its methods only; [getattr] of a method
      name is not modelled), or an object offering [addItem]/[removeItem]
      and nothing else.
    - [addItem]/[removeItem] belong to the target's class, which is not part
      of this package: they are the operations of the class [ItemContainer],
      and the properties hold for every instance of it.
    - Every function is total: an exception is a result, and a raising step
      leaves the state it reached. *)

From stdpp Require Import base gmap list strings.

(** ** Values, exceptions, objects *)

Definition loc := nat.
Definition cref := nat.

Inductive val : Type :=
| VNone
| VInt (n : Z)
| VStr (s : string)
| VRef (l : loc).

#[global] Instance val_eq_dec : EqDecision val.
Proof. solve_decision. Defined.

(** The exceptions the code can raise: [getattr]/[setattr]/a missing method
    raise [AttributeError], [list.pop] on the empty list raises [IndexError],
    and [raise NotImplemented] (a non-exception object) or calling a
    non-callable attribute raises [TypeError]. *)
Inductive exn : Type :=
| AttributeError
| IndexError
| TypeError.

#[global] Instance exn_eq_dec : EqDecision exn.
Proof. solve_decision. Defined.

Inductive result (A : Type) : Type :=
| Ok (a : A)
| Raise (e : exn).
Arguments Ok {A} a.
Arguments Raise {A} e.

(** The duck-typed interface [AddItemCommand] expects of its target. *)
Class ItemContainer (C : Type) : Type := {
  addItem : C -> val -> result C;
  removeItem : C -> val -> result C
}.

(** A target object: an instance with data attributes, a Python list, or an
    object offering [addItem]/[removeItem]. *)
Inductive obj (C : Type) : Type :=
| Instance (d : gmap string val)
| PyList (l : list val)
| Container (s : C).
Arguments Instance {C} d.
Arguments PyList {C} l.
Arguments Container {C} s.

Record world (C : Type) : Type := World {
  heap : gmap loc (obj C);
  originalItem : gmap cref val
}.
Arguments World {C} heap originalItem.
Arguments heap {C} w.
Arguments originalItem {C} w.

(** ** The command classes *)

Unset Elimination Schemes.
Inductive command : Type :=
| Command (self : cref)
| SetAttrCommand (self : cref) (object_ : loc) (attrName : string) (item : val)
| AppendCommand (self : cref) (object_ : loc) (item : val)
| AddItemCommand (self : cref) (object_ : loc) (item : val)
| CommandGroup (self : cref) (commands : list command).
Set Elimination Schemes.

Definition self_of (c : command) : cref :=
  match c with
  | Command self => self
  | SetAttrCommand self _ _ _ => self
  | AppendCommand self _ _ => self
  | AddItemCommand self _ _ => self
  | CommandGroup self _ => self
  end.

(** The [SetAttrCommand] objects a command executes, in execution order. *)
Fixpoint setattr_objects (c : command) : list cref :=
  match c with
  | SetAttrCommand self _ _ _ => [self]
  | CommandGroup _ commands => flat_map setattr_objects commands
  | _ => []
  end.

(** [l.pop()]: the last element and the rest, [None] on the empty list. *)
Definition pop {A : Type} (l : list A) : option (A * list A) :=
  match rev l with
  | [] => None
  | x :: r => Some (x, rev r)
  end.

(** ** The state-and-exception monad of the command methods

    An exception leaves the mutations made before it in place. *)

Section Monad.
Variable C : Type.

Definition M (A : Type) : Type := world C -> result A * world C.

Definition ret {A : Type} (a : A) : M A := fun w => (Ok a, w).

Definition raise {A : Type} (e : exn) : M A := fun w => (Raise e, w).

Definition bind {A B : Type} (m : M A) (k : A -> M B) : M B :=
  fun w =>
    match m w with
    | (Ok a, w') => k a w'
    | (Raise e, w') => (Raise e, w')
    end.

(** [for x in l: f(x)] *)
Definition for_each {A : Type} (f : A -> M unit) : list A -> M unit :=
  fix go (l : list A) : M unit :=
    match l with
    | [] => ret tt
    | x :: l' => bind (f x) (fun _ => go l')
    end.

(** [for x in reversed(l): f(x)] *)
Definition for_each_reversed {A : Type} (f : A -> M unit) : list A -> M unit :=
  fix go (l : list A) : M unit :=
    match l with
    | [] => ret tt
    | x :: l' => bind (go l') (fun _ => f x)
    end.
End Monad.

Arguments ret {C A} a w.
Arguments raise {C A} e w.
Arguments bind {C A B} m k w.
Arguments for_each {C A} f l w.
Arguments for_each_reversed {C A} f l w.

Notation "'let*' x ':=' m 'in' k" := (bind m (fun x => k))
  (at level 10, x name, m at level 100, k at level 200, only parsing).
Notation "m '>>' k" := (bind m (fun _ => k))
  (at level 61, left associativity, only parsing).

Section Commands.
Context {C : Type} `{!ItemContainer C}.

(** What calling the method [name] raises on an instance that does not
    define it: the attribute is missing, or it is data and not callable. *)
Definition no_method (d : gmap string val) (name : string) : exn :=
  match d !! name with
  | Some _ => TypeError
  | None => AttributeError
  end.

(** [getattr(o, a)] *)
Definition getattr (o : loc) (a : string) : M C val :=
  fun w =>
    match heap w !! o with
    | Some (Instance d) =>
        match d !! a with
        | Some v => (Ok v, w)
        | None => (Raise AttributeError, w)
        end
    | _ => (Raise AttributeError, w)
    end.

(** [setattr(o, a, v)] *)
Definition setattr (o : loc) (a : string) (v : val) : M C unit :=
  fun w =>
    match heap w !! o with
    | Some (Instance d) =>
        (Ok tt, World (<[o := Instance (<[a := v]> d)]> (heap w)) (originalItem w))
    | _ => (Raise AttributeError, w)
    end.

(** [o.append(x)] *)
Definition list_append (o : loc) (x : val) : M C unit :=
  fun w =>
    match heap w !! o with
    | Some (PyList l) =>
        (Ok tt, World (<[o := PyList (l ++ [x])]> (heap w)) (originalItem w))
    | Some (Instance d) => (Raise (no_method d "append"), w)
    | _ => (Raise AttributeError, w)
    end.

(** [o.pop()] *)
Definition list_pop (o : loc) : M C val :=
  fun w =>
    match heap w !! o with
    | Some (PyList l) =>
        match pop l with
        | Some (x, l') =>
            (Ok x, World (<[o := PyList l']> (heap w)) (originalItem w))
        | None => (Raise IndexError, w)
        end
    | Some (Instance d) => (Raise (no_method d "pop"), w)
    | _ => (Raise AttributeError, w)
    end.

(** [o.addItem(x)] and [o.removeItem(x)] *)
Definition call_item (name : string) (f : C -> val -> result C)
    (o : loc) (x : val) : M C unit :=
  fun w =>
    match heap w !! o with
    | Some (Container s) =>
        match f s x with
        | Ok s' => (Ok tt, World (<[o := Container s']> (heap w)) (originalItem w))
        | Raise e => (Raise e, w)
        end
    | Some (Instance d) => (Raise (no_method d name), w)
    | _ => (Raise AttributeError, w)
    end.

Definition add_item : loc -> val -> M C unit := call_item "addItem" addItem.
Definition remove_item : loc -> val -> M C unit := call_item "removeItem" removeItem.

(** [self.originalItem], [None] until the first assignment *)
Definition get_originalItem (self : cref) : M C val :=
  fun w => (Ok (default VNone (originalItem w !! self)), w).

(** [self.originalItem = v] *)
Definition set_originalItem (self : cref) (v : val) : M C unit :=
  fun w => (Ok tt, World (heap w) (<[self := v]> (originalItem w))).

(** ** Methods of the command classes *)

Fixpoint redo (c : command) : M C unit :=
  match c with
  | Command _ => raise TypeError
  | SetAttrCommand _ object_ attrName item => setattr object_ attrName item
  | AppendCommand _ object_ item => list_append object_ item
  | AddItemCommand _ object_ item => add_item object_ item
  | CommandGroup _ commands => for_each redo commands
  end.

Fixpoint undo (c : command) : M C unit :=
  match c with
  | Command _ => raise TypeError
  | SetAttrCommand self object_ attrName _ =>
      let* v := get_originalItem self in
      setattr object_ attrName v
  | AppendCommand _ object_ _ => list_pop object_ >> ret tt
  | AddItemCommand _ object_ item => remove_item object_ item
  | CommandGroup _ commands => for_each_reversed undo commands
  end.

Fixpoint do_ (c : command) : M C unit :=
  match c with
  | Command _ => raise TypeError
  | SetAttrCommand self object_ attrName _ =>
      let* v := getattr object_ attrName in
      set_originalItem self v >> redo c
  | AppendCommand _ _ _ => redo c
  | AddItemCommand _ _ _ => redo c
  | CommandGroup _ commands => for_each do_ commands
  end.

End Commands.

(** ** [UndoStack] *)

Module UndoStack.

Record t : Type := Make {
  history : list command;
  future : list command
}.

(** [__init__] *)
Definition init : t := Make [] [].

Definition push (command : command) (self : t) : t :=
  let self := Make (history self) [] in
  Make (history self ++ [command]) (future self).

Section Methods.
Context {C : Type} `{!ItemContainer C}.

Definition dispatch (command : command) (self : t) (w : world C)
    : result unit * t * world C :=
  match do_ command w with
  | (Ok _, w') => (Ok tt, push command self, w')
  | (Raise e, w') => (Raise e, self, w')
  end.

Definition undo (self : t) (w : world C) : result unit * t * world C :=
  match pop (history self) with
  | None => (Raise IndexError, self, w)
  | Some (command, h) =>
      let self := Make h (future self) in
      match undo command w with
      | (Ok _, w') => (Ok tt, Make (history self) (future self ++ [command]), w')
      | (Raise e, w') => (Raise e, self, w')
      end
  end.

Definition redo (self : t) (w : world C) : result unit * t * world C :=
  match pop (future self) with
  | None => (Raise IndexError, self, w)
  | Some (command, f) =>
      let self := Make (history self) f in
      match redo command w with
      | (Ok _, w') => (Ok tt, Make (history self ++ [command]) (future self), w')
      | (Raise e, w') => (Raise e, self, w')
      end
  end.

End Methods.

End UndoStack.

(** ** Clients: sequences of calls on one stack *)

Inductive op : Type :=
| Dispatch (c : command)
| Undo
| Redo.

Section Clients.
Context {C : Type} `{!ItemContainer C}.

Definition call (o : op) (s : UndoStack.t) (w : world C)
    : result unit * UndoStack.t * world C :=
  match o with
  | Dispatch c => UndoStack.dispatch c s w
  | Undo => UndoStack.undo s w
  | Redo => UndoStack.redo s w
  end.

(** The calls of [ops] in order, stopping at the first exception. *)
Fixpoint run (ops : list op) (s : UndoStack.t) (w : world C)
    : result unit * UndoStack.t * world C :=
  match ops with
  | [] => (Ok tt, s, w)
  | o :: ops' =>
      match call o s w with
      | (Ok _, s', w') => run ops' s' w'
      | (Raise e, s', w') => (Raise e, s', w')
      end
  end.

(** The calls of [ops] in order by a client that catches every exception
    and goes on: the state they leave. *)
Fixpoint run_catching (ops : list op) (s : UndoStack.t) (w : world C)
    : UndoStack.t * world C :=
  match ops with
  | [] => (s, w)
  | o :: ops' =>
      match call o s w with
      | (_, s', w') => run_catching ops' s' w'
      end
  end.

Definition dispatched (ops : list op) : list command :=
  flat_map (fun o => match o with Dispatch c => [c] | _ => [] end) ops.

(** Every [dispatch] among the calls [ops], made from [s] and [w] by a
    client that catches exceptions, is given a command object that is
    not in [history] at the time of the call. *)
Fixpoint dispatches_outside_history (ops : list op) (s : UndoStack.t)
    (w : world C) : Prop :=
  match ops with
  | [] => True
  | o :: ops' =>
      match o with
      | Dispatch c => self_of c ∉ map self_of (UndoStack.history s)
      | _ => True
      end /\
      match call o s w with
      | (_, s', w') => dispatches_outside_history ops' s' w'
      end
  end.

End Clients.

(** A container class for examples: a list of items, [addItem] puts the item
    in front, [removeItem] removes its first occurrence, if any. *)
Fixpoint remove_first (x : val) (s : list val) : list val :=
  match s with
  | [] => []
  | y :: s' => if decide (x = y) then s' else y :: remove_first x s'
  end.

#[global] Instance item_list : ItemContainer (list val) := {|
  addItem s x := Ok (x :: s);
  removeItem s x := Ok (remove_first x s)
|}.

(** The calls [ms] made one after the other, the first in the list first,
    up to the first one that raises. *)
Fixpoint in_order {C : Type} (ms : list (M C unit)) : M C unit :=
  match ms with
  | [] => ret tt
  | m :: ms' => bind m (fun _ => in_order ms')
  end.

(** ** Observations *)

(** [o.a], when [o] is an instance that has the attribute. *)
Definition attr_of {C : Type} (w : world C) (o : loc) (a : string) : option val :=
  match heap w !! o with
  | Some (Instance d) => d !! a
  | _ => None
  end.

(** The elements of the list [o]. *)
Definition items_of {C : Type} (w : world C) (o : loc) : option (list val) :=
  match heap w !! o with
  | Some (PyList l) => Some l
  | _ => None
  end.

(** [removeItem] is the opposite of [addItem], the assumption the docstring
    of [AddItemCommand] makes about the target. *)
Definition remove_undoes_add (C : Type) `{!ItemContainer C} : Prop :=
  forall (s s' : C) (x : val), addItem s x = Ok s' -> removeItem s' x = Ok s.

(** ** What a command reaches *)

(** The targets ([object_]) of the commands a command executes. *)
Fixpoint target_objects (c : command) : list loc :=
  match c with
  | Command _ => []
  | SetAttrCommand _ object_ _ _ => [object_]
  | AppendCommand _ object_ _ => [object_]
  | AddItemCommand _ object_ _ => [object_]
  | CommandGroup _ commands => flat_map target_objects commands
  end.

(** The commands that are not groups which a command executes, in the order
    of the [for] loops of [do]. *)
Fixpoint primitives (c : command) : list command :=
  match c with
  | CommandGroup _ commands => flat_map primitives commands
  | _ => [c]
  end.

(** An instance of the base class [Command] is among them. *)
Fixpoint has_Command (c : command) : bool :=
  match c with
  | Command _ => true
  | CommandGroup _ commands => existsb has_Command commands
  | _ => false
  end.

(** The class of a target object. *)
Inductive kind : Type :=
| KInstance
| KList
| KContainer.

Definition kind_of {C : Type} (o : obj C) : kind :=
  match o with
  | Instance _ => KInstance
  | PyList _ => KList
  | Container _ => KContainer
  end.

(** The objects outside [ls] are the same in both worlds. *)
Definition same_heap_outside {C : Type} (ls : list loc) (w w' : world C) : Prop :=
  forall l, l ∉ ls -> heap w' !! l = heap w !! l.

(** Both worlds hold the same objects, each of the same class. *)
Definition same_kinds {C : Type} (w w' : world C) : Prop :=
  forall l, kind_of <$> heap w' !! l = kind_of <$> heap w !! l.

(** From [w] to [w'] only objects of [ls] changed, and none changed class. *)
Definition within {C : Type} (ls : list loc) (w w' : world C) : Prop :=
  same_heap_outside ls w w' /\ same_kinds w w'.

(** The commands the stack holds, in the order they were first done: those
    of [history], then those of [future], most recently undone first. *)
Definition timeline (s : UndoStack.t) : list command :=
  UndoStack.history s ++ rev (UndoStack.future s).

(** ** The command objects as Python has them

    A second embedding of the command classes, for what the methods assign
    on the command objects themselves.  Here a command is an instance in
    the same store as the targets: an object with a class and a
    [__dict__], in which [__init__] has put [object_], [attrName], [item],
    [originalItem] or [commands] (a reference to the tuple of the
    children).  The methods read these attributes from [self] each time
    they need them, and a method call is looked up like any attribute: an
    entry of the [__dict__] with the name of the method hides the method.
    A call of [do], [undo] or [redo] takes one unit of [fuel], so that the
    methods are defined on stores in which a group reaches itself.
    The values are those of the embedding above: there is no class and no
    bound method among them, so reading a method or a special attribute as
    data ([getattr(c, "do")], [getattr(o, "__class__")]) and iterating
    over anything but a tuple are not modelled. *)

Module Objects.

Inductive class : Type :=
| class_object
| class_Command
| class_SetAttrCommand
| class_AppendCommand
| class_AddItemCommand
| class_CommandGroup.

#[global] Instance class_eq_dec : EqDecision class.
Proof. solve_decision. Defined.

Inductive pobj (C : Type) : Type :=
| Inst (k : class) (d : gmap string val)
| List (l : list val)
| Tuple (l : list val)
| Cont (s : C).
Arguments Inst {C} k d.
Arguments List {C} l.
Arguments Tuple {C} l.
Arguments Cont {C} s.

Inductive outcome (A : Type) : Type :=
| Done (a : A)
| Raised (e : exn)
| Exhausted.
Arguments Done {A} a.
Arguments Raised {A} e.
Arguments Exhausted {A}.

Inductive method : Type :=
| Do
| Undo
| Redo.

Definition method_name (m : method) : string :=
  match m with
  | Do => "do"
  | Undo => "undo"
  | Redo => "redo"
  end.

(** What looking up a method on a target gives: the method of a list or of
    a container, or an entry of the [__dict__], which cannot be called. *)
Inductive callee : Type :=
| Builtin
| NotCallable.

Section Methods.
Context {C : Type} `{!ItemContainer C}.

Definition OM (A : Type) : Type :=
  gmap loc (pobj C) -> outcome A * gmap loc (pobj C).

Definition oret {A : Type} (a : A) : OM A := fun h => (Done a, h).

Definition oraise {A : Type} (e : exn) : OM A := fun h => (Raised e, h).

Definition obind {A B : Type} (m : OM A) (k : A -> OM B) : OM B :=
  fun h =>
    match m h with
    | (Done a, h') => k a h'
    | (Raised e, h') => (Raised e, h')
    | (Exhausted, h') => (Exhausted, h')
    end.

Notation "'let+' x ':=' m 'in' k" := (obind m (fun x => k))
  (at level 10, x name, m at level 100, k at level 200, only parsing).

(** [for x in l: f(x)] *)
Definition ofor_each {A : Type} (f : A -> OM unit) : list A -> OM unit :=
  fix go (l : list A) : OM unit :=
    match l with
    | [] => oret tt
    | x :: l' => let+ _ := f x in go l'
    end.

(** [self.name], read from the [__dict__] of [self] *)
Definition attr (self : loc) (name : string) : OM val :=
  fun h =>
    match h !! self with
    | Some (Inst _ d) =>
        match d !! name with
        | Some v => (Done v, h)
        | None => (Raised AttributeError, h)
        end
    | _ => (Raised AttributeError, h)
    end.

(** [getattr(o, name)] *)
Definition getattr (o name : val) : OM val :=
  match name with
  | VStr a =>
      match o with
      | VRef l => attr l a
      | _ => oraise AttributeError
      end
  | _ => oraise TypeError
  end.

(** [setattr(o, name, v)], and [o.name = v] *)
Definition setattr (o name v : val) : OM unit :=
  fun h =>
    match name with
    | VStr a =>
        match o with
        | VRef l =>
            match h !! l with
            | Some (Inst k d) => (Done tt, <[l := Inst k (<[a := v]> d)]> h)
            | _ => (Raised AttributeError, h)
            end
        | _ => (Raised AttributeError, h)
        end
    | _ => (Raised TypeError, h)
    end.

(** [o.name], for the method [name] of a list ([is_list]) or of a
    container *)
Definition find_method (is_list : bool) (o : val) (name : string) : OM callee :=
  fun h =>
    match o with
    | VRef l =>
        match h !! l with
        | Some (List _) =>
            if is_list then (Done Builtin, h) else (Raised AttributeError, h)
        | Some (Cont _) =>
            if is_list then (Raised AttributeError, h) else (Done Builtin, h)
        | Some (Inst _ d) =>
            match d !! name with
            | Some _ => (Done NotCallable, h)
            | None => (Raised AttributeError, h)
            end
        | _ => (Raised AttributeError, h)
        end
    | _ => (Raised AttributeError, h)
    end.

(** the call [f(x)] of what [o.append] gave *)
Definition invoke_append (f : callee) (o x : val) : OM unit :=
  fun h =>
    match f, o with
    | Builtin, VRef l =>
        match h !! l with
        | Some (List xs) => (Done tt, <[l := List (xs ++ [x])]> h)
        | _ => (Raised AttributeError, h)
        end
    | _, _ => (Raised TypeError, h)
    end.

(** the call [f()] of what [o.pop] gave *)
Definition invoke_pop (f : callee) (o : val) : OM unit :=
  fun h =>
    match f, o with
    | Builtin, VRef l =>
        match h !! l with
        | Some (List xs) =>
            match pop xs with
            | Some (_, xs') => (Done tt, <[l := List xs']> h)
            | None => (Raised IndexError, h)
            end
        | _ => (Raised AttributeError, h)
        end
    | _, _ => (Raised TypeError, h)
    end.

(** the call [f(x)] of what [o.addItem] or [o.removeItem] gave *)
Definition invoke_item (op : C -> val -> result C) (f : callee) (o x : val)
    : OM unit :=
  fun h =>
    match f, o with
    | Builtin, VRef l =>
        match h !! l with
        | Some (Cont s) =>
            match op s x with
            | Ok s' => (Done tt, <[l := Cont s']> h)
            | Raise e => (Raised e, h)
            end
        | _ => (Raised AttributeError, h)
        end
    | _, _ => (Raised TypeError, h)
    end.

(** the elements of the tuple [self.commands] *)
Definition elements (t : val) : OM (list val) :=
  fun h =>
    match t with
    | VRef l =>
        match h !! l with
        | Some (Tuple cs) => (Done cs, h)
        | _ => (Raised TypeError, h)
        end
    | _ => (Raised TypeError, h)
    end.

(** [target.m()], for [m] one of [do], [undo], [redo] *)
Fixpoint call (fuel : nat) (m : method) (target : val) : OM unit :=
  match fuel with
  | 0 => fun h => (Exhausted, h)
  | S fuel =>
    fun h =>
      match target with
      | VRef self =>
        match h !! self with
        | Some (Inst k d) =>
          match d !! method_name m with
          | Some _ => (Raised TypeError, h)
          | None =>
            match k, m with
            | class_object, _ => (Raised AttributeError, h)
            | class_Command, _ => (Raised TypeError, h)
            | class_SetAttrCommand, Do =>
                (let+ o := attr self "object_" in
                 let+ a := attr self "attrName" in
                 let+ v := getattr o a in
                 let+ _ := setattr (VRef self) (VStr "originalItem") v in
                 call fuel Redo (VRef self)) h
            | class_SetAttrCommand, Undo =>
                (let+ o := attr self "object_" in
                 let+ a := attr self "attrName" in
                 let+ v := attr self "originalItem" in
                 setattr o a v) h
            | class_SetAttrCommand, Redo =>
                (let+ o := attr self "object_" in
                 let+ a := attr self "attrName" in
                 let+ v := attr self "item" in
                 setattr o a v) h
            | class_AppendCommand, Do => call fuel Redo (VRef self) h
            | class_AppendCommand, Undo =>
                (let+ o := attr self "object_" in
                 let+ f := find_method true o "pop" in
                 invoke_pop f o) h
            | class_AppendCommand, Redo =>
                (let+ o := attr self "object_" in
                 let+ f := find_method true o "append" in
                 let+ x := attr self "item" in
                 invoke_append f o x) h
            | class_AddItemCommand, Do => call fuel Redo (VRef self) h
            | class_AddItemCommand, Undo =>
                (let+ o := attr self "object_" in
                 let+ f := find_method false o "removeItem" in
                 let+ x := attr self "item" in
                 invoke_item removeItem f o x) h
            | class_AddItemCommand, Redo =>
                (let+ o := attr self "object_" in
                 let+ f := find_method false o "addItem" in
                 let+ x := attr self "item" in
                 invoke_item addItem f o x) h
            | class_CommandGroup, Do =>
                (let+ t := attr self "commands" in
                 let+ cs := elements t in
                 ofor_each (call fuel Do) cs) h
            | class_CommandGroup, Undo =>
                (let+ t := attr self "commands" in
                 let+ cs := elements t in
                 ofor_each (call fuel Undo) (rev cs)) h
            | class_CommandGroup, Redo =>
                (let+ t := attr self "commands" in
                 let+ cs := elements t in
                 ofor_each (call fuel Redo) cs) h
            end
          end
        | _ => (Raised AttributeError, h)
        end
      | _ => (Raised AttributeError, h)
      end
  end.

(** [o] is a command object in [h]: an instance of one of the classes of
    [undo.py]. *)
Definition is_command (h : gmap loc (pobj C)) (o : val) : bool :=
  match o with
  | VRef l =>
      match h !! l with
      | Some (Inst k _) => negb (bool_decide (k = class_object))
      | _ => false
      end
  | _ => false
  end.

(** No command object of [h] has a command object as its [object_]. *)
Definition targets_are_not_commands (h : gmap loc (pobj C)) : Prop :=
  map_Forall
    (fun _ x =>
       match x with
       | Inst k d =>
           if bool_decide (k = class_object) then true
           else match d !! "object_" with
                | Some o => negb (is_command h o)
                | None => true
                end
       | _ => true
       end = true) h.

(** From [h] to [h'] every object kept its class, and every command object
    its [__dict__] but for [originalItem]; it kept [originalItem] too
    unless [m] is [do] and the object is a [SetAttrCommand]. *)
Definition keeps_commands (m : method) (h h' : gmap loc (pobj C)) : Prop :=
  (forall l, match h !! l, h' !! l with
             | Some (Inst k _), Some (Inst k' _) => k' = k
             | Some (List _), Some (List _) => True
             | Some (Tuple t), Some (Tuple t') => t' = t
             | Some (Cont _), Some (Cont _) => True
             | None, None => True
             | _, _ => False
             end) /\
  forall l k d, h !! l = Some (Inst k d) -> k <> class_object ->
    exists d', h' !! l = Some (Inst k d') /\
      (forall a, a <> "originalItem" -> d' !! a = d !! a) /\
      (m <> Do \/ k <> class_SetAttrCommand -> d' = d).

(** From [h] to [h'] every tuple is as it was, and every command object
    has its class and every attribute of its [__dict__] but [originalItem]
    as they were; [originalItem] too is as it was, unless [m] is [do] and
    the object is a [SetAttrCommand]. *)
Definition commands_unchanged (m : method) (h h' : gmap loc (pobj C)) : Prop :=
  (forall l t, h !! l = Some (Tuple t) -> h' !! l = Some (Tuple t)) /\
  forall l k d, h !! l = Some (Inst k d) -> k <> class_object ->
    exists d', h' !! l = Some (Inst k d') /\
      (forall a, a <> "originalItem" -> d' !! a = d !! a) /\
      (m <> Do \/ k <> class_SetAttrCommand -> d' = d).

(** [SetAttrCommand.__init__] *)
Definition SetAttrCommand__init__ (self : loc) (object_ attrName item : val)
    : OM unit :=
  let+ _ := setattr (VRef self) (VStr "object_") object_ in
  let+ _ := setattr (VRef self) (VStr "attrName") attrName in
  let+ _ := setattr (VRef self) (VStr "item") item in
  setattr (VRef self) (VStr "originalItem") VNone.

(** [AppendCommand.__init__] *)
Definition AppendCommand__init__ (self : loc) (object_ item : val) : OM unit :=
  let+ _ := setattr (VRef self) (VStr "object_") object_ in
  setattr (VRef self) (VStr "item") item.

(** [AddItemCommand.__init__] *)
Definition AddItemCommand__init__ (self : loc) (object_ item : val) : OM unit :=
  let+ _ := setattr (VRef self) (VStr "object_") object_ in
  setattr (VRef self) (VStr "item") item.

(** [CommandGroup.__init__], with [commands] the tuple of the arguments *)
Definition CommandGroup__init__ (self : loc) (commands : val) : OM unit :=
  setattr (VRef self) (VStr "commands") commands.

(** [k(...)]: a new instance of [k] at the address [self], on which
    [__init__] is run *)
Definition new (k : class) (self : loc) (init : loc -> OM unit) : OM val :=
  fun h =>
    match init self (<[self := Inst k ∅]> h) with
    | (Done _, h') => (Done (VRef self), h')
    | (Raised e, h') => (Raised e, h')
    | (Exhausted, h') => (Exhausted, h')
    end.

(** the tuple [*commands] of the arguments of a call, at the address [l] *)
Definition new_tuple (l : loc) (cs : list val) : OM val :=
  fun h => (Done (VRef l), <[l := Tuple cs]> h).

End Methods.

End Objects.

(** ** [RigGraphicsView] ([RigUIControls.py]): the lists the view keeps

    The view is a Qt widget; what is embedded here is the part of it that
    works on Python lists: the list of active guide markers, the list of
    all markers, the names of the wire groups and the choice of the item a
    context menu is for.  The scene items are objects of classes that are
    not part of this file ([GuideMarker], [WireGroup], ...): they are
    references, [==] on them is identity, and what their methods do is a
    parameter. *)

Module RigGraphicsView.

Definition mref := nat.

(** [l.remove(x)]: without the first element equal to [x]; [None] when
    there is none (Python raises [ValueError]). *)
Fixpoint list_remove (x : mref) (l : list mref) : option (list mref) :=
  match l with
  | [] => None
  | y :: l' =>
      if Nat.eqb y x then Some l'
      else match list_remove x l' with
           | Some r => Some (y :: r)
           | None => None
           end
  end.

Inductive outcome : Type :=
| Returned
| ValueError.

Section View.

(** The state of a [GuideMarker] object and its two setters. *)
Variable marker_state : Type.
Variable setActive : bool -> marker_state -> marker_state.
Variable setActiveIndex : nat -> marker_state -> marker_state.

Record view : Type := View {
  markerList : list mref;
  markerActiveList : list mref;
  markers : gmap mref marker_state
}.

(** [for index, item in enumerate(self.markerActiveList):
       item.setActiveIndex(index)] *)
Fixpoint setActiveIndex_from (index : nat) (l : list mref)
    (ms : gmap mref marker_state) : gmap mref marker_state :=
  match l with
  | [] => ms
  | item :: l' =>
      setActiveIndex_from (S index) l' (alter (setActiveIndex index) item ms)
  end.

Definition processMarkerActiveIndex (v : view) : view :=
  View (markerList v) (markerActiveList v)
       (setActiveIndex_from 0 (markerActiveList v) (markers v)).

(** [for item in self.markerActiveList: if marker == item: itemPresent = True] *)
Definition itemPresent (marker : mref) (l : list mref) : bool :=
  fold_left (fun present item => if Nat.eqb marker item then true else present)
            l false.

Definition processMarkerSelection (marker : mref) (v : view) : outcome * view :=
  let (r, v1) :=
    if itemPresent marker (markerActiveList v) then
      if Nat.ltb 1 (length (markerActiveList v)) then
        match list_remove marker (markerActiveList v) with
        | Some l' =>
            (Returned,
             View (markerList v) l' (alter (setActive false) marker (markers v)))
        | None => (ValueError, v)
        end
      else if Nat.eqb (length (markerActiveList v)) 1 then
        (Returned,
         View (markerList v) [] (alter (setActive false) marker (markers v)))
      else (Returned, v)
    else
      (Returned,
       View (markerList v) (markerActiveList v ++ [marker])
            (alter (setActive true) marker (markers v))) in
  match r with
  | Returned => (Returned, processMarkerActiveIndex v1)
  | ValueError => (ValueError, v1)
  end.

Definition processMarkerDelete (marker : mref) (v : view) : outcome * view :=
  let (r, v1) :=
    if itemPresent marker (markerActiveList v) then
      if Nat.ltb 1 (length (markerActiveList v)) then
        match list_remove marker (markerActiveList v) with
        | Some l' =>
            (Returned,
             View (markerList v) l' (alter (setActive false) marker (markers v)))
        | None => (ValueError, v)
        end
      else
        (Returned,
         View (markerList v) [] (alter (setActive false) marker (markers v)))
    else (Returned, v) in
  match r with
  | Returned =>
      match list_remove marker (markerList v1) with
      | Some l' => (Returned, View l' (markerActiveList v1) (markers v1))
      | None => (ValueError, v1)
      end
  | ValueError => (ValueError, v1)
  end.

End View.

Section Items.

(** A scene item, and the test [type(item) == SkinningEllipse]. *)
Variable item : Type.
Variable is_SkinningEllipse : item -> bool.

(** [items] is [self.items(event.pos())]; the result is [None] when the
    method returns nothing. *)
Definition sortMenuItem (items : list item) : option item :=
  if negb (Nat.eqb (length items) 0) then
    let noneSkinItems :=
      fold_left (fun found it => if negb (is_SkinningEllipse it) then true else found)
                items false in
    if noneSkinItems then find (fun it => negb (is_SkinningEllipse it)) items
    else head items
  else None.

End Items.

Section WireGroups.

(** A [WireGroup] object and its [getName()]. *)
Variable wireGroup : Type.
Variable getName : wireGroup -> string.

Definition checkUniqueWireGroup (wireGroups : list wireGroup) (wireName : string)
    : bool :=
  fold_left (fun unique wg => if String.eqb wireName (getName wg) then false else unique)
            wireGroups true.

End WireGroups.

End RigGraphicsView.

(** ** Predicates used in the proofs *)

Section Predicates.
Context {C : Type} `{!ItemContainer C}.

(** Whatever its outcome, [m] leaves a world related by [R] to the one it
    started from. *)
Definition keeps {A : Type} (R : world C -> world C -> Prop) (m : M C A) : Prop :=
  forall w r w', m w = (r, w') -> R w w'.

(** The commands' [originalItem]s are the same in both worlds: everywhere,
    or on every command object outside [ids]. *)
Definition same_originalItem (w w' : world C) : Prop :=
  originalItem w' = originalItem w.

Definition same_originalItem_outside (ids : list cref) (w w' : world C) : Prop :=
  forall i, i ∉ ids -> originalItem w' !! i = originalItem w !! i.

(** The outcome and the heap a step leaves depend on the heap alone. *)
Definition heap_only {A : Type} (m : M C A) : Prop :=
  forall w w2 r w', m w = (r, w') -> heap w2 = heap w ->
    m w2 = (r, World (heap w') (originalItem w2)).

(** The state of a stack whose calls all succeeded, started from [w0]:
    the heap is the one the commands of [history] leave when done in
    order from [w0]; the commands of [future], most recently undone
    first, can be done after them; and the [originalItem]s are the ones
    those [do]s assign. *)
Definition plays (w0 : world C) (s : UndoStack.t) (w : world C) : Prop :=
  exists wh wf,
    for_each do_ (UndoStack.history s) w0 = (Ok tt, wh) /\
    for_each do_ (rev (UndoStack.future s)) wh = (Ok tt, wf) /\
    heap w = heap wh /\
    (forall i, i ∈ flat_map setattr_objects (UndoStack.history s ++ rev (UndoStack.future s)) ->
       originalItem w !! i = originalItem wf !! i) /\
    NoDup (flat_map setattr_objects (UndoStack.history s ++ rev (UndoStack.future s))).

(** No command object is recorded twice in [history] and [future]. *)
Definition distinct_objects (s : UndoStack.t) : Prop :=
  NoDup (map self_of (UndoStack.history s ++ UndoStack.future s)).

End Predicates.

(** ** Example data *)

(** An instance [0] with [x = 1] and an empty list [1]. *)
Definition example_world : world (list val) :=
  World (<[1 := PyList []]> (<[0 := Instance (<["x" := VInt 1]> ∅)]> ∅)) ∅.

Definition set_x_5 : command := SetAttrCommand 7 0 "x" (VInt 5).
Definition set_x_9 : command := SetAttrCommand 8 0 "x" (VInt 9).
Definition append_a : command := AppendCommand 3 1 (VStr "a").

(** A container class in which [addItem] of an item that is already there
    does nothing, as in a Qt scene, and [removeItem] removes the item. *)
Definition item_set : ItemContainer (list val) := {|
  addItem s x := Ok (if decide (x ∈ s) then s else x :: s);
  removeItem s x := Ok (remove_first x s)
|}.

(** A container [2] holding the item ["i"]. *)
Definition example_scene : world (list val) :=
  World (<[2 := Container [VStr "i"]]> ∅) ∅.

(** The objects of [example_world] with command objects beside them:
    [7 = SetAttrCommand(0, "x", 5)], [3 = AppendCommand(1, "a")] and
    [10 = CommandGroup(7, 3)], whose tuple of children is [9]. *)
Definition example_objects : gmap loc (Objects.pobj (list val)) :=
  (Objects.obind
     (Objects.new Objects.class_SetAttrCommand 7
        (fun self => Objects.SetAttrCommand__init__ self (VRef 0) (VStr "x") (VInt 5)))
     (fun c7 =>
   Objects.obind
     (Objects.new Objects.class_AppendCommand 3
        (fun self => Objects.AppendCommand__init__ self (VRef 1) (VStr "a")))
     (fun c3 =>
   Objects.obind (Objects.new_tuple 9 [c7; c3])
     (fun t =>
   Objects.new Objects.class_CommandGroup 10
     (fun self => Objects.CommandGroup__init__ self t))))
     (<[1 := Objects.List []]>
        (<[0 := Objects.Inst Objects.class_object (<["x" := VInt 1]> ∅)]> ∅))).2.

(** [example_objects] and [8 = SetAttrCommand(7, "item", 9)], a command
    whose target is the command object [7]. *)
Definition example_command_on_command : gmap loc (Objects.pobj (list val)) :=
  (Objects.new Objects.class_SetAttrCommand 8
     (fun self => Objects.SetAttrCommand__init__ self (VRef 7) (VStr "item") (VInt 9))
     example_objects).2.

(** A view with the markers [4], [5], [6], of which [5] and [4] are active;
    in the examples the state of a marker is its active flag and its active
    index. *)
Definition example_view : RigGraphicsView.view (bool * nat) :=
  RigGraphicsView.View _ [4; 5; 6] [5; 4] ∅.

(** ** Lists, loops and the monad *)

Lemma pop_nil {A : Type} : pop (@nil A) = None.
Proof. reflexivity. Qed.

Lemma pop_snoc {A : Type} (l : list A) (x : A) : pop (l ++ [x]) = Some (x, l).
Proof. unfold pop. rewrite rev_unit, rev_involutive. reflexivity. Qed.

Lemma pop_None {A : Type} (l : list A) : pop l = None -> l = [].
Proof.
  destruct l as [|y l] using rev_ind; [done|].
  rewrite pop_snoc. discriminate.
Qed.

Lemma pop_Some {A : Type} (l l' : list A) (x : A) :
  pop l = Some (x, l') -> l = l' ++ [x].
Proof.
  destruct l as [|y l _] using rev_ind; [discriminate|].
  rewrite pop_snoc. congruence.
Qed.

Lemma world_eta {C : Type} (w : world C) : World (heap w) (originalItem w) = w.
Proof. by destruct w. Qed.

Lemma command_ind (P : command -> Prop) :
  (forall self, P (Command self)) ->
  (forall self object_ attrName item, P (SetAttrCommand self object_ attrName item)) ->
  (forall self object_ item, P (AppendCommand self object_ item)) ->
  (forall self object_ item, P (AddItemCommand self object_ item)) ->
  (forall self commands, Forall P commands -> P (CommandGroup self commands)) ->
  forall c, P c.
Proof.
  intros HC HS HA HI HG.
  fix IH 1. intros [self|self o a i|self o i|self o i|self cs].
  - apply HC.
  - apply HS.
  - apply HA.
  - apply HI.
  - apply HG. induction cs as [|c cs IHcs]; constructor; [apply IH | exact IHcs].
Qed.

Section MonadFacts.
Context {C : Type}.

Lemma bind_Ok {A B : Type} (m : M C A) (k : A -> M C B) w b w' :
  bind m k w = (Ok b, w') ->
  exists a w1, m w = (Ok a, w1) /\ k a w1 = (Ok b, w').
Proof.
  unfold bind. destruct (m w) as [[a|e] w1]; [eauto | discriminate].
Qed.

Lemma bind_step {A B : Type} (m : M C A) (k : A -> M C B) w a w1 :
  m w = (Ok a, w1) -> bind m k w = k a w1.
Proof. unfold bind. by intros ->. Qed.

Lemma bind_Raise {A B : Type} (m : M C A) (k : A -> M C B) w e w1 :
  m w = (Raise e, w1) -> bind m k w = (Raise e, w1).
Proof. unfold bind. by intros ->. Qed.

Lemma for_each_app {A : Type} (f : A -> M C unit) (l1 l2 : list A) w :
  for_each f (l1 ++ l2) w = bind (for_each f l1) (fun _ => for_each f l2) w.
Proof.
  revert w. induction l1 as [|x l1 IH]; intros w; simpl.
  - reflexivity.
  - unfold bind in *. destruct (f x w) as [[[]|e] w1]; [apply IH | reflexivity].
Qed.

Lemma for_each_reversed_rev {A : Type} (f : A -> M C unit) (l : list A) w :
  for_each_reversed f l w = for_each f (rev l) w.
Proof.
  revert w. induction l as [|x l IH]; intros w; simpl.
  - reflexivity.
  - rewrite for_each_app. unfold bind. rewrite IH.
    destruct (for_each f (rev l) w) as [[[]|e] w1]; [|reflexivity].
    simpl. unfold bind, ret. by destruct (f x w1) as [[[]|e] w2].
Qed.


Lemma keeps_bind {A B : Type} (R : world C -> world C -> Prop)
    (m : M C A) (k : A -> M C B) :
  Transitive R -> keeps R m -> (forall a, keeps R (k a)) -> keeps R (bind m k).
Proof.
  intros HT Hm Hk w r w'. unfold bind.
  destruct (m w) as [[a|e] w1] eqn:E; intros H.
  - etrans; [by eapply Hm | by eapply Hk].
  - inversion H; subst. by eapply Hm.
Qed.

Lemma keeps_for_each {A : Type} (R : world C -> world C -> Prop)
    (f : A -> M C unit) (l : list A) :
  Reflexive R -> Transitive R ->
  Forall (fun x => keeps R (f x)) l -> keeps R (for_each f l).
Proof.
  intros HR HT. induction 1 as [|x l Hx Hl IH]; simpl.
  - intros w r w' [= <- <-]. reflexivity.
  - apply keeps_bind; auto.
Qed.

Lemma keeps_for_each_reversed {A : Type} (R : world C -> world C -> Prop)
    (f : A -> M C unit) (l : list A) :
  Reflexive R -> Transitive R ->
  Forall (fun x => keeps R (f x)) l -> keeps R (for_each_reversed f l).
Proof.
  intros HR HT. induction 1 as [|x l Hx Hl IH]; simpl.
  - intros w r w' [= <- <-]. reflexivity.
  - apply keeps_bind; auto.
Qed.

End MonadFacts.

(** ** What the command methods write *)

Section CommandFacts.
Context {C : Type} `{!ItemContainer C}.



#[local] Instance same_originalItem_refl : Reflexive (same_originalItem (C:=C)).
Proof. by intros w. Qed.

#[local] Instance same_originalItem_trans : Transitive (same_originalItem (C:=C)).
Proof. unfold same_originalItem. intros w1 w2 w3 H1 H2. congruence. Qed.

#[local] Instance same_outside_refl ids : Reflexive (same_originalItem_outside (C:=C) ids).
Proof. by intros w i _. Qed.

#[local] Instance same_outside_trans ids : Transitive (same_originalItem_outside (C:=C) ids).
Proof. intros w1 w2 w3 H1 H2 i Hi. rewrite H2, H1; auto. Qed.

Lemma same_outside_mono ids ids' (w w' : world C) :
  (forall i, i ∈ ids -> i ∈ ids') ->
  same_originalItem_outside ids w w' -> same_originalItem_outside ids' w w'.
Proof. intros Hsub H i Hi. apply H. intros Hin. apply Hi, Hsub, Hin. Qed.

Lemma same_everywhere_outside ids (w w' : world C) :
  same_originalItem w w' -> same_originalItem_outside ids w w'.
Proof. intros H i _. by rewrite H. Qed.

Lemma setattr_keeps o a v : keeps (same_originalItem (C:=C)) (setattr (C:=C) o a v).
Proof.
  intros w r w'. unfold setattr.
  destruct (heap w !! o) as [[d|l|s]|]; intros [= <- <-]; reflexivity.
Qed.

Lemma list_append_keeps o x : keeps (same_originalItem (C:=C)) (list_append (C:=C) o x).
Proof.
  intros w r w'. unfold list_append.
  destruct (heap w !! o) as [[d|l|s]|]; intros [= <- <-]; reflexivity.
Qed.

Lemma list_pop_keeps o : keeps (same_originalItem (C:=C)) (list_pop (C:=C) o).
Proof.
  intros w r w'. unfold list_pop.
  destruct (heap w !! o) as [[d|l|s]|]; [|destruct (pop l) as [[x l']|]| |];
    intros [= <- <-]; reflexivity.
Qed.

Lemma call_item_keeps name f o x : keeps (same_originalItem (C:=C)) (call_item name f o x).
Proof.
  intros w r w'. unfold call_item.
  destruct (heap w !! o) as [[d|l|s]|]; [| |destruct (f s x)|];
    intros [= <- <-]; reflexivity.
Qed.

Lemma getattr_unchanged o a (w : world C) r w' :
  getattr o a w = (r, w') -> w' = w.
Proof.
  unfold getattr.
  destruct (heap w !! o) as [[d|l|s]|]; [destruct (d !! a)| | |];
    by intros [= <- <-].
Qed.

(** [redo] never assigns [originalItem]. *)
Lemma redo_keeps_originalItem (c : command) : keeps (same_originalItem (C:=C)) (redo c).
Proof.
  induction c as [self|self o a i|self o i|self o i|self cs IH]
    using command_ind; simpl.
  - by intros w r w' [= <- <-].
  - apply setattr_keeps.
  - apply list_append_keeps.
  - apply call_item_keeps.
  - apply keeps_for_each; [apply _ ..| exact IH].
Qed.

(** [undo] never assigns [originalItem]. *)
Lemma undo_keeps_originalItem (c : command) : keeps (same_originalItem (C:=C)) (undo c).
Proof.
  induction c as [self|self o a i|self o i|self o i|self cs IH]
    using command_ind; simpl.
  - by intros w r w' [= <- <-].
  - apply keeps_bind; [apply _| |intros v; apply setattr_keeps].
    by intros w r w' [= <- <-].
  - apply keeps_bind; [apply _|apply list_pop_keeps|].
    by intros v w r w' [= <- <-].
  - apply call_item_keeps.
  - apply keeps_for_each_reversed; [apply _ ..| exact IH].
Qed.

(** [do] assigns [originalItem] on the [SetAttrCommand] objects it executes
    and on no other command. *)
Lemma do_keeps_other_originalItem (c : command) :
  keeps (same_originalItem_outside (C:=C) (setattr_objects c)) (do_ c).
Proof.
  induction c as [self|self o a i|self o i|self o i|self cs IH]
    using command_ind; simpl.
  - by intros w r w' [= <- <-].
  - intros w r w'. unfold bind.
    destruct (getattr o a w) as [[v|e] w1] eqn:Eg;
      apply getattr_unchanged in Eg as ->; [|by intros [= <- <-]].
    simpl. intros H j Hj.
    assert (originalItem w' = <[self:=v]> (originalItem w)) as ->.
    { apply (setattr_keeps o a i _ r w') in H. exact H. }
    apply lookup_insert_ne. set_solver.
  - intros w r w' H. eapply same_everywhere_outside, list_append_keeps, H.
  - intros w r w' H. eapply same_everywhere_outside, call_item_keeps, H.
  - apply keeps_for_each; [apply _ ..|].
    rewrite Forall_forall in IH |- *. intros c Hc w r w' H.
    eapply same_outside_mono; [|by eapply IH].
    intros j Hj. apply list_elem_of_In, in_flat_map.
    exists c. split; by apply list_elem_of_In.
Qed.

End CommandFacts.

(** ** [undo] after [do], [redo] after [undo] *)

Section RoundTrip.
Context {C : Type} `{!ItemContainer C}.


Lemma setattr_heap_only o a v : heap_only (setattr (C:=C) o a v).
Proof.
  intros w w2 r w'. unfold setattr. intros H E. rewrite E.
  destruct (heap w !! o) as [[d|l|s]|]; inversion H; subst; simpl;
    rewrite <- ?E, ?world_eta; reflexivity.
Qed.

Lemma list_append_heap_only o x : heap_only (list_append (C:=C) o x).
Proof.
  intros w w2 r w'. unfold list_append. intros H E. rewrite E.
  destruct (heap w !! o) as [[d|l|s]|]; inversion H; subst; simpl;
    rewrite <- ?E, ?world_eta; reflexivity.
Qed.

Lemma call_item_heap_only name f o x : heap_only (C:=C) (call_item name f o x).
Proof.
  intros w w2 r w'. unfold call_item. intros H E. rewrite E.
  destruct (heap w !! o) as [[d|l|s]|]; [| |destruct (f s x)|];
    inversion H; subst; simpl; rewrite <- ?E, ?world_eta; reflexivity.
Qed.

Lemma do_SetAttrCommand_Ok self o a item (w w' : world C) :
  do_ (SetAttrCommand self o a item) w = (Ok tt, w') ->
  exists d v, heap w !! o = Some (Instance d) /\ d !! a = Some v /\
    w' = World (<[o := Instance (<[a := item]> d)]> (heap w))
               (<[self := v]> (originalItem w)).
Proof.
  simpl. unfold bind, getattr, set_originalItem, setattr. simpl.
  destruct (heap w !! o) as [[d|l|s]|] eqn:E; try discriminate.
  destruct (d !! a) as [v|] eqn:Ea; try discriminate.
  simpl. rewrite E. intros [= <-]. eauto.
Qed.

Lemma list_append_Ok o x (w w' : world C) :
  list_append o x w = (Ok tt, w') ->
  exists l, heap w !! o = Some (PyList l) /\
    w' = World (<[o := PyList (l ++ [x])]> (heap w)) (originalItem w).
Proof.
  unfold list_append.
  destruct (heap w !! o) as [[d|l|s]|]; try discriminate.
  intros [= <-]. eauto.
Qed.

Lemma add_item_Ok o x (w w' : world C) :
  add_item o x w = (Ok tt, w') ->
  exists s s', heap w !! o = Some (Container s) /\ addItem s x = Ok s' /\
    w' = World (<[o := Container s']> (heap w)) (originalItem w).
Proof.
  unfold add_item, call_item.
  destruct (heap w !! o) as [[d|l|s]|]; try discriminate.
  destruct (addItem s x) as [s'|e] eqn:E; try discriminate.
  intros [= <-]. eauto.
Qed.

(** Where [do] succeeds, [redo] succeeds from the same heap and leaves the
    same heap. *)
Lemma redo_of_do (c : command) (w w' w2 : world C) :
  do_ c w = (Ok tt, w') -> heap w2 = heap w ->
  redo c w2 = (Ok tt, World (heap w') (originalItem w2)).
Proof.
  revert w w' w2.
  induction c as [self|self o a i|self o i|self o i|self cs IH]
    using command_ind; intros w w' w2 Hdo E.
  - discriminate.
  - apply do_SetAttrCommand_Ok in Hdo as (d & v & Ho & Ha & ->).
    simpl. unfold setattr. rewrite E, Ho. reflexivity.
  - simpl in *. by eapply list_append_heap_only.
  - simpl in *. by eapply call_item_heap_only.
  - simpl in *. revert w w' w2 Hdo E.
    induction IH as [|c cs Hc _ IHcs]; intros w w' w2 Hdo E; simpl in *.
    + injection Hdo as <-. unfold ret. by rewrite <- E, world_eta.
    + apply bind_Ok in Hdo as ([] & w1 & Hc1 & Hrest).
      erewrite bind_step; [|by eapply Hc].
      exact (IHcs w1 w' (World (heap w1) (originalItem w2)) Hrest eq_refl).
Qed.

(** [do] from an equal heap succeeds alike, leaves an equal heap and
    assigns the same [originalItem]s. *)
Lemma do_heap_only (c : command) (w w' w2 : world C) :
  do_ c w = (Ok tt, w') -> heap w2 = heap w ->
  exists w2', do_ c w2 = (Ok tt, w2') /\ heap w2' = heap w' /\
    forall i, i ∈ setattr_objects c ->
      originalItem w2' !! i = originalItem w' !! i.
Proof.
  revert w w' w2.
  induction c as [self|self o a i|self o i|self o i|self cs IH]
    using command_ind; intros w w' w2 Hdo E.
  - discriminate.
  - apply do_SetAttrCommand_Ok in Hdo as (d & v & Ho & Ha & ->).
    eexists. split; [|split].
    + simpl. unfold bind, getattr, set_originalItem, setattr. simpl.
      rewrite E, Ho, Ha. simpl. rewrite E, Ho. reflexivity.
    + reflexivity.
    + simpl. intros j Hj. apply list_elem_of_singleton in Hj as ->.
      by rewrite !lookup_insert_eq.
  - simpl in *. eexists. split; [by eapply list_append_heap_only|].
    split; [done|]. intros j Hj. by apply not_elem_of_nil in Hj.
  - simpl in *. eexists. split; [by eapply call_item_heap_only|].
    split; [done|]. intros j Hj. by apply not_elem_of_nil in Hj.
  - simpl in *. revert w w' w2 Hdo E.
    induction IH as [|c cs Hc Hcs IHcs]; intros w w' w2 Hdo E; simpl in *.
    + injection Hdo as <-. exists w2. split; [done|]. split; [done|].
      intros j Hj. by apply not_elem_of_nil in Hj.
    + apply bind_Ok in Hdo as ([] & w1 & Hc1 & Hrest).
      destruct (Hc _ _ _ Hc1 E) as (w21 & Hc2 & E1 & A1).
      destruct (IHcs _ _ _ Hrest E1) as (w2' & Hrest2 & E' & A').
      exists w2'. split; [by erewrite bind_step|]. split; [done|].
      intros j Hj.
      destruct (decide (j ∈ flat_map setattr_objects cs)) as [Hin|Hout];
        [by apply A'|].
      apply elem_of_app in Hj as [Hj|Hj]; [|done].
      pose proof (do_keeps_other_originalItem (CommandGroup 0 cs)) as F.
      rewrite (F w21 _ w2' Hrest2 j Hout), (F w1 _ w' Hrest j Hout).
      by apply A1.
Qed.

Lemma pop_heap_after_append o l x (h : gmap loc (obj C)) :
  h !! o = Some (PyList l) ->
  <[o := PyList l]> (<[o := PyList (l ++ [x])]> h) = h.
Proof. intros H. rewrite insert_insert_eq. by apply insert_id. Qed.

(** Where [removeItem] is the opposite of [addItem]: [undo] run on the heap
    a successful [do] left, with the [originalItem]s it assigned, succeeds
    and gives back the heap [do] started from. *)
Lemma undo_of_do (c : command) (w w' w2 : world C) :
  remove_undoes_add C ->
  do_ c w = (Ok tt, w') ->
  NoDup (setattr_objects c) ->
  heap w2 = heap w' ->
  (forall i, i ∈ setattr_objects c ->
     originalItem w2 !! i = originalItem w' !! i) ->
  undo c w2 = (Ok tt, World (heap w) (originalItem w2)).
Proof.
  intros Hlaw. revert w w' w2.
  induction c as [self|self o a i|self o i|self o i|self cs IH]
    using command_ind; intros w w' w2 Hdo Hnd E A.
  - discriminate.
  - apply do_SetAttrCommand_Ok in Hdo as (d & v & Ho & Ha & ->).
    simpl in *. unfold bind, get_originalItem, setattr. simpl.
    rewrite A by set_solver. rewrite lookup_insert_eq. simpl.
    rewrite E, lookup_insert_eq. do 2 f_equal.
    rewrite insert_insert_eq, insert_insert_eq.
    rewrite (insert_id d a v Ha). by apply insert_id.
  - simpl in *. apply list_append_Ok in Hdo as (l & Ho & ->). simpl in *.
    unfold bind, list_pop. rewrite E, lookup_insert_eq, pop_snoc. simpl.
    unfold ret. do 2 f_equal. by apply pop_heap_after_append.
  - simpl in *. apply add_item_Ok in Hdo as (s & s' & Ho & Hadd & ->).
    simpl in *. unfold remove_item, call_item.
    rewrite E, lookup_insert_eq, (Hlaw _ _ _ Hadd). do 2 f_equal.
    rewrite insert_insert_eq. by apply insert_id.
  - simpl in *. revert w w' w2 Hdo Hnd E A.
    induction IH as [|c cs Hc Hcs IHcs]; intros w w' w2 Hdo Hnd E A; simpl in *.
    + injection Hdo as <-. unfold ret. by rewrite <- E, world_eta.
    + apply bind_Ok in Hdo as ([] & w1 & Hc1 & Hrest).
      apply NoDup_app in Hnd as (Hnd1 & Hdisj & Hnd2).
      erewrite bind_step; cycle 1.
      { eapply IHcs; [exact Hrest|exact Hnd2|exact E|].
        intros j Hj. apply A, elem_of_app. by right. }
      apply (Hc w w1 (World (heap w1) (originalItem w2)) Hc1 Hnd1 eq_refl).
      simpl. intros j Hj. rewrite A by (apply elem_of_app; by left).
      apply (do_keeps_other_originalItem (CommandGroup 0 cs) w1 _ w' Hrest).
      by apply Hdisj.
Qed.

End RoundTrip.

(** ** The stack along a run of successful calls *)

Section StackFacts.
Context {C : Type} `{!ItemContainer C}.

Abbreviation ids := (flat_map setattr_objects).

Lemma run_app (ops1 ops2 : list op) (s : UndoStack.t) (w : world C) :
  run (ops1 ++ ops2) s w =
    match run ops1 s w with
    | (Ok _, s', w') => run ops2 s' w'
    | (Raise e, s', w') => (Raise e, s', w')
    end.
Proof.
  revert s w. induction ops1 as [|o ops1 IH]; intros s w; simpl.
  - reflexivity.
  - destruct (call o s w) as [[[[]|e] s1] w1]; [apply IH|reflexivity].
Qed.

Lemma run_snoc_Ok (ops : list op) (o : op) (s s' : UndoStack.t) (w w' : world C) :
  run (ops ++ [o]) s w = (Ok tt, s', w') ->
  exists s1 w1, run ops s w = (Ok tt, s1, w1) /\ call o s1 w1 = (Ok tt, s', w').
Proof.
  rewrite run_app. destruct (run ops s w) as [[[[]|e] s1] w1]; [|discriminate].
  cbn [run]. destruct (call o s1 w1) as [[[[]|e] s2] w2] eqn:Ec; [|discriminate].
  intros [= <- <-]. by exists s1, w1.
Qed.

Lemma dispatch_Ok (c : command) (s s' : UndoStack.t) (w w' : world C) :
  UndoStack.dispatch c s w = (Ok tt, s', w') ->
  do_ c w = (Ok tt, w') /\ s' = UndoStack.Make (UndoStack.history s ++ [c]) [].
Proof.
  unfold UndoStack.dispatch.
  destruct (do_ c w) as [[[]|e] w1]; [|discriminate].
  by intros [= <- <-].
Qed.

Lemma run_dispatch_all (cs : list command) (s : UndoStack.t) (w w' : world C) :
  UndoStack.future s = [] ->
  for_each do_ cs w = (Ok tt, w') ->
  run (map Dispatch cs) s w =
    (Ok tt, UndoStack.Make (UndoStack.history s ++ cs) [], w').
Proof.
  revert s w. induction cs as [|c cs IH]; intros s w Hf H; simpl in *.
  - injection H as <-. rewrite app_nil_r. destruct s; simpl in *; by subst.
  - apply bind_Ok in H as ([] & w1 & Hc & Hrest).
    unfold UndoStack.dispatch. rewrite Hc.
    rewrite (IH (UndoStack.push c s) w1 eq_refl Hrest). simpl.
    by rewrite <- app_assoc.
Qed.

Lemma run_dispatch_all_inv (cs : list command) (s s' : UndoStack.t) (w w' : world C) :
  run (map Dispatch cs) s w = (Ok tt, s', w') ->
  for_each do_ cs w = (Ok tt, w').
Proof.
  revert s w. induction cs as [|c cs IH]; intros s w; simpl.
  - by intros [= <- <-].
  - unfold UndoStack.dispatch.
    destruct (do_ c w) as [[[]|e] w1] eqn:Hc; [|discriminate].
    intros H. erewrite bind_step by exact Hc. by eapply IH.
Qed.


Lemma plays_init (w0 : world C) : plays w0 UndoStack.init w0.
Proof.
  exists w0, w0. simpl. repeat split; try done. apply NoDup_nil_2.
Qed.

Lemma for_each_do_keeps_other (cs : list command) (w w' : world C) r i :
  for_each do_ cs w = (r, w') -> i ∉ ids cs ->
  originalItem w' !! i = originalItem w !! i.
Proof.
  intros H Hi.
  exact (do_keeps_other_originalItem (CommandGroup 0 cs) w r w' H i Hi).
Qed.

Lemma for_each_do_snoc (cs : list command) (c : command) (w w1 w2 : world C) :
  for_each do_ cs w = (Ok tt, w1) -> do_ c w1 = (Ok tt, w2) ->
  for_each do_ (cs ++ [c]) w = (Ok tt, w2).
Proof.
  intros H1 H2. rewrite for_each_app. erewrite bind_step by exact H1.
  simpl. erewrite bind_step by exact H2. reflexivity.
Qed.

Lemma for_each_do_snoc_inv (cs : list command) (c : command) (w w2 : world C) :
  for_each do_ (cs ++ [c]) w = (Ok tt, w2) ->
  exists w1, for_each do_ cs w = (Ok tt, w1) /\ do_ c w1 = (Ok tt, w2).
Proof.
  rewrite for_each_app. intros H.
  apply bind_Ok in H as ([] & w1 & H1 & H2). exists w1. split; [done|].
  simpl in H2. apply bind_Ok in H2 as ([] & w3 & H2 & [= <-]). done.
Qed.

Lemma plays_dispatch (w0 : world C) (c : command) (s s' : UndoStack.t) (w w' : world C) :
  plays w0 s w ->
  UndoStack.dispatch c s w = (Ok tt, s', w') ->
  NoDup (setattr_objects c) ->
  (forall i, i ∈ setattr_objects c -> i ∉ ids (UndoStack.history s)) ->
  plays w0 s' w'.
Proof.
  intros (wh & wf & Hh & Hf & E & A & Hnd) Hd Hnc Hdisj.
  apply dispatch_Ok in Hd as [Hdo ->].
  destruct (do_heap_only c w w' wh Hdo (eq_sym E)) as (wh' & Hdo' & E' & A').
  exists wh', wh'. simpl. rewrite app_nil_r.
  split; [by eapply for_each_do_snoc|]. split; [done|]. split; [done|].
  rewrite flat_map_app in *. simpl. rewrite app_nil_r. split.
  - intros i Hi.
    destruct (decide (i ∈ setattr_objects c)) as [Hin|Hout]; [by rewrite A'|].
    apply elem_of_app in Hi as [Hi|Hi]; [|done].
    rewrite (do_keeps_other_originalItem c w _ w' Hdo i Hout).
    rewrite (do_keeps_other_originalItem c wh _ wh' Hdo' i Hout).
    rewrite A by (apply elem_of_app; by left).
    eapply for_each_do_keeps_other; [exact Hf|].
    apply NoDup_app in Hnd as (_ & Hd & _). by apply Hd.
  - apply NoDup_app. split; [|split; [|done]].
    + by apply NoDup_app in Hnd as (? & _ & _).
    + intros i Hi Hc. by apply (Hdisj i).
Qed.

Lemma plays_undo (w0 : world C) (h f : list command) (c : command) (w : world C) :
  remove_undoes_add C ->
  plays w0 (UndoStack.Make (h ++ [c]) f) w ->
  exists wh,
    for_each do_ h w0 = (Ok tt, wh) /\
    UndoStack.undo (UndoStack.Make (h ++ [c]) f) w =
      (Ok tt, UndoStack.Make h (f ++ [c]), World (heap wh) (originalItem w)) /\
    plays w0 (UndoStack.Make h (f ++ [c])) (World (heap wh) (originalItem w)).
Proof.
  intros Hlaw (wh & wf & Hh & Hf & E & A & Hnd). simpl in *.
  apply for_each_do_snoc_inv in Hh as (wh' & Hh' & Hc).
  rewrite <- app_assoc in A, Hnd. simpl in A, Hnd.
  rewrite flat_map_app in A, Hnd. simpl in A, Hnd.
  pose proof Hnd as Hnd'.
  apply NoDup_app in Hnd' as (_ & _ & Hnd').
  apply NoDup_app in Hnd' as (Hndc & Hdisj & _).
  assert (undo c w = (Ok tt, World (heap wh') (originalItem w))) as Hu.
  { eapply undo_of_do; [done|exact Hc|exact Hndc|exact E|].
    intros i Hi. rewrite A by (apply elem_of_app; right; apply elem_of_app; by left).
    eapply for_each_do_keeps_other; [exact Hf|]. by apply Hdisj. }
  exists wh'. split; [done|]. split.
  - unfold UndoStack.undo. simpl. rewrite pop_snoc, Hu. reflexivity.
  - exists wh', wf. simpl. rewrite rev_unit. simpl.
    erewrite bind_step by exact Hc.
    rewrite flat_map_app. simpl. done.
Qed.

Lemma plays_redo (w0 : world C) (h f : list command) (c : command) (w : world C) :
  plays w0 (UndoStack.Make h (f ++ [c])) w ->
  exists wh,
    for_each do_ (h ++ [c]) w0 = (Ok tt, wh) /\
    UndoStack.redo (UndoStack.Make h (f ++ [c])) w =
      (Ok tt, UndoStack.Make (h ++ [c]) f, World (heap wh) (originalItem w)) /\
    plays w0 (UndoStack.Make (h ++ [c]) f) (World (heap wh) (originalItem w)).
Proof.
  intros (wh & wf & Hh & Hf & E & A & Hnd). simpl in *.
  rewrite rev_unit in *. simpl in Hf.
  apply bind_Ok in Hf as ([] & wh' & Hc & Hf).
  exists wh'. split; [by eapply for_each_do_snoc|]. split.
  - unfold UndoStack.redo. simpl. rewrite pop_snoc.
    rewrite (redo_of_do c wh wh' w Hc E). reflexivity.
  - exists wh', wf. simpl. split; [by eapply for_each_do_snoc|].
    rewrite <- app_assoc. simpl. done.
Qed.

End StackFacts.

(** ** Properties *)

Lemma attr_of_Some {C : Type} (w : world C) (o : loc) (a : string) (v : val) :
  attr_of w o a = Some v ->
  exists d, heap w !! o = Some (Instance d) /\ d !! a = Some v.
Proof.
  unfold attr_of. destruct (heap w !! o) as [[d|l|s]|]; try discriminate. eauto.
Qed.

Lemma item_list_remove_undoes_add : remove_undoes_add (list val).
Proof.
  intros s s' x. simpl. intros [= <-]. simpl.
  by rewrite decide_True.
Qed.


Lemma do_SetAttrCommand_on_attr {C : Type} `{!ItemContainer C}
    (w : world C) (self : cref) (t : loc) (a : string) (v item : val) :
  attr_of w t a = Some v ->
  exists d, heap w !! t = Some (Instance d) /\
    do_ (SetAttrCommand self t a item) w =
      (Ok tt, World (<[t := Instance (<[a := item]> d)]> (heap w))
                    (<[self := v]> (originalItem w))).
Proof.
  intros Hv. apply attr_of_Some in Hv as (d & Ho & Ha). exists d.
  split; [done|]. simpl. unfold bind, getattr, set_originalItem, setattr. simpl.
  rewrite Ho, Ha. simpl. by rewrite Ho.
Qed.

(** C2. [SetAttrCommand.do] stores the current value of the attribute in
    [originalItem] and then does what [redo] does.  Hence, on a target [t]
    whose attribute [a] holds [v] (the scenario: [t.x == 1]), dispatching
    [SetAttrCommand(t, a, item)] (the scenario: [item == 5]) leaves
    [t.a == item], a following [undo()] leaves [t.a == v], and a following
    [redo()] leaves [t.a == item] again. *)
Theorem C2_SetAttrCommand_roundtrip {C : Type} `{!ItemContainer C}
    (w : world C) (s : UndoStack.t) (self : cref) (t : loc) (a : string)
    (v item : val) :
  attr_of w t a = Some v ->
  do_ (SetAttrCommand self t a item) w =
    redo (SetAttrCommand self t a item)
      (World (heap w) (<[self := v]> (originalItem w))) /\
  exists w1 w2 w3,
    UndoStack.dispatch (SetAttrCommand self t a item) s w =
      (Ok tt, UndoStack.push (SetAttrCommand self t a item) s, w1) /\
    originalItem w1 !! self = Some v /\
    attr_of w1 t a = Some item /\
    UndoStack.undo (UndoStack.push (SetAttrCommand self t a item) s) w1 =
      (Ok tt, UndoStack.Make (UndoStack.history s) [SetAttrCommand self t a item], w2) /\
    attr_of w2 t a = Some v /\
    UndoStack.redo
      (UndoStack.Make (UndoStack.history s) [SetAttrCommand self t a item]) w2 =
      (Ok tt, UndoStack.push (SetAttrCommand self t a item) s, w3) /\
    attr_of w3 t a = Some item.
Proof.
  intros Hv. apply attr_of_Some in Hv as (d & Ho & Ha).
  assert (do_ (SetAttrCommand self t a item) w =
          (Ok tt, World (<[t := Instance (<[a := item]> d)]> (heap w))
                        (<[self := v]> (originalItem w)))) as Hdo.
  { simpl. unfold bind, getattr, set_originalItem, setattr. simpl.
    rewrite Ho, Ha. simpl. by rewrite Ho. }
  split.
  { rewrite Hdo. simpl. unfold setattr. simpl. by rewrite Ho. }
  do 3 eexists. split; [|split; [|split; [|split; [|split; [|split]]]]].
  - unfold UndoStack.dispatch. rewrite Hdo. reflexivity.
  - simpl. apply lookup_insert_eq.
  - unfold attr_of. simpl. rewrite lookup_insert_eq. apply lookup_insert_eq.
  - unfold UndoStack.undo, UndoStack.push. simpl. rewrite pop_snoc. simpl.
    unfold bind, get_originalItem, setattr. simpl.
    rewrite !lookup_insert_eq. simpl. reflexivity.
  - unfold attr_of. simpl. rewrite lookup_insert_eq. apply lookup_insert_eq.
  - unfold UndoStack.redo, UndoStack.push. simpl.
    unfold setattr. simpl. rewrite lookup_insert_eq. reflexivity.
  - unfold attr_of. simpl. rewrite lookup_insert_eq. apply lookup_insert_eq.
Qed.

Lemma C2_SetAttrCommand_roundtrip_witness :
  attr_of example_world 0 "x" = Some (VInt 1) /\
  exists w1 w2 w3,
    UndoStack.dispatch (SetAttrCommand 7 0 "x" (VInt 5)) UndoStack.init example_world =
      (Ok tt, UndoStack.Make [SetAttrCommand 7 0 "x" (VInt 5)] [], w1) /\
    attr_of w1 0 "x" = Some (VInt 5) /\
    UndoStack.undo (UndoStack.Make [SetAttrCommand 7 0 "x" (VInt 5)] []) w1 =
      (Ok tt, UndoStack.Make [] [SetAttrCommand 7 0 "x" (VInt 5)], w2) /\
    attr_of w2 0 "x" = Some (VInt 1) /\
    UndoStack.redo (UndoStack.Make [] [SetAttrCommand 7 0 "x" (VInt 5)]) w2 =
      (Ok tt, UndoStack.Make [SetAttrCommand 7 0 "x" (VInt 5)] [], w3) /\
    attr_of w3 0 "x" = Some (VInt 5).
Proof.
  split; [reflexivity|].
  destruct (C2_SetAttrCommand_roundtrip example_world UndoStack.init 7 0 "x"
              (VInt 1) (VInt 5) eq_refl)
    as (_ & w1 & w2 & w3 & H1 & _ & H2 & H3 & H4 & H5 & H6).
  exists w1, w2, w3. repeat split; assumption.
Defined.

Lemma for_each_in_order {C A : Type} (f : A -> M C unit) (l : list A) (w : world C) :
  for_each f l w = in_order (map f l) w.
Proof.
  revert w. induction l as [|x l IH]; intros w; simpl; [reflexivity|].
  unfold bind. destruct (f x w) as [[[]|e] w1]; [apply IH|reflexivity].
Qed.

(** C3. A [CommandGroup] built from the children [commands] calls, in
    [do()], the [do()] of the children in the order of [commands], in
    [redo()] their [redo()] in the same order, and in [undo()] their
    [undo()] in the reverse order: for the children [A, B, C] the calls
    are [C.undo()], [B.undo()], [A.undo()]. *)
Theorem C3_CommandGroup_order {C : Type} `{!ItemContainer C}
    (self : cref) (commands : list command) (w : world C) :
  do_ (CommandGroup self commands) w = in_order (map do_ commands) w /\
  redo (CommandGroup self commands) w = in_order (map redo commands) w /\
  undo (CommandGroup self commands) w = in_order (rev (map undo commands)) w /\
  forall A B D : command,
    undo (CommandGroup self [A; B; D]) w =
      bind (undo D) (fun _ => bind (undo B) (fun _ => undo A)) w.
Proof.
  split; [|split; [|split]].
  - simpl. apply for_each_in_order.
  - simpl. apply for_each_in_order.
  - simpl. rewrite for_each_reversed_rev, <- map_rev. apply for_each_in_order.
  - intros A B D. simpl. unfold bind, ret.
    destruct (undo D w) as [[[]|e] w1]; [|reflexivity].
    destruct (undo B w1) as [[[]|e] w2]; reflexivity.
Qed.

(** In a group, a later child works on what an earlier one left: two
    assignments of one attribute end with the second value, and [undo]
    gives back the value from before the group. *)
Example CommandGroup_order_matters :
  let g := CommandGroup 9 [SetAttrCommand 7 0 "x" (VInt 5);
                           SetAttrCommand 8 0 "x" (VInt 7)] in
  attr_of (do_ g example_world).2 0 "x" = Some (VInt 7) /\
  attr_of (undo g (do_ g example_world).2).2 0 "x" = Some (VInt 1).
Proof. split; vm_compute; reflexivity. Qed.

(** C4. [push] empties [future] and then appends the command to [history];
    so after a successful [dispatch], whatever was undone before it,
    [redo()] fails: [future.pop()] raises [IndexError] on the empty list
    (the condition the specification calls EmptyFuture), and nothing
    changes. *)
Theorem C4_dispatch_discards_future {C : Type} `{!ItemContainer C}
    (c : command) (s s' : UndoStack.t) (w w' : world C) :
  UndoStack.dispatch c s w = (Ok tt, s', w') ->
  UndoStack.push c s = UndoStack.Make (UndoStack.history s ++ [c]) [] /\
  s' = UndoStack.push c s /\
  UndoStack.redo s' w' = (Raise IndexError, s', w').
Proof.
  intros H. apply dispatch_Ok in H as [_ ->].
  split; [reflexivity|]. split; reflexivity.
Qed.

(** C5. [UndoStack.undo()] on an empty [history] fails ([history.pop()]
    raises [IndexError], the condition the specification calls
    EmptyHistory) and changes nothing.  Otherwise it takes the last command
    off [history] and calls its [undo()]; when that returns the command is
    appended to [future]; when that raises, the exception goes to the
    caller. *)
Theorem C5_undo {C : Type} `{!ItemContainer C}
    (h f : list command) (c : command) (w : world C) :
  UndoStack.undo (UndoStack.Make [] f) w = (Raise IndexError, UndoStack.Make [] f, w) /\
  UndoStack.undo (UndoStack.Make (h ++ [c]) f) w =
    match undo c w with
    | (Ok _, w') => (Ok tt, UndoStack.Make h (f ++ [c]), w')
    | (Raise e, w') => (Raise e, UndoStack.Make h f, w')
    end.
Proof.
  split; [reflexivity|].
  unfold UndoStack.undo. simpl. rewrite pop_snoc. reflexivity.
Qed.

(** C6. [UndoStack.redo()] on an empty [future] fails ([future.pop()]
    raises [IndexError], the condition the specification calls EmptyFuture)
    and changes nothing.  Otherwise it takes the last command off [future]
    and calls its [redo()]; when that returns the command is appended to
    [history]; when that raises, the exception goes to the caller. *)
Theorem C6_redo {C : Type} `{!ItemContainer C}
    (h f : list command) (c : command) (w : world C) :
  UndoStack.redo (UndoStack.Make h []) w = (Raise IndexError, UndoStack.Make h [], w) /\
  UndoStack.redo (UndoStack.Make h (f ++ [c])) w =
    match redo c w with
    | (Ok _, w') => (Ok tt, UndoStack.Make (h ++ [c]) f, w')
    | (Raise e, w') => (Raise e, UndoStack.Make h f, w')
    end.
Proof.
  split; [reflexivity|].
  unfold UndoStack.redo. simpl. rewrite pop_snoc. reflexivity.
Qed.

(** C10. When [command.do()] raises, [dispatch] raises the same exception
    and [history] and [future] are what they were: the command is recorded
    nowhere. *)
Theorem C10_dispatch_failure_keeps_stack {C : Type} `{!ItemContainer C}
    (c : command) (s : UndoStack.t) (w w' : world C) (e : exn) :
  do_ c w = (Raise e, w') ->
  UndoStack.dispatch c s w = (Raise e, s, w').
Proof. intros H. unfold UndoStack.dispatch. by rewrite H. Qed.

Lemma C4_dispatch_discards_future_witness :
  UndoStack.dispatch (AppendCommand 4 1 (VStr "b"))
    (UndoStack.Make [] [AppendCommand 3 1 (VStr "a")]) example_world =
    (Ok tt, UndoStack.Make [AppendCommand 4 1 (VStr "b")] [],
     World (<[1 := PyList [VStr "b"]]> (heap example_world)) ∅) /\
  UndoStack.redo (UndoStack.Make [AppendCommand 4 1 (VStr "b")] [])
    (World (<[1 := PyList [VStr "b"]]> (heap example_world)) ∅) =
    (Raise IndexError, UndoStack.Make [AppendCommand 4 1 (VStr "b")] [],
     World (<[1 := PyList [VStr "b"]]> (heap example_world)) ∅).
Proof.
  assert (UndoStack.dispatch (AppendCommand 4 1 (VStr "b"))
            (UndoStack.Make [] [AppendCommand 3 1 (VStr "a")]) example_world =
          (Ok tt, UndoStack.Make [AppendCommand 4 1 (VStr "b")] [],
           World (<[1 := PyList [VStr "b"]]> (heap example_world)) ∅)) as H
    by (vm_compute; reflexivity).
  split; [exact H|].
  exact (proj2 (proj2 (C4_dispatch_discards_future _ _ _ _ _ H))).
Defined.

Lemma C10_dispatch_failure_keeps_stack_witness :
  let g := CommandGroup 5 [AppendCommand 3 1 (VStr "a");
                           SetAttrCommand 4 0 "y" (VInt 2)] in
  do_ g example_world =
    (Raise AttributeError,
     World (<[1 := PyList [VStr "a"]]> (heap example_world)) ∅) /\
  UndoStack.dispatch g UndoStack.init example_world =
    (Raise AttributeError, UndoStack.init,
     World (<[1 := PyList [VStr "a"]]> (heap example_world)) ∅).
Proof.
  intros g.
  assert (do_ g example_world =
          (Raise AttributeError,
           World (<[1 := PyList [VStr "a"]]> (heap example_world)) ∅)) as H
    by (vm_compute; reflexivity).
  split; [exact H|].
  exact (C10_dispatch_failure_keeps_stack g UndoStack.init _ _ _ H).
Defined.

Section Runs.
Context {C : Type} `{!ItemContainer C}.

Abbreviation ids := (flat_map setattr_objects).

Lemma dispatched_app (ops1 ops2 : list op) :
  dispatched (ops1 ++ ops2) = dispatched ops1 ++ dispatched ops2.
Proof. apply flat_map_app. Qed.

(** A run of successful calls in which every [SetAttrCommand] object is
    executed by at most one [dispatch], and once by it, keeps [plays]. *)
Lemma run_plays (ops : list op) (w0 w : world C) (s : UndoStack.t) :
  remove_undoes_add C ->
  NoDup (ids (dispatched ops)) ->
  run ops UndoStack.init w0 = (Ok tt, s, w) ->
  plays w0 s w /\
  forall i, i ∈ ids (UndoStack.history s ++ rev (UndoStack.future s)) ->
    i ∈ ids (dispatched ops).
Proof.
  intros Hlaw. revert s w.
  induction ops as [|o ops IH] using rev_ind; intros s w Hnd Hrun.
  - injection Hrun as <- <-. split; [apply plays_init|]. simpl. by intros i.
  - apply run_snoc_Ok in Hrun as (s1 & w1 & Hrun & Hcall).
    rewrite dispatched_app.
    rewrite dispatched_app, flat_map_app in Hnd.
    rewrite (flat_map_app _ (dispatched ops)).
    apply NoDup_app in Hnd as (Hnd1 & Hdisj & Hnd2).
    destruct (IH s1 w1 Hnd1 Hrun) as [Hp Hsub].
    destruct o as [c| |]; simpl in Hcall.
    + simpl in Hnd2, Hdisj. rewrite app_nil_r in Hnd2, Hdisj.
      split.
      * eapply plays_dispatch; [exact Hp|exact Hcall|exact Hnd2|].
        intros i Hi Hh. apply (Hdisj i); [|exact Hi].
        apply Hsub. rewrite flat_map_app. apply elem_of_app. by left.
      * apply dispatch_Ok in Hcall as [_ ->]. simpl.
        rewrite !app_nil_r. intros i Hi.
        rewrite flat_map_app in Hi. simpl in Hi. rewrite app_nil_r in Hi.
        apply elem_of_app in Hi as [Hi|Hi].
        -- apply elem_of_app. left. apply Hsub.
           rewrite flat_map_app. apply elem_of_app. by left.
        -- apply elem_of_app. by right.
    + destruct s1 as [h f].
      destruct h as [|c h _] using rev_ind; [discriminate|].
      destruct (plays_undo w0 h f c w1 Hlaw Hp) as (wh & _ & Hu & Hp').
      rewrite Hu in Hcall. injection Hcall as <- <-.
      split; [exact Hp'|]. simpl. intros i Hi.
      apply elem_of_app. left. apply Hsub. simpl.
      rewrite rev_unit in Hi. by rewrite <- app_assoc.
    + destruct s1 as [h f].
      destruct f as [|c f _] using rev_ind; [discriminate|].
      destruct (plays_redo w0 h f c w1 Hp) as (wh & _ & Hr & Hp').
      rewrite Hr in Hcall. injection Hcall as <- <-.
      split; [exact Hp'|]. simpl. intros i Hi.
      apply elem_of_app. left. apply Hsub. simpl.
      rewrite <- app_assoc in Hi. by rewrite rev_unit.
Qed.

End Runs.

(** C7 (as amended). Along a run of successful [dispatch]/[undo]/[redo]
    calls from a fresh stack in which every [SetAttrCommand] object is
    executed by at most one [dispatch], and once by it, and on targets
    whose [removeItem] is the opposite of [addItem]: whenever [history] is
    not empty, [undo()] followed by [redo()] both succeed and leave the
    targets, the [originalItem]s, [history] and [future] as they were. *)
Theorem C7_undo_then_redo {C : Type} `{!ItemContainer C}
    (ops : list op) (w0 w : world C) (s : UndoStack.t) :
  remove_undoes_add C ->
  NoDup (flat_map setattr_objects (dispatched ops)) ->
  run ops UndoStack.init w0 = (Ok tt, s, w) ->
  UndoStack.history s <> [] ->
  exists s1 w1,
    UndoStack.undo s w = (Ok tt, s1, w1) /\
    UndoStack.redo s1 w1 = (Ok tt, s, w).
Proof.
  intros Hlaw Hnd Hrun Hne.
  destruct (run_plays ops w0 w s Hlaw Hnd Hrun) as [Hp _].
  destruct s as [h f]. simpl in Hne.
  destruct h as [|c h _] using rev_ind; [done|].
  pose proof Hp as (wh & _ & Hh & _ & E & _).
  destruct (plays_undo w0 h f c w Hlaw Hp) as (wh1 & _ & Hu & Hp1).
  destruct (plays_redo w0 h f c _ Hp1) as (wh2 & Hh2 & Hr & _).
  simpl in Hh, Hr. rewrite Hh in Hh2. injection Hh2 as <-.
  do 2 eexists. split; [exact Hu|]. rewrite Hr.
  by rewrite <- E, world_eta.
Qed.

Section Append.
Context {C : Type} `{!ItemContainer C}.

Lemma items_of_insert (h : gmap loc (obj C)) (o : loc) (l : list val) oi :
  items_of (World (<[o := PyList l]> h) oi) o = Some l.
Proof. unfold items_of. simpl. by rewrite lookup_insert_eq. Qed.

Lemma items_of_Some (w : world C) (o : loc) (l : list val) :
  items_of w o = Some l -> heap w !! o = Some (PyList l).
Proof.
  unfold items_of. destruct (heap w !! o) as [[d|l'|s]|]; try discriminate.
  by intros [= ->].
Qed.

Lemma AppendCommand_redo self o x (w : world C) l :
  items_of w o = Some l ->
  redo (AppendCommand self o x) w =
    (Ok tt, World (<[o := PyList (l ++ [x])]> (heap w)) (originalItem w)).
Proof.
  intros H. apply items_of_Some in H. simpl. unfold list_append. by rewrite H.
Qed.

Lemma AppendCommand_undo self o x (w : world C) l :
  items_of w o = Some (l ++ [x]) ->
  undo (AppendCommand self o x) w =
    (Ok tt, World (<[o := PyList l]> (heap w)) (originalItem w)).
Proof.
  intros H. apply items_of_Some in H. simpl. unfold bind, list_pop.
  by rewrite H, pop_snoc.
Qed.

Lemma append_scenario (w : world C) (o : loc) (self1 self2 : cref) (a b : val) :
  items_of w o = Some [] ->
  exists s2 w2 s3 w3 s4 w4 s6 w6,
    run [Dispatch (AppendCommand self1 o a); Dispatch (AppendCommand self2 o b)]
      UndoStack.init w = (Ok tt, s2, w2) /\ items_of w2 o = Some [a; b] /\
    UndoStack.undo s2 w2 = (Ok tt, s3, w3) /\ items_of w3 o = Some [a] /\
    UndoStack.undo s3 w3 = (Ok tt, s4, w4) /\ items_of w4 o = Some [] /\
    run [Redo; Redo] s4 w4 = (Ok tt, s6, w6) /\ items_of w6 o = Some [a; b].
Proof.
  intros H0. do 8 eexists.
  split; [|split; [|split; [|split; [|split; [|split; [|split]]]]]].
  - cbn [run call]. unfold UndoStack.dispatch. cbn [do_].
    rewrite (AppendCommand_redo _ _ _ _ [] H0).
    rewrite (AppendCommand_redo _ _ _ _ [a] (items_of_insert _ _ [a] _)).
    reflexivity.
  - apply items_of_insert.
  - unfold UndoStack.undo, UndoStack.push, UndoStack.init.
    cbn [UndoStack.history UndoStack.future]. rewrite pop_snoc.
    rewrite (AppendCommand_undo _ _ _ _ [a] (items_of_insert _ _ [a; b] _)).
    reflexivity.
  - apply items_of_insert.
  - unfold UndoStack.undo. cbn [UndoStack.history UndoStack.future].
    rewrite pop_snoc.
    rewrite (AppendCommand_undo _ _ _ _ [] (items_of_insert _ _ [a] _)).
    reflexivity.
  - apply items_of_insert.
  - cbn [run call]. unfold UndoStack.redo. cbn [UndoStack.history UndoStack.future].
    rewrite pop_snoc.
    rewrite (AppendCommand_redo _ _ _ _ [] (items_of_insert _ _ [] _)).
    cbn [UndoStack.history UndoStack.future]. rewrite pop_snoc.
    rewrite (AppendCommand_redo _ _ _ _ [a] (items_of_insert _ _ [a] _)).
    reflexivity.
  - apply items_of_insert.
Qed.

End Append.

Section UndoAll.
Context {C : Type} `{!ItemContainer C}.

Lemma dispatched_map_Dispatch (cs : list command) :
  dispatched (map Dispatch cs) = cs.
Proof. induction cs as [|c cs IH]; simpl; [done|]. by f_equal. Qed.

Lemma plays_undo_n (w0 : world C) (pre post f : list command) (w : world C) :
  remove_undoes_add C ->
  plays w0 (UndoStack.Make (pre ++ post) f) w ->
  exists wh,
    for_each do_ pre w0 = (Ok tt, wh) /\
    run (repeat Undo (length post)) (UndoStack.Make (pre ++ post) f) w =
      (Ok tt, UndoStack.Make pre (f ++ rev post), World (heap wh) (originalItem w)).
Proof.
  intros Hlaw. revert f w.
  induction post as [|c post IH] using rev_ind; intros f w Hp.
  - destruct Hp as (wh & _ & Hh & _ & E & _). simpl in *.
    rewrite app_nil_r in *. exists wh. split; [done|].
    by rewrite <- E, world_eta, app_nil_r.
  - rewrite app_assoc in Hp |- *.
    destruct (plays_undo w0 (pre ++ post) f c w Hlaw Hp) as (wh1 & _ & Hu & Hp1).
    destruct (IH _ _ Hp1) as (wh & Hh & Hrun).
    exists wh. split; [done|].
    rewrite length_app, Nat.add_1_r. cbn [repeat run call].
    rewrite Hu, Hrun, rev_unit. simpl. by rewrite <- app_assoc.
Qed.

End UndoAll.

(** C1 (as amended). Take commands that are dispatched successfully, one
    after the other, on a fresh stack, such that no [SetAttrCommand] object
    is executed twice (dispatched twice, or reached twice through groups),
    on targets whose [removeItem] is the opposite of [addItem].  Then
    calling [undo()] as many times as the last commands [post] succeeds and
    leaves every target as it was when only the commands [pre] before them
    had been dispatched, with [post] in [future], last undone first; with
    [pre] empty, every target is back to what it was before the first
    [dispatch].  And on an empty list [c], after dispatching
    [AppendCommand(c, a)] and [AppendCommand(c, b)], the first [undo()]
    leaves [c == [a]], the second [c == []], and two [redo()] leave
    [c == [a, b]]. *)
Theorem C1_undo_restores_in_reverse {C : Type} `{!ItemContainer C} :
  (forall (w0 : world C) (pre post : list command),
     remove_undoes_add C ->
     NoDup (flat_map setattr_objects (pre ++ post)) ->
     (run (map Dispatch (pre ++ post)) UndoStack.init w0).1.1 = Ok tt ->
     exists w_pre w',
       run (map Dispatch pre) UndoStack.init w0 =
         (Ok tt, UndoStack.Make pre [], w_pre) /\
       run (map Dispatch (pre ++ post) ++ repeat Undo (length post))
           UndoStack.init w0 =
         (Ok tt, UndoStack.Make pre (rev post), w') /\
       heap w' = heap w_pre) /\
  (forall (w : world C) (c : loc) (self1 self2 : cref) (a b : val),
     items_of w c = Some [] ->
     exists s2 w2 s3 w3 s4 w4 s6 w6,
       run [Dispatch (AppendCommand self1 c a); Dispatch (AppendCommand self2 c b)]
         UndoStack.init w = (Ok tt, s2, w2) /\ items_of w2 c = Some [a; b] /\
       UndoStack.undo s2 w2 = (Ok tt, s3, w3) /\ items_of w3 c = Some [a] /\
       UndoStack.undo s3 w3 = (Ok tt, s4, w4) /\ items_of w4 c = Some [] /\
       run [Redo; Redo] s4 w4 = (Ok tt, s6, w6) /\ items_of w6 c = Some [a; b]).
Proof.
  split; [|apply append_scenario].
  intros w0 pre post Hlaw Hnd Hok.
  destruct (run (map Dispatch (pre ++ post)) UndoStack.init w0)
    as [[r sN] wN] eqn:Hrun.
  simpl in Hok. subst r.
  pose proof (run_dispatch_all_inv _ _ _ _ _ Hrun) as Hdo.
  pose proof (run_dispatch_all _ UndoStack.init _ _ eq_refl Hdo) as Hrun'.
  rewrite Hrun in Hrun'. injection Hrun' as ->. simpl in Hrun.
  assert (plays w0 (UndoStack.Make (pre ++ post) []) wN) as Hp.
  { eapply run_plays; [exact Hlaw| |exact Hrun].
    by rewrite dispatched_map_Dispatch. }
  destruct (plays_undo_n w0 pre post [] wN Hlaw Hp) as (wh & Hh & Hu).
  exists wh, (World (heap wh) (originalItem wN)).
  split; [exact (run_dispatch_all pre UndoStack.init w0 wh eq_refl Hh)|].
  split; [|reflexivity].
  rewrite run_app, Hrun. exact Hu.
Qed.

Lemma C1_undo_restores_in_reverse_witness :
  NoDup (flat_map setattr_objects ([set_x_5] ++ [append_a; set_x_9])) /\
  (run (map Dispatch ([set_x_5] ++ [append_a; set_x_9])) UndoStack.init
     example_world).1.1 = Ok tt /\
  exists w_pre w',
    run (map Dispatch [set_x_5]) UndoStack.init example_world =
      (Ok tt, UndoStack.Make [set_x_5] [], w_pre) /\
    run (map Dispatch ([set_x_5] ++ [append_a; set_x_9]) ++
         repeat Undo (length [append_a; set_x_9]))
        UndoStack.init example_world =
      (Ok tt, UndoStack.Make [set_x_5] (rev [append_a; set_x_9]), w') /\
    heap w' = heap w_pre.
Proof.
  assert (NoDup (flat_map setattr_objects ([set_x_5] ++ [append_a; set_x_9])))
    as Hnd by (apply (bool_decide_unpack _); vm_compute; exact I).
  assert ((run (map Dispatch ([set_x_5] ++ [append_a; set_x_9])) UndoStack.init
             example_world).1.1 = Ok tt) as Hok by (vm_compute; reflexivity).
  split; [exact Hnd|]. split; [exact Hok|].
  exact (proj1 C1_undo_restores_in_reverse example_world [set_x_5]
           [append_a; set_x_9] item_list_remove_undoes_add Hnd Hok).
Defined.

(** C1, as stated, fails: one [SetAttrCommand] object dispatched twice on
    [t.x == 1] is undone twice to [t.x == 5]. *)
Lemma C1_counterexample :
  (run [Dispatch set_x_5; Dispatch set_x_5; Undo; Undo] UndoStack.init
     example_world).1 = (Ok tt, UndoStack.Make [] [set_x_5; set_x_5]) /\
  attr_of example_world 0 "x" = Some (VInt 1) /\
  attr_of (run [Dispatch set_x_5; Dispatch set_x_5; Undo; Undo] UndoStack.init
             example_world).2 0 "x" = Some (VInt 5) /\
  heap (run [Dispatch set_x_5; Dispatch set_x_5; Undo; Undo] UndoStack.init
          example_world).2 <> heap example_world.
Proof.
  split; [vm_compute; reflexivity|]. split; [vm_compute; reflexivity|].
  assert (attr_of (run [Dispatch set_x_5; Dispatch set_x_5; Undo; Undo]
                     UndoStack.init example_world).2 0 "x" = Some (VInt 5)) as H
    by (vm_compute; reflexivity).
  split; [exact H|]. intros E. unfold attr_of in H. rewrite E in H.
  vm_compute in H. discriminate.
Qed.

Lemma C7_undo_then_redo_witness :
  NoDup (flat_map setattr_objects
           (dispatched [Dispatch set_x_5; Dispatch append_a; Undo; Redo;
                        Dispatch set_x_9; Undo])) /\
  run [Dispatch set_x_5; Dispatch append_a; Undo; Redo; Dispatch set_x_9; Undo]
      UndoStack.init example_world =
    (Ok tt, UndoStack.Make [set_x_5; append_a] [set_x_9],
     World (<[1 := PyList [VStr "a"]]>
              (<[0 := Instance (<["x" := VInt 5]> ∅)]> ∅))
           (<[8 := VInt 5]> (<[7 := VInt 1]> ∅))) /\
  exists s1 w1,
    UndoStack.undo (UndoStack.Make [set_x_5; append_a] [set_x_9])
      (World (<[1 := PyList [VStr "a"]]>
                (<[0 := Instance (<["x" := VInt 5]> ∅)]> ∅))
             (<[8 := VInt 5]> (<[7 := VInt 1]> ∅))) = (Ok tt, s1, w1) /\
    UndoStack.redo s1 w1 =
      (Ok tt, UndoStack.Make [set_x_5; append_a] [set_x_9],
       World (<[1 := PyList [VStr "a"]]>
                (<[0 := Instance (<["x" := VInt 5]> ∅)]> ∅))
             (<[8 := VInt 5]> (<[7 := VInt 1]> ∅))).
Proof.
  assert (NoDup (flat_map setattr_objects
                   (dispatched [Dispatch set_x_5; Dispatch append_a; Undo; Redo;
                                Dispatch set_x_9; Undo]))) as Hnd
    by (apply (bool_decide_unpack _); vm_compute; exact I).
  assert (run [Dispatch set_x_5; Dispatch append_a; Undo; Redo; Dispatch set_x_9; Undo]
              UndoStack.init example_world =
          (Ok tt, UndoStack.Make [set_x_5; append_a] [set_x_9],
           World (<[1 := PyList [VStr "a"]]>
                    (<[0 := Instance (<["x" := VInt 5]> ∅)]> ∅))
                 (<[8 := VInt 5]> (<[7 := VInt 1]> ∅)))) as Hrun
    by (vm_compute; reflexivity).
  split; [exact Hnd|]. split; [exact Hrun|].
  refine (C7_undo_then_redo _ _ _ _ item_list_remove_undoes_add Hnd Hrun _).
  discriminate.
Defined.

(** C7, as stated, fails: after [set_x_9] was dispatched twice and undone
    twice, [t.x] is [9] with [set_x_5] the last of [history]; [undo()] then
    [redo()] leave [t.x == 5]. *)
Lemma C7_counterexample :
  run [Dispatch set_x_5; Dispatch set_x_9; Dispatch set_x_9; Undo; Undo]
      UndoStack.init example_world =
    (Ok tt, UndoStack.Make [set_x_5] [set_x_9; set_x_9],
     World (<[0 := Instance (<["x" := VInt 9]> ∅)]> (heap example_world))
           (<[8 := VInt 9]> (<[7 := VInt 1]> ∅))) /\
  run [Undo; Redo] (UndoStack.Make [set_x_5] [set_x_9; set_x_9])
      (World (<[0 := Instance (<["x" := VInt 9]> ∅)]> (heap example_world))
             (<[8 := VInt 9]> (<[7 := VInt 1]> ∅))) =
    (Ok tt, UndoStack.Make [set_x_5] [set_x_9; set_x_9],
     World (<[0 := Instance (<["x" := VInt 5]> ∅)]> (heap example_world))
           (<[8 := VInt 9]> (<[7 := VInt 1]> ∅))) /\
  attr_of (World (<[0 := Instance (<["x" := VInt 9]> ∅)]> (heap example_world))
                 (<[8 := VInt 9]> (<[7 := VInt 1]> ∅))) 0 "x" = Some (VInt 9) /\
  attr_of (World (<[0 := Instance (<["x" := VInt 5]> ∅)]> (heap example_world))
                 (<[8 := VInt 9]> (<[7 := VInt 1]> ∅))) 0 "x" = Some (VInt 5).
Proof. repeat split; vm_compute; reflexivity. Qed.

Section Disjoint.
Context {C : Type} `{!ItemContainer C}.


Lemma distinct_move (h f : list command) (c : command) :
  NoDup (map self_of ((h ++ [c]) ++ f)) <-> NoDup (map self_of (h ++ f ++ [c])).
Proof.
  assert ((h ++ [c]) ++ f ≡ₚ h ++ f ++ [c]) as HP.
  { rewrite <- app_assoc. apply Permutation_app_head, Permutation_app_comm. }
  by rewrite HP.
Qed.

Lemma distinct_drop (h f : list command) (c : command) :
  NoDup (map self_of (h ++ f ++ [c])) -> NoDup (map self_of (h ++ f)).
Proof.
  rewrite (app_assoc h f [c]), map_app. intros H.
  by apply NoDup_app in H as (? & _ & _).
Qed.

Lemma call_distinct (o : op) (s : UndoStack.t) (w : world C) :
  distinct_objects s ->
  match o with
  | Dispatch c => self_of c ∉ map self_of (UndoStack.history s)
  | _ => True
  end ->
  distinct_objects (call o s w).1.2.
Proof.
  unfold distinct_objects. intros Hnd Hnew. destruct s as [h f].
  destruct o as [c| |]; simpl in *.
  - unfold UndoStack.dispatch. destruct (do_ c w) as [[[]|e] w1]; simpl; [|done].
    rewrite app_nil_r, map_app. apply NoDup_app. split; [|split].
    + rewrite map_app in Hnd. by apply NoDup_app in Hnd as (? & _ & _).
    + intros i Hi Hc. simpl in Hc. apply list_elem_of_singleton in Hc as ->. done.
    + simpl. apply NoDup_singleton.
  - unfold UndoStack.undo. simpl.
    destruct (pop h) as [[c h']|] eqn:Hpop; [|done].
    apply pop_Some in Hpop as ->. apply distinct_move in Hnd.
    destruct (undo c w) as [[[]|e] w1]; simpl; [done|].
    by eapply distinct_drop.
  - unfold UndoStack.redo. simpl.
    destruct (pop f) as [[c f']|] eqn:Hpop; [|done].
    apply pop_Some in Hpop as ->.
    destruct (redo c w) as [[[]|e] w1]; simpl.
    + by apply distinct_move.
    + by eapply distinct_drop.
Qed.

Lemma run_catching_distinct (ops : list op) (s : UndoStack.t) (w : world C) :
  distinct_objects s ->
  dispatches_outside_history ops s w ->
  distinct_objects (run_catching ops s w).1.
Proof.
  revert s w. induction ops as [|o ops IH]; intros s w Hnd Hops; simpl in *.
  - exact Hnd.
  - destruct Hops as [Hnew Hops].
    pose proof (call_distinct o s w Hnd Hnew) as Hnd'.
    destruct (call o s w) as [[r s1] w1]. simpl in Hnd'. by apply IH.
Qed.

End Disjoint.

(** C8 (as amended). After any sequence of [dispatch]/[undo]/[redo] calls
    on a fresh stack, whether they return or raise, in which no [dispatch]
    is given a command object that is in [history] at that time: no command
    object is in both [history] and [future], and none is twice in either. *)
Theorem C8_history_future_disjoint {C : Type} `{!ItemContainer C}
    (ops : list op) (w0 : world C) :
  dispatches_outside_history ops UndoStack.init w0 ->
  NoDup (map self_of (UndoStack.history (run_catching ops UndoStack.init w0).1 ++
                      UndoStack.future (run_catching ops UndoStack.init w0).1)) /\
  forall c1 c2 : command,
    c1 ∈ UndoStack.history (run_catching ops UndoStack.init w0).1 ->
    c2 ∈ UndoStack.future (run_catching ops UndoStack.init w0).1 ->
    self_of c1 <> self_of c2.
Proof.
  intros Hops.
  assert (distinct_objects (run_catching ops UndoStack.init w0).1) as Hnd.
  { apply run_catching_distinct; [apply NoDup_nil_2|exact Hops]. }
  split; [exact Hnd|]. intros c1 c2 H1 H2 E.
  unfold distinct_objects in Hnd. rewrite map_app in Hnd.
  apply NoDup_app in Hnd as (_ & Hd & _).
  apply (Hd (self_of c1)); [by apply list_elem_of_fmap_2|].
  rewrite E. by apply list_elem_of_fmap_2.
Qed.

Lemma C8_history_future_disjoint_witness :
  dispatches_outside_history
    [Dispatch append_a; Undo; Dispatch append_a; Dispatch set_x_5; Undo; Undo;
     Undo; Redo]
    UndoStack.init example_world /\
  NoDup (map self_of
    (UndoStack.history
       (run_catching
          [Dispatch append_a; Undo; Dispatch append_a; Dispatch set_x_5; Undo;
           Undo; Undo; Redo] UndoStack.init example_world).1 ++
     UndoStack.future
       (run_catching
          [Dispatch append_a; Undo; Dispatch append_a; Dispatch set_x_5; Undo;
           Undo; Undo; Redo] UndoStack.init example_world).1)).
Proof.
  assert (dispatches_outside_history
            [Dispatch append_a; Undo; Dispatch append_a; Dispatch set_x_5; Undo;
             Undo; Undo; Redo]
            UndoStack.init example_world) as H.
  { vm_compute. repeat split;
      intros Hin%list_elem_of_In; simpl in Hin; intuition discriminate. }
  split; [exact H|].
  exact (proj1 (C8_history_future_disjoint _ _ H)).
Defined.

(** C8, as stated, fails: a command object dispatched twice and undone once
    is the one entry of [history] and the one entry of [future]. *)
Lemma C8_counterexample :
  (run [Dispatch append_a; Dispatch append_a; Undo] UndoStack.init
     example_world).1 = (Ok tt, UndoStack.Make [append_a] [append_a]).
Proof. vm_compute. reflexivity. Qed.

(** ** What the methods assign on the command objects *)

Section ObjectFacts.
Context {C : Type} `{!ItemContainer C}.

Abbreviation oheap := (gmap loc (Objects.pobj C)).

Lemma keeps_commands_refl (m : Objects.method) (h : oheap) :
  Objects.keeps_commands m h h.
Proof.
  split.
  - intros l. by destruct (h !! l) as [[k d|xs|t|s]|].
  - intros l k d Hl _. exists d. by repeat split.
Qed.

Lemma keeps_commands_trans (m : Objects.method) (h1 h2 h3 : oheap) :
  Objects.keeps_commands m h1 h2 -> Objects.keeps_commands m h2 h3 ->
  Objects.keeps_commands m h1 h3.
Proof.
  intros [K1 F1] [K2 F2]. split.
  - intros l. specialize (K1 l). specialize (K2 l).
    destruct (h1 !! l) as [[k d|xs|t|s]|], (h2 !! l) as [[k2 d2|xs2|t2|s2]|],
      (h3 !! l) as [[k3 d3|xs3|t3|s3]|]; try done; congruence.
  - intros l k d Hl Hk.
    destruct (F1 l k d Hl Hk) as (d2 & Hl2 & A2 & E2).
    destruct (F2 l k d2 Hl2 Hk) as (d3 & Hl3 & A3 & E3).
    exists d3. split; [done|]. split.
    + intros a Ha. by rewrite A3, A2.
    + intros Hm. by rewrite E3, E2.
Qed.

Lemma keeps_commands_any (m m' : Objects.method) (h h' : oheap) :
  m <> Objects.Do -> Objects.keeps_commands m h h' ->
  Objects.keeps_commands m' h h'.
Proof.
  intros Hm [K F]. split; [exact K|].
  intros l k d Hl Hk. destruct (F l k d Hl Hk) as (d' & Hl' & A & E).
  exists d'. split; [done|]. split; [done|]. intros _. apply E. by left.
Qed.

Lemma is_command_kept (m : Objects.method) (h h' : oheap) (o : val) :
  Objects.keeps_commands m h h' ->
  Objects.is_command h' o = Objects.is_command h o.
Proof.
  intros [K _]. destruct o as [| | |l]; try reflexivity. simpl.
  specialize (K l).
  destruct (h !! l) as [[k d|xs|t|s]|], (h' !! l) as [[k2 d2|xs2|t2|s2]|];
    try done. by subst.
Qed.

Lemma targets_kept (m : Objects.method) (h h' : oheap) :
  Objects.targets_are_not_commands h ->
  Objects.keeps_commands m h h' ->
  Objects.targets_are_not_commands h'.
Proof.
  intros Hwf Hk l x Hl. pose proof Hk as [K F].
  destruct x as [k d'|xs|t|s]; try reflexivity.
  case_bool_decide as Hc; [reflexivity|].
  specialize (K l). rewrite Hl in K.
  destruct (h !! l) as [[k0 d|xs|t|s]|] eqn:Hl0; try done. subst k0.
  destruct (F l k d Hl0 Hc) as (d2 & Hl2 & A & _).
  rewrite Hl in Hl2. injection Hl2 as <-.
  rewrite A by done. specialize (Hwf l _ Hl0). simpl in Hwf.
  rewrite bool_decide_eq_false_2 in Hwf by done.
  destruct (d !! "object_") as [o|]; [|reflexivity].
  by rewrite (is_command_kept m h h' o Hk).
Qed.

Lemma target_of_command (h : oheap) (self : loc) (k : Objects.class)
    (d : gmap string val) (o : val) :
  Objects.targets_are_not_commands h ->
  h !! self = Some (Objects.Inst k d) -> k <> Objects.class_object ->
  d !! "object_" = Some o ->
  Objects.is_command h o = false.
Proof.
  intros Hwf Hs Hk Ho. specialize (Hwf self _ Hs). simpl in Hwf.
  rewrite bool_decide_eq_false_2, Ho in Hwf by done.
  by apply negb_true_iff in Hwf.
Qed.

(** A store of one object keeps the commands when the object keeps its
    class and, if it is a command, the attributes it must keep. *)
Lemma keeps_commands_insert (m : Objects.method) (h : oheap) (l : loc)
    (x x' : Objects.pobj C) :
  h !! l = Some x ->
  match x, x' with
  | Objects.Inst k d, Objects.Inst k' d' =>
      k' = k /\
      (k <> Objects.class_object ->
       (forall a, a <> "originalItem" -> d' !! a = d !! a) /\
       (m <> Objects.Do \/ k <> Objects.class_SetAttrCommand -> d' = d))
  | Objects.List _, Objects.List _ => True
  | Objects.Tuple t, Objects.Tuple t' => t' = t
  | Objects.Cont _, Objects.Cont _ => True
  | _, _ => False
  end ->
  Objects.keeps_commands m h (<[l := x']> h).
Proof.
  intros Hl Hx. split.
  - intros l0. destruct (decide (l = l0)) as [<-|Hne].
    + rewrite lookup_insert_eq, Hl.
      destruct x as [k d|xs|t|s], x' as [k' d'|xs'|t'|s']; try done.
      by destruct Hx.
    + rewrite lookup_insert_ne by done.
      by destruct (h !! l0) as [[k d|xs|t|s]|].
  - intros l0 k d Hl0 Hk. destruct (decide (l = l0)) as [<-|Hne].
    + rewrite lookup_insert_eq. rewrite Hl in Hl0. injection Hl0 as ->.
      destruct x' as [k' d'|xs'|t'|s']; try done.
      destruct Hx as [-> Hx]. destruct (Hx Hk) as [A E].
      exists d'. by repeat split.
    + rewrite lookup_insert_ne by done. exists d. by repeat split.
Qed.

Lemma setattr_on_target (m : Objects.method) (o name v : val)
    (h h' : oheap) r :
  Objects.is_command h o = false ->
  Objects.setattr o name v h = (r, h') ->
  Objects.keeps_commands m h h'.
Proof.
  unfold Objects.setattr. intros Hc H.
  destruct name as [| |a|]; try (injection H as <- <-; apply keeps_commands_refl).
  destruct o as [| | |l]; try (injection H as <- <-; apply keeps_commands_refl).
  simpl in Hc.
  destruct (h !! l) as [[k d|xs|t|s]|] eqn:Hl;
    try (injection H as <- <-; apply keeps_commands_refl).
  injection H as <- <-. eapply keeps_commands_insert; [exact Hl|].
  split; [done|]. intros Hk. exfalso.
  rewrite bool_decide_eq_false_2 in Hc by done. discriminate.
Qed.

Lemma assign_originalItem (self : loc) (v : val) (d : gmap string val)
    (h h' : oheap) r :
  h !! self = Some (Objects.Inst Objects.class_SetAttrCommand d) ->
  Objects.setattr (VRef self) (VStr "originalItem") v h = (r, h') ->
  h' = <[self := Objects.Inst Objects.class_SetAttrCommand
                   (<["originalItem" := v]> d)]> h /\
  Objects.keeps_commands Objects.Do h h'.
Proof.
  unfold Objects.setattr. intros Hs H. rewrite Hs in H. injection H as <- <-.
  split; [reflexivity|]. eapply keeps_commands_insert; [exact Hs|].
  split; [done|]. intros _. split.
  - intros a Ha. by rewrite lookup_insert_ne.
  - intros [Hm|Hk]; done.
Qed.

Lemma invoke_append_keeps (m : Objects.method) f (o x : val) (h h' : oheap) r :
  Objects.invoke_append f o x h = (r, h') -> Objects.keeps_commands m h h'.
Proof.
  unfold Objects.invoke_append. intros H.
  destruct f, o as [| | |l]; try (injection H as <- <-; apply keeps_commands_refl).
  destruct (h !! l) as [[k d|xs|t|s]|] eqn:Hl;
    try (injection H as <- <-; apply keeps_commands_refl).
  injection H as <- <-. by eapply keeps_commands_insert.
Qed.

Lemma invoke_pop_keeps (m : Objects.method) f (o : val) (h h' : oheap) r :
  Objects.invoke_pop f o h = (r, h') -> Objects.keeps_commands m h h'.
Proof.
  unfold Objects.invoke_pop. intros H.
  destruct f, o as [| | |l]; try (injection H as <- <-; apply keeps_commands_refl).
  destruct (h !! l) as [[k d|xs|t|s]|] eqn:Hl;
    try (injection H as <- <-; apply keeps_commands_refl).
  destruct (pop xs) as [[y xs']|];
    injection H as <- <-; [|apply keeps_commands_refl].
  by eapply keeps_commands_insert.
Qed.

Lemma invoke_item_keeps (m : Objects.method) op f (o x : val) (h h' : oheap) r :
  Objects.invoke_item op f o x h = (r, h') -> Objects.keeps_commands m h h'.
Proof.
  unfold Objects.invoke_item. intros H.
  destruct f, o as [| | |l]; try (injection H as <- <-; apply keeps_commands_refl).
  destruct (h !! l) as [[k d|xs|t|s]|] eqn:Hl;
    try (injection H as <- <-; apply keeps_commands_refl).
  destruct (op s x) as [s'|e];
    injection H as <- <-; [|apply keeps_commands_refl].
  by eapply keeps_commands_insert.
Qed.

Lemma find_method_reads is_list (o : val) name (h h' : oheap) r :
  Objects.find_method is_list o name h = (r, h') -> h' = h.
Proof.
  unfold Objects.find_method. intros H.
  destruct o as [| | |l]; try by injection H as <- <-.
  destruct (h !! l) as [[k d|xs|t|s]|]; try by injection H as <- <-.
  - destruct (d !! name); by injection H as <- <-.
  - destruct is_list; by injection H as <- <-.
  - destruct is_list; by injection H as <- <-.
Qed.

Lemma elements_reads (t : val) (h h' : oheap) r :
  Objects.elements t h = (r, h') -> h' = h.
Proof.
  unfold Objects.elements. intros H.
  destruct t as [| | |l]; try by injection H as <- <-.
  destruct (h !! l) as [[k d|xs|t|s]|]; by injection H as <- <-.
Qed.

Lemma ofor_each_keeps (m : Objects.method) (f : val -> Objects.OM unit)
    (cs : list val) :
  (forall c (h : oheap) r h', Objects.targets_are_not_commands h ->
     f c h = (r, h') -> Objects.keeps_commands m h h') ->
  forall (h : oheap) r h', Objects.targets_are_not_commands h ->
    Objects.ofor_each f cs h = (r, h') ->
    Objects.keeps_commands m h h'.
Proof.
  intros Hf. induction cs as [|c cs IH]; intros h r h' Hwf H; simpl in H.
  - injection H as <- <-. apply keeps_commands_refl.
  - unfold Objects.obind in H. destruct (f c h) as [[[]|e|] h1] eqn:Hc.
    + pose proof (Hf c h _ h1 Hwf Hc) as K1.
      eapply keeps_commands_trans; [exact K1|].
      eapply IH; [|exact H]. by eapply targets_kept.
    + injection H as <- <-. by eapply Hf.
    + injection H as <- <-. by eapply Hf.
Qed.

End ObjectFacts.

Section ObjectCalls.
Context {C : Type} `{!ItemContainer C}.

Abbreviation oheap := (gmap loc (Objects.pobj C)).

Lemma obind_attr {B : Type} (self : loc) (name : string) (K : val -> Objects.OM B)
    (h : oheap) k d :
  h !! self = Some (Objects.Inst k d) ->
  Objects.obind (Objects.attr self name) K h =
    match d !! name with
    | Some v => K v h
    | None => (Objects.Raised AttributeError, h)
    end.
Proof.
  intros Hs. unfold Objects.obind, Objects.attr. rewrite Hs.
  by destruct (d !! name).
Qed.

Lemma obind_cases {A B : Type} (c : Objects.OM A) (K : A -> Objects.OM B)
    (h h' : oheap) r :
  Objects.obind c K h = (r, h') ->
  (exists a h1, c h = (Objects.Done a, h1) /\ K a h1 = (r, h')) \/
  (exists r0, c h = (r0, h') /\ forall a, r0 <> Objects.Done a).
Proof.
  unfold Objects.obind. destruct (c h) as [[a|e|] h1] eqn:E; intros H.
  - left. by exists a, h1.
  - right. injection H as <- <-. by exists (Objects.Raised e).
  - right. injection H as <- <-. by exists Objects.Exhausted.
Qed.

Lemma getattr_reads (o name : val) (h h' : oheap) r :
  Objects.getattr o name h = (r, h') -> h' = h.
Proof.
  unfold Objects.getattr, Objects.oraise, Objects.attr. intros H.
  destruct name as [| |a|]; try by injection H as <- <-.
  destruct o as [| | |l]; try by injection H as <- <-.
  destruct (h !! l) as [[k d|xs|t|s]|]; try by injection H as <- <-.
  destruct (d !! a); by injection H as <- <-.
Qed.

(** Where no command has a command object as its target, a call of [do],
    [undo] or [redo], whatever its outcome, keeps the commands. *)
Lemma call_keeps (fuel : nat) :
  forall (m : Objects.method) (target : val) (h h' : oheap) r,
    Objects.targets_are_not_commands h ->
    Objects.call fuel m target h = (r, h') ->
    Objects.keeps_commands m h h'.
Proof.
  induction fuel as [|fuel IH]; intros m target h h' r Hwf H.
  { injection H as <- <-. apply keeps_commands_refl. }
  assert (forall m' t (h1 : oheap) r1 h2,
            Objects.targets_are_not_commands h1 ->
            Objects.call fuel m' t h1 = (r1, h2) ->
            m' <> Objects.Do -> Objects.keeps_commands m h1 h2) as IHany.
  { intros m' t h1 r1 h2 Hwf1 H1 Hm'.
    eapply keeps_commands_any; [exact Hm'|]. by eapply IH. }
  cbn [Objects.call] in H.
  destruct target as [| | |self];
    try (injection H as <- <-; apply keeps_commands_refl).
  destruct (h !! self) as [[k d|xs|t|s]|] eqn:Hs;
    try (injection H as <- <-; apply keeps_commands_refl).
  destruct (d !! Objects.method_name m);
    [injection H as <- <-; apply keeps_commands_refl|].
  destruct k;
    try (destruct m; injection H as <- <-; apply keeps_commands_refl).
  - (* SetAttrCommand *)
    destruct m.
    + rewrite (obind_attr _ _ _ _ _ _ Hs) in H.
      destruct (d !! "object_") as [o|] eqn:Ho;
        [|injection H as <- <-; apply keeps_commands_refl].
      rewrite (obind_attr _ _ _ _ _ _ Hs) in H.
      destruct (d !! "attrName") as [a|];
        [|injection H as <- <-; apply keeps_commands_refl].
      apply obind_cases in H as [(v & h1 & Hg & H)|(r0 & Hg & _)];
        apply getattr_reads in Hg as ->; [|apply keeps_commands_refl].
      apply obind_cases in H as [([] & h1 & Ha & H)|(r0 & Ha & _)].
      * destruct (assign_originalItem _ _ _ _ _ _ Hs Ha) as [_ K1].
        eapply keeps_commands_trans; [exact K1|].
        eapply IHany; [by eapply targets_kept|exact H|done].
      * by destruct (assign_originalItem _ _ _ _ _ _ Hs Ha) as [_ K1].
    + rewrite (obind_attr _ _ _ _ _ _ Hs) in H.
      destruct (d !! "object_") as [o|] eqn:Ho;
        [|injection H as <- <-; apply keeps_commands_refl].
      rewrite (obind_attr _ _ _ _ _ _ Hs) in H.
      destruct (d !! "attrName") as [a|];
        [|injection H as <- <-; apply keeps_commands_refl].
      rewrite (obind_attr _ _ _ _ _ _ Hs) in H.
      destruct (d !! "originalItem") as [v|];
        [|injection H as <- <-; apply keeps_commands_refl].
      eapply setattr_on_target; [|exact H].
      by eapply target_of_command.
    + rewrite (obind_attr _ _ _ _ _ _ Hs) in H.
      destruct (d !! "object_") as [o|] eqn:Ho;
        [|injection H as <- <-; apply keeps_commands_refl].
      rewrite (obind_attr _ _ _ _ _ _ Hs) in H.
      destruct (d !! "attrName") as [a|];
        [|injection H as <- <-; apply keeps_commands_refl].
      rewrite (obind_attr _ _ _ _ _ _ Hs) in H.
      destruct (d !! "item") as [v|];
        [|injection H as <- <-; apply keeps_commands_refl].
      eapply setattr_on_target; [|exact H].
      by eapply target_of_command.
  - (* AppendCommand *)
    destruct m.
    + by eapply IHany.
    + rewrite (obind_attr _ _ _ _ _ _ Hs) in H.
      destruct (d !! "object_") as [o|] eqn:Ho;
        [|injection H as <- <-; apply keeps_commands_refl].
      apply obind_cases in H as [(f & h1 & Hf & H)|(r0 & Hf & _)];
        apply find_method_reads in Hf as ->; [|apply keeps_commands_refl].
      by eapply invoke_pop_keeps.
    + rewrite (obind_attr _ _ _ _ _ _ Hs) in H.
      destruct (d !! "object_") as [o|] eqn:Ho;
        [|injection H as <- <-; apply keeps_commands_refl].
      apply obind_cases in H as [(f & h1 & Hf & H)|(r0 & Hf & _)];
        apply find_method_reads in Hf as ->; [|apply keeps_commands_refl].
      rewrite (obind_attr _ _ _ _ _ _ Hs) in H.
      destruct (d !! "item") as [x|];
        [|injection H as <- <-; apply keeps_commands_refl].
      by eapply invoke_append_keeps.
  - (* AddItemCommand *)
    destruct m.
    + by eapply IHany.
    + rewrite (obind_attr _ _ _ _ _ _ Hs) in H.
      destruct (d !! "object_") as [o|] eqn:Ho;
        [|injection H as <- <-; apply keeps_commands_refl].
      apply obind_cases in H as [(f & h1 & Hf & H)|(r0 & Hf & _)];
        apply find_method_reads in Hf as ->; [|apply keeps_commands_refl].
      rewrite (obind_attr _ _ _ _ _ _ Hs) in H.
      destruct (d !! "item") as [x|];
        [|injection H as <- <-; apply keeps_commands_refl].
      by eapply invoke_item_keeps.
    + rewrite (obind_attr _ _ _ _ _ _ Hs) in H.
      destruct (d !! "object_") as [o|] eqn:Ho;
        [|injection H as <- <-; apply keeps_commands_refl].
      apply obind_cases in H as [(f & h1 & Hf & H)|(r0 & Hf & _)];
        apply find_method_reads in Hf as ->; [|apply keeps_commands_refl].
      rewrite (obind_attr _ _ _ _ _ _ Hs) in H.
      destruct (d !! "item") as [x|];
        [|injection H as <- <-; apply keeps_commands_refl].
      by eapply invoke_item_keeps.
  - (* CommandGroup *)
    assert (forall m' (cs : list val),
              (m' = m \/ m' <> Objects.Do) ->
              forall (h1 : oheap) r1 h2, Objects.targets_are_not_commands h1 ->
                Objects.ofor_each (Objects.call fuel m') cs h1 = (r1, h2) ->
                Objects.keeps_commands m h1 h2) as Hloop.
    { intros m' cs Hm'. apply ofor_each_keeps.
      intros c h1 r1 h2 Hwf1 H1. destruct Hm' as [->|Hm'].
      - by eapply IH.
      - by eapply IHany. }
    destruct m;
      rewrite (obind_attr _ _ _ _ _ _ Hs) in H;
      (destruct (d !! "commands") as [t|];
        [|injection H as <- <-; apply keeps_commands_refl]);
      (apply obind_cases in H as [(cs & h1 & He & H)|(r0 & He & _)];
        apply elements_reads in He as ->; [|apply keeps_commands_refl]);
      (eapply Hloop; [by left|exact Hwf|exact H]).
Qed.

Lemma keeps_commands_unchanged (m : Objects.method) (h h' : oheap) :
  Objects.keeps_commands m h h' -> Objects.commands_unchanged m h h'.
Proof.
  intros [K1 K2]. split; [|exact K2].
  intros l t Hl. specialize (K1 l). rewrite Hl in K1.
  destruct (h' !! l) as [[k d|xs|t'|s]|]; try done. by subst.
Qed.

(** [do()] of a [SetAttrCommand] object whose target has the attribute:
    the value of the attribute goes to [originalItem] and [item] to the
    attribute. *)
Lemma call_do_SetAttrCommand (fuel : nat) (h : oheap) (self t : loc)
    (d dt : gmap string val) (a : string) (x v : val) :
  h !! self = Some (Objects.Inst Objects.class_SetAttrCommand d) ->
  d !! "do" = None -> d !! "redo" = None ->
  d !! "object_" = Some (VRef t) ->
  d !! "attrName" = Some (VStr a) ->
  d !! "item" = Some x ->
  h !! t = Some (Objects.Inst Objects.class_object dt) ->
  dt !! a = Some v ->
  Objects.call (S (S fuel)) Objects.Do (VRef self) h =
    (Objects.Done tt,
     <[t := Objects.Inst Objects.class_object (<[a := x]> dt)]>
       (<[self := Objects.Inst Objects.class_SetAttrCommand
                    (<["originalItem" := v]> d)]> h)).
Proof.
  intros Hs Hdo Hredo Ho Ha Hx Ht Hv.
  assert (t <> self) as Hts by (intros ->; congruence).
  set (d1 := <["originalItem" := v]> d).
  set (h1 := <[self := Objects.Inst Objects.class_SetAttrCommand d1]> h).
  assert (h1 !! self = Some (Objects.Inst Objects.class_SetAttrCommand d1)) as Hs1
    by apply lookup_insert_eq.
  assert (h1 !! t = Some (Objects.Inst Objects.class_object dt)) as Ht1
    by (unfold h1; by rewrite lookup_insert_ne).
  assert (Objects.call (S fuel) Objects.Redo (VRef self) h1 =
            (Objects.Done tt,
             <[t := Objects.Inst Objects.class_object (<[a := x]> dt)]> h1)) as Hr.
  { cbn [Objects.call]. rewrite Hs1. cbn [Objects.method_name].
    unfold d1 at 1. rewrite lookup_insert_ne by done. rewrite Hredo.
    rewrite (obind_attr _ _ _ _ _ _ Hs1). unfold d1 at 1.
    rewrite lookup_insert_ne by done. rewrite Ho.
    rewrite (obind_attr _ _ _ _ _ _ Hs1). unfold d1 at 1.
    rewrite lookup_insert_ne by done. rewrite Ha.
    rewrite (obind_attr _ _ _ _ _ _ Hs1). unfold d1 at 1.
    rewrite lookup_insert_ne by done. rewrite Hx.
    unfold Objects.setattr. by rewrite Ht1. }
  cbn [Objects.call]. rewrite Hs. cbn [Objects.method_name]. rewrite Hdo.
  rewrite (obind_attr _ _ _ _ _ _ Hs), Ho.
  rewrite (obind_attr _ _ _ _ _ _ Hs), Ha.
  unfold Objects.obind at 1. unfold Objects.getattr, Objects.attr.
  rewrite Ht, Hv.
  unfold Objects.obind at 1. unfold Objects.setattr at 1. rewrite Hs.
  exact Hr.
Qed.

End ObjectCalls.

(** C9 (as amended). Provided no command has a command object as its
    target, [do()], [undo()] and [redo()] of any command, whatever they
    return or raise, leave the class and the attributes [object_],
    [attrName], [item] and [commands] of every command object, and every
    tuple of children, as they are; the one attribute of a command object
    they assign is [originalItem].  [originalItem] is assigned by
    [SetAttrCommand.do()] alone, and by every call of it, not only the
    first: [undo()] and [redo()] of any command leave the [originalItem] of
    every command object as it is; [do()] leaves it as it is on every
    command object other than the [SetAttrCommand] objects it executes; and
    a [SetAttrCommand.do()] on an attribute holding [v] succeeds and leaves
    [originalItem == v], whatever [originalItem] was, while on a target
    without the attribute it raises [AttributeError] and changes nothing.
    The first five parts are on the embedding of the commands as terms, the
    last two on the embedding of the command objects with their
    [__dict__]. *)
Theorem C9_commands_write_originalItem_only {C : Type} `{!ItemContainer C}
    (c : command) (w : world C) :
  originalItem (undo c w).2 = originalItem w /\
  originalItem (redo c w).2 = originalItem w /\
  (forall i, i ∉ setattr_objects c ->
     originalItem (do_ c w).2 !! i = originalItem w !! i) /\
  (forall self t a item v,
     attr_of w t a = Some v ->
     (do_ (SetAttrCommand self t a item) w).1 = Ok tt /\
     originalItem (do_ (SetAttrCommand self t a item) w).2 !! self = Some v) /\
  (forall self t a item,
     attr_of w t a = None ->
     do_ (SetAttrCommand self t a item) w = (Raise AttributeError, w)) /\
  (forall (fuel : nat) (m : Objects.method) (target : val)
          (h : gmap loc (Objects.pobj C)),
     Objects.targets_are_not_commands h ->
     Objects.commands_unchanged m h (Objects.call fuel m target h).2) /\
  (forall (fuel : nat) (h : gmap loc (Objects.pobj C)) (self t : loc)
          (d dt : gmap string val) (a : string) (x v : val),
     h !! self = Some (Objects.Inst Objects.class_SetAttrCommand d) ->
     d !! "do" = None -> d !! "redo" = None ->
     d !! "object_" = Some (VRef t) ->
     d !! "attrName" = Some (VStr a) ->
     d !! "item" = Some x ->
     h !! t = Some (Objects.Inst Objects.class_object dt) ->
     dt !! a = Some v ->
     Objects.call (S (S fuel)) Objects.Do (VRef self) h =
       (Objects.Done tt,
        <[t := Objects.Inst Objects.class_object (<[a := x]> dt)]>
          (<[self := Objects.Inst Objects.class_SetAttrCommand
                       (<["originalItem" := v]> d)]> h))).
Proof.
  split; [|split; [|split; [|split; [|split; [|split]]]]].
  - destruct (undo c w) as [r w'] eqn:E.
    exact (undo_keeps_originalItem c w r w' E).
  - destruct (redo c w) as [r w'] eqn:E.
    exact (redo_keeps_originalItem c w r w' E).
  - destruct (do_ c w) as [r w'] eqn:E.
    exact (do_keeps_other_originalItem c w r w' E).
  - intros self t a item v Hv.
    destruct (do_SetAttrCommand_on_attr w self t a v item Hv) as [d [_ ->]].
    simpl. split; [reflexivity|]. apply lookup_insert_eq.
  - intros self t a item. unfold attr_of. simpl. unfold bind, getattr.
    destruct (heap w !! t) as [[d|l|s]|]; try reflexivity.
    by intros ->.
  - intros fuel m target h Hwf.
    destruct (Objects.call fuel m target h) as [r h'] eqn:E.
    apply keeps_commands_unchanged. exact (call_keeps fuel m target h h' r Hwf E).
  - intros fuel h self t d dt a x v. apply call_do_SetAttrCommand.
Qed.

Lemma C9_commands_write_originalItem_only_witness :
  (attr_of (do_ set_x_5 example_world).2 0 "x" = Some (VInt 5) /\
   (do_ (SetAttrCommand 7 0 "x" (VInt 5)) (do_ set_x_5 example_world).2).1 = Ok tt /\
   originalItem
     (do_ (SetAttrCommand 7 0 "x" (VInt 5)) (do_ set_x_5 example_world).2).2 !! 7 =
     Some (VInt 5)) /\
  (Objects.targets_are_not_commands example_objects /\
   Objects.commands_unchanged Objects.Do example_objects
     (Objects.call 3 Objects.Do (VRef 10) example_objects).2).
Proof.
  assert (attr_of (do_ set_x_5 example_world).2 0 "x" = Some (VInt 5)) as H
    by (vm_compute; reflexivity).
  assert (Objects.targets_are_not_commands example_objects) as Hwf
    by (apply (bool_decide_unpack _); vm_compute; exact I).
  split; (split; [assumption|]).
  - exact (proj1 (proj2 (proj2 (proj2
      (C9_commands_write_originalItem_only set_x_5 (do_ set_x_5 example_world).2))))
      7 0 "x" (VInt 5) (VInt 5) H).
  - exact (proj1 (proj2 (proj2 (proj2 (proj2 (proj2
      (C9_commands_write_originalItem_only set_x_5 example_world))))))
      3 Objects.Do (VRef 10) example_objects Hwf).
Defined.

(** C9, as stated, fails: the second [do()] of one [SetAttrCommand] object
    assigns [originalItem] again, and it no longer holds the value [1] the
    attribute had before the first. *)
Lemma C9_counterexample :
  originalItem (do_ set_x_5 example_world).2 !! 7 = Some (VInt 1) /\
  (do_ set_x_5 (do_ set_x_5 example_world).2).1 = Ok tt /\
  originalItem (do_ set_x_5 (do_ set_x_5 example_world).2).2 !! 7 = Some (VInt 5).
Proof. repeat split; vm_compute; reflexivity. Qed.

(** The group of [example_objects] is done, undone and redone without an
    exception, and [do()] has left on the command object [7] the
    attributes [__init__] gave it, with the value [1] the attribute [x]
    had in [originalItem]. *)
Example example_objects_run :
  example_objects !! 7 =
    Some (Objects.Inst Objects.class_SetAttrCommand
            (<["object_" := VRef 0]> (<["attrName" := VStr "x"]>
               (<["item" := VInt 5]> (<["originalItem" := VNone]> ∅))))) /\
  (Objects.call 3 Objects.Do (VRef 10) example_objects).1 = Objects.Done tt /\
  (Objects.call 3 Objects.Do (VRef 10) example_objects).2 !! 7 =
    Some (Objects.Inst Objects.class_SetAttrCommand
            (<["object_" := VRef 0]> (<["attrName" := VStr "x"]>
               (<["item" := VInt 5]> (<["originalItem" := VInt 1]> ∅))))) /\
  (Objects.call 3 Objects.Do (VRef 10) example_objects).2 !! 0 =
    Some (Objects.Inst Objects.class_object (<["x" := VInt 5]> ∅)) /\
  (Objects.call 3 Objects.Do (VRef 10) example_objects).2 !! 1 =
    Some (Objects.List [VStr "a"]) /\
  Objects.call 3 Objects.Undo (VRef 10)
    (Objects.call 3 Objects.Do (VRef 10) example_objects).2 =
    (Objects.Done tt,
     <[7 := Objects.Inst Objects.class_SetAttrCommand
              (<["object_" := VRef 0]> (<["attrName" := VStr "x"]>
                 (<["item" := VInt 5]> (<["originalItem" := VInt 1]> ∅))))]>
       example_objects).
Proof. repeat split; vm_compute; reflexivity. Qed.

(** Why C9 asks that no command has a command object as its target:
    [do()] of [SetAttrCommand(c, "item", 9)], with [c] the command object
    [7], assigns the attribute [item] of [c]. *)
Example command_on_command_assigns_item :
  ~ Objects.targets_are_not_commands example_command_on_command /\
  (exists d, example_command_on_command !! 7 =
               Some (Objects.Inst Objects.class_SetAttrCommand d) /\
             d !! "item" = Some (VInt 5)) /\
  (Objects.call 2 Objects.Do (VRef 8) example_command_on_command).1 =
    Objects.Done tt /\
  (exists d, (Objects.call 2 Objects.Do (VRef 8) example_command_on_command).2 !! 7 =
               Some (Objects.Inst Objects.class_SetAttrCommand d) /\
             d !! "item" = Some (VInt 9)).
Proof.
  split; [|split; [|split]].
  - intros Hwf.
    assert (example_command_on_command !! 8 =
              Some (Objects.Inst Objects.class_SetAttrCommand
                      (<["object_" := VRef 7]> (<["attrName" := VStr "item"]>
                         (<["item" := VInt 9]> (<["originalItem" := VNone]> ∅))))))
      as H8 by (vm_compute; reflexivity).
    specialize (Hwf _ _ H8). vm_compute in Hwf. discriminate.
  - eexists. split; [vm_compute; reflexivity|vm_compute; reflexivity].
  - vm_compute. reflexivity.
  - eexists. split; [vm_compute; reflexivity|vm_compute; reflexivity].
Qed.

(** Why C1 and C7 ask that [removeItem] be the opposite of [addItem]: on a
    container where adding an item that is already there does nothing, the
    [undo] of a successful [AddItemCommand.do] removes an item that was
    there before. *)
Example AddItemCommand_on_a_set :
  heap example_scene !! 2 = Some (Container [VStr "i"]) /\
  @do_ _ item_set (AddItemCommand 5 2 (VStr "i")) example_scene =
    (Ok tt, example_scene) /\
  (@undo _ item_set (AddItemCommand 5 2 (VStr "i")) example_scene).1 = Ok tt /\
  heap (@undo _ item_set (AddItemCommand 5 2 (VStr "i")) example_scene).2 !! 2 =
    Some (Container []).
Proof. repeat split; vm_compute; reflexivity. Qed.


(** ** Further properties of the command classes *)

Section Frame.
Context {C : Type} `{!ItemContainer C}.

#[local] Instance same_heap_outside_refl ls : Reflexive (same_heap_outside (C:=C) ls).
Proof. by intros w l _. Qed.

#[local] Instance same_heap_outside_trans ls : Transitive (same_heap_outside (C:=C) ls).
Proof. intros w1 w2 w3 H1 H2 l Hl. rewrite H2, H1; auto. Qed.

#[local] Instance same_kinds_refl : Reflexive (same_kinds (C:=C)).
Proof. by intros w l. Qed.

#[local] Instance same_kinds_trans : Transitive (same_kinds (C:=C)).
Proof. intros w1 w2 w3 H1 H2 l. by rewrite H2, H1. Qed.

Lemma same_heap_outside_mono ls ls' (w w' : world C) :
  (forall l, l ∈ ls -> l ∈ ls') ->
  same_heap_outside ls w w' -> same_heap_outside ls' w w'.
Proof. intros Hsub H l Hl. apply H. intros Hin. apply Hl, Hsub, Hin. Qed.

Lemma keeps_weaken {A : Type} (R R' : world C -> world C -> Prop) (m : M C A) :
  (forall w w', R w w' -> R' w w') -> keeps R m -> keeps R' m.
Proof. intros HR Hm w r w' H. by eapply HR, Hm. Qed.

#[local] Instance within_refl ls : Reflexive (within (C:=C) ls).
Proof. intros w. split; reflexivity. Qed.

#[local] Instance within_trans ls : Transitive (within (C:=C) ls).
Proof. intros w1 w2 w3 [H1 K1] [H2 K2]. split; etrans; eauto. Qed.

(** An assignment to the object [o] that keeps its class. *)
Lemma store_at o (x x' : obj C) (w : world C) oi :
  heap w !! o = Some x -> kind_of x' = kind_of x ->
  within [o] w (World (<[o := x']> (heap w)) oi).
Proof.
  intros Ho Hk. split.
  - intros l Hl. simpl. apply lookup_insert_ne. set_solver.
  - intros l. simpl. destruct (decide (o = l)) as [<-|Hne].
    + by rewrite lookup_insert_eq, Ho; simpl; rewrite Hk.
    + by rewrite lookup_insert_ne.
Qed.

Lemma local_to_refl o (w : world C) : within [o] w w.
Proof. split; reflexivity. Qed.

Lemma setattr_local o a v : keeps (within [o]) (setattr (C:=C) o a v).
Proof.
  intros w r w'. unfold setattr.
  destruct (heap w !! o) as [[d|l|s]|] eqn:Ho; intros [= <- <-];
    try apply local_to_refl.
  by eapply store_at.
Qed.

Lemma list_append_local o x : keeps (within [o]) (list_append (C:=C) o x).
Proof.
  intros w r w'. unfold list_append.
  destruct (heap w !! o) as [[d|l|s]|] eqn:Ho; intros [= <- <-];
    try apply local_to_refl.
  by eapply store_at.
Qed.

Lemma list_pop_local o : keeps (within [o]) (list_pop (C:=C) o).
Proof.
  intros w r w'. unfold list_pop.
  destruct (heap w !! o) as [[d|l|s]|] eqn:Ho;
    [|destruct (pop l) as [[x l']|]| |]; intros [= <- <-];
    try apply local_to_refl.
  by eapply store_at.
Qed.

Lemma call_item_local name f o x : keeps (within [o]) (call_item (C:=C) name f o x).
Proof.
  intros w r w'. unfold call_item.
  destruct (heap w !! o) as [[d|l|s]|] eqn:Ho;
    [| |destruct (f s x)|]; intros [= <- <-];
    try apply local_to_refl.
  by eapply store_at.
Qed.

Lemma within_mono ls ls' (w w' : world C) :
  (forall l, l ∈ ls -> l ∈ ls') -> within ls w w' -> within ls' w w'.
Proof. intros Hsub [H K]. split; [by eapply same_heap_outside_mono|done]. Qed.

Lemma target_objects_child (c : command) (cs : list command) l :
  c ∈ cs -> l ∈ target_objects c -> l ∈ flat_map target_objects cs.
Proof.
  intros Hc Hl. apply list_elem_of_In, in_flat_map.
  exists c. split; by apply list_elem_of_In.
Qed.

Lemma redo_within (c : command) : keeps (within (target_objects c)) (redo c).
Proof.
  induction c as [self|self o a i|self o i|self o i|self cs IH]
    using command_ind; simpl.
  - intros w r w' [= <- <-]. reflexivity.
  - apply setattr_local.
  - apply list_append_local.
  - apply call_item_local.
  - apply keeps_for_each; [apply _ ..|].
    rewrite Forall_forall in IH |- *. intros c Hc.
    eapply keeps_weaken; [|by apply IH].
    intros w w'. apply within_mono. intros l. by apply target_objects_child.
Qed.

Lemma undo_within (c : command) : keeps (within (target_objects c)) (undo c).
Proof.
  induction c as [self|self o a i|self o i|self o i|self cs IH]
    using command_ind; simpl.
  - intros w r w' [= <- <-]. reflexivity.
  - apply keeps_bind; [apply _| |intros v; apply setattr_local].
    intros w r w' [= <- <-]. reflexivity.
  - apply keeps_bind; [apply _|apply list_pop_local|].
    intros v w r w' [= <- <-]. reflexivity.
  - apply call_item_local.
  - apply keeps_for_each_reversed; [apply _ ..|].
    rewrite Forall_forall in IH |- *. intros c Hc.
    eapply keeps_weaken; [|by apply IH].
    intros w w'. apply within_mono. intros l. by apply target_objects_child.
Qed.

Lemma do_within (c : command) : keeps (within (target_objects c)) (do_ c).
Proof.
  induction c as [self|self o a i|self o i|self o i|self cs IH]
    using command_ind; simpl.
  - intros w r w' [= <- <-]. reflexivity.
  - apply keeps_bind; [apply _| |intros v; apply keeps_bind; [apply _| |]].
    + intros w r w' H. apply getattr_unchanged in H as ->. reflexivity.
    + intros w r w' [= <- <-]. split; [by intros l _|by intros l].
    + intros _. apply setattr_local.
  - apply list_append_local.
  - apply call_item_local.
  - apply keeps_for_each; [apply _ ..|].
    rewrite Forall_forall in IH |- *. intros c Hc.
    eapply keeps_weaken; [|by apply IH].
    intros w w'. apply within_mono. intros l. by apply target_objects_child.
Qed.

End Frame.

(** X1. Whatever its outcome, [do], [undo] and [redo] of a command leave
    every object that is not the [object_] of one of the commands it
    executes exactly as it was. *)
Theorem commands_change_only_their_targets {C : Type} `{!ItemContainer C}
    (c : command) (w : world C) (l : loc) :
  l ∉ target_objects c ->
  heap (do_ c w).2 !! l = heap w !! l /\
  heap (undo c w).2 !! l = heap w !! l /\
  heap (redo c w).2 !! l = heap w !! l.
Proof.
  intros Hl. split; [|split].
  - destruct (do_ c w) as [r w'] eqn:E. by apply (do_within c w r w' E).
  - destruct (undo c w) as [r w'] eqn:E. by apply (undo_within c w r w' E).
  - destruct (redo c w) as [r w'] eqn:E. by apply (redo_within c w r w' E).
Qed.

Lemma commands_change_only_their_targets_witness :
  (1 ∉ target_objects (CommandGroup 9 [set_x_5; set_x_9])) /\
  heap (do_ (CommandGroup 9 [set_x_5; set_x_9]) example_world).2 !! 1 =
    heap example_world !! 1 /\
  heap (undo (CommandGroup 9 [set_x_5; set_x_9]) example_world).2 !! 1 =
    heap example_world !! 1 /\
  heap (redo (CommandGroup 9 [set_x_5; set_x_9]) example_world).2 !! 1 =
    heap example_world !! 1.
Proof.
  assert (1 ∉ target_objects (CommandGroup 9 [set_x_5; set_x_9])) as H.
  { intros Hin%list_elem_of_In. simpl in Hin. intuition discriminate. }
  split; [exact H|].
  exact (commands_change_only_their_targets _ example_world 1 H).
Defined.

Section MoreCommandFacts.
Context {C : Type} `{!ItemContainer C}.

Lemma bind_ret_tt (m : M C unit) (w : world C) :
  bind m (fun _ => ret tt) w = m w.
Proof. unfold bind, ret. by destruct (m w) as [[[]|e] w1]. Qed.

Lemma bind_ext {A B : Type} (m m' : M C A) (k k' : A -> M C B) (w : world C) :
  m w = m' w -> (forall a w1, k a w1 = k' a w1) -> bind m k w = bind m' k' w.
Proof.
  intros Hm Hk. unfold bind. rewrite Hm.
  destruct (m' w) as [[a|e] w1]; [apply Hk|reflexivity].
Qed.

Lemma for_each_flat_map {A : Type} (f : A -> M C unit) (g : A -> list A)
    (l : list A) :
  Forall (fun x => forall w, f x w = for_each f (g x) w) l ->
  forall w, for_each f l w = for_each f (flat_map g l) w.
Proof.
  induction 1 as [|x l Hx _ IH]; intros w; simpl; [reflexivity|].
  rewrite for_each_app. apply bind_ext; [apply Hx|]. intros _ w1. apply IH.
Qed.

Lemma for_each_reversed_flat_map {A : Type} (f : A -> M C unit) (g : A -> list A)
    (l : list A) :
  Forall (fun x => forall w, f x w = for_each f (rev (g x)) w) l ->
  forall w, for_each_reversed f l w = for_each f (rev (flat_map g l)) w.
Proof.
  induction 1 as [|x l Hx _ IH]; intros w; simpl; [reflexivity|].
  rewrite rev_app_distr, for_each_app.
  apply bind_ext; [apply IH|]. intros _ w1. apply Hx.
Qed.

Lemma for_each_Ok_each {A : Type} (f : A -> M C unit) (l : list A) (w w' : world C) :
  for_each f l w = (Ok tt, w') ->
  Forall (fun x => exists w1 w2, f x w1 = (Ok tt, w2)) l.
Proof.
  revert w. induction l as [|x l IH]; intros w H; simpl in *; [constructor|].
  apply bind_Ok in H as ([] & w1 & Hx & Hl).
  constructor; [by exists w, w1|by eapply IH].
Qed.

Lemma undo_SetAttrCommand self t a item (w : world C) d :
  heap w !! t = Some (Instance d) ->
  undo (SetAttrCommand self t a item) w =
    (Ok tt, World (<[t := Instance (<[a := default VNone (originalItem w !! self)]> d)]>
                     (heap w)) (originalItem w)).
Proof.
  intros Ho. simpl. unfold bind, get_originalItem, setattr. by rewrite Ho.
Qed.

Lemma attr_of_insert (h : gmap loc (obj C)) t d a v oi :
  attr_of (World (<[t := Instance (<[a := v]> d)]> h) oi) t a = Some v.
Proof. unfold attr_of. simpl. rewrite lookup_insert_eq. apply lookup_insert_eq. Qed.

Lemma never_Ok_of_has_Command (c : command) :
  has_Command c = true ->
  forall w : world C,
    (do_ c w).1 <> Ok tt /\ (undo c w).1 <> Ok tt /\ (redo c w).1 <> Ok tt.
Proof.
  induction c as [self|self o a i|self o i|self o i|self cs IH]
    using command_ind; simpl; try discriminate.
  - intros _ w. by repeat split.
  - intros Hex w. apply existsb_exists in Hex as (c & Hc & Hb).
    rewrite Forall_forall in IH. apply list_elem_of_In in Hc.
    pose proof (IH c Hc Hb) as Hnever.
    split; [|split].
    + destruct (for_each do_ cs w) as [[[]|e] w'] eqn:E; [|done].
      apply for_each_Ok_each in E. rewrite Forall_forall in E.
      destruct (E c Hc) as (w1 & w2 & H). intros _.
      destruct (Hnever w1) as (Hd & _ & _). by rewrite H in Hd.
    + rewrite for_each_reversed_rev.
      destruct (for_each undo (rev cs) w) as [[[]|e] w'] eqn:E; [|done].
      apply for_each_Ok_each in E. rewrite Forall_forall in E.
      destruct (E c) as (w1 & w2 & H).
      { apply list_elem_of_In, in_rev. rewrite rev_involutive.
        by apply list_elem_of_In. }
      intros _.
      destruct (Hnever w1) as (_ & Hu & _). by rewrite H in Hu.
    + destruct (for_each redo cs w) as [[[]|e] w'] eqn:E; [|done].
      apply for_each_Ok_each in E. rewrite Forall_forall in E.
      destruct (E c Hc) as (w1 & w2 & H). intros _.
      destruct (Hnever w1) as (_ & _ & Hr). by rewrite H in Hr.
Qed.

Lemma primitives_spec (c : command) :
  forall w : world C,
    do_ c w = for_each do_ (primitives c) w /\
    redo c w = for_each redo (primitives c) w /\
    undo c w = for_each undo (rev (primitives c)) w.
Proof.
  induction c as [self|self o a i|self o i|self o i|self cs IH]
    using command_ind; intros w;
    try (simpl; rewrite ?bind_ret_tt; by repeat split).
  cbn [do_ redo undo primitives]. split; [|split].
  - apply for_each_flat_map. eapply Forall_impl; [exact IH|].
    intros c H w1. apply H.
  - apply for_each_flat_map. eapply Forall_impl; [exact IH|].
    intros c H w1. apply H.
  - apply for_each_reversed_flat_map. eapply Forall_impl; [exact IH|].
    intros c H w1. apply H.
Qed.

End MoreCommandFacts.

(** X3. Where [do()] of a command succeeds, [redo()] started from the same
    targets succeeds too and leaves the same targets; [redo()] assigns no
    [originalItem]. *)
Theorem redo_repeats_do {C : Type} `{!ItemContainer C}
    (c : command) (w w' w2 : world C) :
  do_ c w = (Ok tt, w') ->
  heap w2 = heap w ->
  redo c w2 = (Ok tt, World (heap w') (originalItem w2)).
Proof. apply redo_of_do. Qed.

Lemma redo_repeats_do_witness :
  do_ (CommandGroup 9 [set_x_5; append_a]) example_world =
    (Ok tt, World (<[1 := PyList [VStr "a"]]>
                     (<[0 := Instance (<["x" := VInt 5]> ∅)]> ∅))
                  (<[7 := VInt 1]> ∅)) /\
  redo (CommandGroup 9 [set_x_5; append_a]) example_world =
    (Ok tt, World (<[1 := PyList [VStr "a"]]>
                     (<[0 := Instance (<["x" := VInt 5]> ∅)]> ∅)) ∅).
Proof.
  assert (do_ (CommandGroup 9 [set_x_5; append_a]) example_world =
    (Ok tt, World (<[1 := PyList [VStr "a"]]>
                     (<[0 := Instance (<["x" := VInt 5]> ∅)]> ∅))
                  (<[7 := VInt 1]> ∅))) as H by (vm_compute; reflexivity).
  split; [exact H|].
  exact (redo_repeats_do _ _ _ example_world H eq_refl).
Defined.

(** X4. On an instance that has no attribute [attrName], [do()] of a
    [SetAttrCommand] raises [AttributeError] and changes nothing, while
    [redo()] succeeds and creates the attribute with the new value. *)
Theorem SetAttrCommand_on_missing_attribute {C : Type} `{!ItemContainer C}
    (self : cref) (t : loc) (a : string) (item : val) (d : gmap string val)
    (w : world C) :
  heap w !! t = Some (Instance d) ->
  d !! a = None ->
  do_ (SetAttrCommand self t a item) w = (Raise AttributeError, w) /\
  redo (SetAttrCommand self t a item) w =
    (Ok tt, World (<[t := Instance (<[a := item]> d)]> (heap w)) (originalItem w)) /\
  attr_of (redo (SetAttrCommand self t a item) w).2 t a = Some item.
Proof.
  intros Ho Ha.
  assert (redo (SetAttrCommand self t a item) w =
    (Ok tt, World (<[t := Instance (<[a := item]> d)]> (heap w)) (originalItem w)))
    as Hr by (simpl; unfold setattr; by rewrite Ho).
  split; [|split].
  - simpl. unfold bind, getattr. by rewrite Ho, Ha.
  - exact Hr.
  - rewrite Hr. apply attr_of_insert.
Qed.

Lemma SetAttrCommand_on_missing_attribute_witness :
  heap example_world !! 0 = Some (Instance (<["x" := VInt 1]> ∅)) /\
  (<["x" := VInt 1]> (∅ : gmap string val)) !! "y" = None /\
  do_ (SetAttrCommand 7 0 "y" (VInt 2)) example_world =
    (Raise AttributeError, example_world) /\
  attr_of (redo (SetAttrCommand 7 0 "y" (VInt 2)) example_world).2 0 "y" =
    Some (VInt 2).
Proof.
  assert (heap example_world !! 0 = Some (Instance (<["x" := VInt 1]> ∅))) as Ho
    by (vm_compute; reflexivity).
  assert ((<["x" := VInt 1]> (∅ : gmap string val)) !! "y" = None) as Ha
    by (vm_compute; reflexivity).
  split; [exact Ho|]. split; [exact Ha|].
  destruct (SetAttrCommand_on_missing_attribute 7 0 "y" (VInt 2) _
              example_world Ho Ha) as (Hd & _ & Hr).
  split; [exact Hd|exact Hr].
Defined.

(** X5. [undo()] of a [SetAttrCommand] whose [do()] was never called (its
    [originalItem] is still the [None] of [__init__]) succeeds on any
    instance and sets the attribute to [None], whatever it held. *)
Theorem SetAttrCommand_undo_before_do {C : Type} `{!ItemContainer C}
    (self : cref) (t : loc) (a : string) (item : val) (d : gmap string val)
    (w : world C) :
  heap w !! t = Some (Instance d) ->
  originalItem w !! self = None ->
  undo (SetAttrCommand self t a item) w =
    (Ok tt, World (<[t := Instance (<[a := VNone]> d)]> (heap w)) (originalItem w)) /\
  attr_of (undo (SetAttrCommand self t a item) w).2 t a = Some VNone.
Proof.
  intros Ho Hn.
  assert (undo (SetAttrCommand self t a item) w =
    (Ok tt, World (<[t := Instance (<[a := VNone]> d)]> (heap w)) (originalItem w)))
    as Hu by (rewrite (undo_SetAttrCommand _ _ _ _ _ d Ho); by rewrite Hn).
  split; [exact Hu|]. rewrite Hu. apply attr_of_insert.
Qed.

Lemma SetAttrCommand_undo_before_do_witness :
  heap example_world !! 0 = Some (Instance (<["x" := VInt 1]> ∅)) /\
  originalItem example_world !! 7 = None /\
  attr_of (undo set_x_5 example_world).2 0 "x" = Some VNone.
Proof.
  assert (heap example_world !! 0 = Some (Instance (<["x" := VInt 1]> ∅))) as Ho
    by (vm_compute; reflexivity).
  assert (originalItem example_world !! 7 = None) as Hn by reflexivity.
  split; [exact Ho|]. split; [exact Hn|].
  exact (proj2 (SetAttrCommand_undo_before_do 7 0 "x" (VInt 5) _
                  example_world Ho Hn)).
Defined.

(** X6. A [CommandGroup] does not roll back: when the children before [c]
    are done and [c.do()] raises, the group's [do()] raises the same
    exception, what the earlier children (and [c] itself) changed stays,
    and the children after [c] are not called. *)
Theorem CommandGroup_do_stops_at_failure {C : Type} `{!ItemContainer C}
    (self : cref) (before after : list command) (c : command)
    (w w1 w2 : world C) (e : exn) :
  do_ (CommandGroup self before) w = (Ok tt, w1) ->
  do_ c w1 = (Raise e, w2) ->
  do_ (CommandGroup self (before ++ c :: after)) w = (Raise e, w2).
Proof.
  simpl. intros Hb Hc. rewrite for_each_app.
  erewrite bind_step by exact Hb. simpl. by apply bind_Raise.
Qed.

Lemma CommandGroup_do_stops_at_failure_witness :
  do_ (CommandGroup 9 [append_a]) example_world =
    (Ok tt, World (<[1 := PyList [VStr "a"]]> (heap example_world)) ∅) /\
  do_ (SetAttrCommand 4 0 "y" (VInt 2))
      (World (<[1 := PyList [VStr "a"]]> (heap example_world)) ∅) =
    (Raise AttributeError,
     World (<[1 := PyList [VStr "a"]]> (heap example_world)) ∅) /\
  do_ (CommandGroup 9 ([append_a] ++ SetAttrCommand 4 0 "y" (VInt 2) :: [set_x_5]))
      example_world =
    (Raise AttributeError,
     World (<[1 := PyList [VStr "a"]]> (heap example_world)) ∅).
Proof.
  assert (do_ (CommandGroup 9 [append_a]) example_world =
    (Ok tt, World (<[1 := PyList [VStr "a"]]> (heap example_world)) ∅)) as H1
    by (vm_compute; reflexivity).
  assert (do_ (SetAttrCommand 4 0 "y" (VInt 2))
      (World (<[1 := PyList [VStr "a"]]> (heap example_world)) ∅) =
    (Raise AttributeError,
     World (<[1 := PyList [VStr "a"]]> (heap example_world)) ∅)) as H2
    by (vm_compute; reflexivity).
  split; [exact H1|]. split; [exact H2|].
  exact (CommandGroup_do_stops_at_failure 9 [append_a] [set_x_5] _ _ _ _ _ H1 H2).
Defined.

(** X7. [undo()] of a [CommandGroup] does not roll back either: when the
    children after [c] are undone and [c.undo()] raises, the group's
    [undo()] raises the same exception and the children before [c] are not
    undone. *)
Theorem CommandGroup_undo_stops_at_failure {C : Type} `{!ItemContainer C}
    (self : cref) (before after : list command) (c : command)
    (w w1 w2 : world C) (e : exn) :
  undo (CommandGroup self after) w = (Ok tt, w1) ->
  undo c w1 = (Raise e, w2) ->
  undo (CommandGroup self (before ++ c :: after)) w = (Raise e, w2).
Proof.
  simpl. rewrite !for_each_reversed_rev. intros Ha Hc.
  rewrite rev_app_distr. simpl. rewrite <- app_assoc, for_each_app.
  erewrite bind_step by exact Ha. simpl. by apply bind_Raise.
Qed.

Lemma CommandGroup_undo_stops_at_failure_witness :
  undo (CommandGroup 9 [set_x_5]) example_world =
    (Ok tt, World (<[0 := Instance (<["x" := VNone]> ∅)]> (heap example_world)) ∅) /\
  undo append_a
       (World (<[0 := Instance (<["x" := VNone]> ∅)]> (heap example_world)) ∅) =
    (Raise IndexError,
     World (<[0 := Instance (<["x" := VNone]> ∅)]> (heap example_world)) ∅) /\
  undo (CommandGroup 9 ([set_x_9] ++ append_a :: [set_x_5])) example_world =
    (Raise IndexError,
     World (<[0 := Instance (<["x" := VNone]> ∅)]> (heap example_world)) ∅).
Proof.
  assert (undo (CommandGroup 9 [set_x_5]) example_world =
    (Ok tt, World (<[0 := Instance (<["x" := VNone]> ∅)]> (heap example_world)) ∅))
    as H1 by (vm_compute; reflexivity).
  assert (undo append_a
       (World (<[0 := Instance (<["x" := VNone]> ∅)]> (heap example_world)) ∅) =
    (Raise IndexError,
     World (<[0 := Instance (<["x" := VNone]> ∅)]> (heap example_world)) ∅)) as H2
    by (vm_compute; reflexivity).
  split; [exact H1|]. split; [exact H2|].
  exact (CommandGroup_undo_stops_at_failure 9 [set_x_9] [set_x_5] _ _ _ _ _ H1 H2).
Defined.

(** X8. A command does what the commands that are not groups inside it do,
    through any nesting of groups: [do()] and [redo()] call theirs in the
    order of the lists, and [undo()] calls theirs in exactly the reverse
    order; an empty group does nothing and succeeds. *)
Theorem CommandGroup_flattens {C : Type} `{!ItemContainer C}
    (c : command) (w : world C) :
  do_ c w = for_each do_ (primitives c) w /\
  redo c w = for_each redo (primitives c) w /\
  undo c w = for_each undo (rev (primitives c)) w.
Proof. apply primitives_spec. Qed.

(** X9. A command that contains an instance of the base class [Command],
    however deep in groups, never returns from [do()], [undo()] or
    [redo()]: each raises, from any state. *)
Theorem base_Command_always_raises {C : Type} `{!ItemContainer C}
    (c : command) (w : world C) :
  has_Command c = true ->
  (do_ c w).1 <> Ok tt /\ (undo c w).1 <> Ok tt /\ (redo c w).1 <> Ok tt.
Proof. intros H. by apply never_Ok_of_has_Command. Qed.

Lemma base_Command_always_raises_witness :
  has_Command (CommandGroup 9 [append_a; CommandGroup 8 [Command 2]]) = true /\
  (do_ (CommandGroup 9 [append_a; CommandGroup 8 [Command 2]]) example_world).1
    <> Ok tt.
Proof.
  split; [reflexivity|].
  exact (proj1 (base_Command_always_raises
                  (CommandGroup 9 [append_a; CommandGroup 8 [Command 2]])
                  example_world eq_refl)).
Defined.

(** ** Further properties of [UndoStack] *)

Section MoreStackFacts.
Context {C : Type} `{!ItemContainer C}.

Lemma undo_Ok_inv (s s' : UndoStack.t) (w w' : world C) :
  UndoStack.undo s w = (Ok tt, s', w') ->
  exists h c, UndoStack.history s = h ++ [c] /\
    s' = UndoStack.Make h (UndoStack.future s ++ [c]) /\
    undo c w = (Ok tt, w').
Proof.
  unfold UndoStack.undo.
  destruct (pop (UndoStack.history s)) as [[c h]|] eqn:Hp; [|discriminate].
  apply pop_Some in Hp. simpl.
  destruct (undo c w) as [[[]|e] w1] eqn:E; [|discriminate].
  intros [= <- <-]. exists h, c. by rewrite E.
Qed.

Lemma redo_Ok_inv (s s' : UndoStack.t) (w w' : world C) :
  UndoStack.redo s w = (Ok tt, s', w') ->
  exists f c, UndoStack.future s = f ++ [c] /\
    s' = UndoStack.Make (UndoStack.history s ++ [c]) f /\
    redo c w = (Ok tt, w').
Proof.
  unfold UndoStack.redo.
  destruct (pop (UndoStack.future s)) as [[c f]|] eqn:Hp; [|discriminate].
  apply pop_Some in Hp. simpl.
  destruct (redo c w) as [[[]|e] w1] eqn:E; [|discriminate].
  intros [= <- <-]. exists f, c. by rewrite E.
Qed.

Lemma run_cons_Ok (o : op) (ops : list op) (s s' : UndoStack.t) (w w' : world C) :
  run (o :: ops) s w = (Ok tt, s', w') ->
  exists s1 w1, call o s w = (Ok tt, s1, w1) /\ run ops s1 w1 = (Ok tt, s', w').
Proof.
  cbn [run]. destruct (call o s w) as [[[[]|e] s1] w1]; [|discriminate].
  intros H. by exists s1, w1.
Qed.

Lemma world_eq (w1 w2 : world C) :
  heap w1 = heap w2 -> originalItem w1 = originalItem w2 -> w1 = w2.
Proof. destruct w1, w2. simpl. by intros -> ->. Qed.

Lemma plays_undo_many (w0 : world C) (pre post f : list command) (w : world C) :
  remove_undoes_add C ->
  plays w0 (UndoStack.Make (pre ++ post) f) w ->
  exists w',
    run (repeat Undo (length post)) (UndoStack.Make (pre ++ post) f) w =
      (Ok tt, UndoStack.Make pre (f ++ rev post), w') /\
    plays w0 (UndoStack.Make pre (f ++ rev post)) w' /\
    originalItem w' = originalItem w.
Proof.
  intros Hlaw. revert f w.
  induction post as [|c post IH] using rev_ind; intros f w Hp.
  - simpl. rewrite !app_nil_r in *. by exists w.
  - rewrite app_assoc in Hp |- *.
    destruct (plays_undo w0 (pre ++ post) f c w Hlaw Hp) as (wh1 & _ & Hu & Hp1).
    destruct (IH _ _ Hp1) as (w' & Hrun & Hp' & Ho).
    rewrite rev_unit. simpl. rewrite <- app_assoc in Hrun, Hp'. simpl in Hrun, Hp'.
    exists w'. split; [|split; [exact Hp'|exact Ho]].
    rewrite length_app, Nat.add_1_r. cbn [repeat run call].
    by rewrite Hu, Hrun.
Qed.

Lemma plays_redo_many (w0 : world C) (h post f : list command) (w : world C) :
  plays w0 (UndoStack.Make h (f ++ rev post)) w ->
  exists w',
    run (repeat Redo (length post)) (UndoStack.Make h (f ++ rev post)) w =
      (Ok tt, UndoStack.Make (h ++ post) f, w') /\
    plays w0 (UndoStack.Make (h ++ post) f) w' /\
    originalItem w' = originalItem w.
Proof.
  revert h w. induction post as [|c post IH]; intros h w Hp.
  - simpl in *. rewrite !app_nil_r in *. by exists w.
  - simpl in Hp |- *. rewrite app_assoc in Hp |- *.
    destruct (plays_redo w0 h (f ++ rev post) c w Hp) as (wh1 & _ & Hr & Hp1).
    destruct (IH _ _ Hp1) as (w' & Hrun & Hp' & Ho).
    rewrite <- app_assoc in Hrun, Hp'. simpl in Hrun, Hp'.
    exists w'. split; [|split; [exact Hp'|exact Ho]].
    by rewrite Hr, Hrun.
Qed.

Lemma plays_same_heap (w0 : world C) (s : UndoStack.t) (w w' : world C) :
  plays w0 s w -> plays w0 s w' -> heap w = heap w'.
Proof.
  intros (wh & _ & Hh & _ & E & _) (wh' & _ & Hh' & _ & E' & _).
  rewrite Hh in Hh'. injection Hh' as <-. congruence.
Qed.

End MoreStackFacts.

(** X10. Dispatching the commands [cs] one after the other, up to the first
    whose [do()] raises, has the same outcome and leaves the same targets
    and [originalItem]s as dispatching the one [CommandGroup] of [cs]. *)
Theorem dispatch_each_or_as_group {C : Type} `{!ItemContainer C}
    (self : cref) (cs : list command) (s : UndoStack.t) (w : world C) :
  (run (map Dispatch cs) s w).1.1 =
    (UndoStack.dispatch (CommandGroup self cs) s w).1.1 /\
  (run (map Dispatch cs) s w).2 =
    (UndoStack.dispatch (CommandGroup self cs) s w).2.
Proof.
  assert ((UndoStack.dispatch (CommandGroup self cs) s w).1.1 = (for_each do_ cs w).1 /\
          (UndoStack.dispatch (CommandGroup self cs) s w).2 = (for_each do_ cs w).2)
    as [-> ->].
  { unfold UndoStack.dispatch. simpl.
    by destruct (for_each do_ cs w) as [[[]|e] w1]. }
  revert s w. induction cs as [|c cs IH]; intros s w; simpl; [done|].
  unfold UndoStack.dispatch, bind.
  destruct (do_ c w) as [[[]|e] w1]; [apply IH|done].
Qed.

(** X11. Successful [undo()] and [redo()] calls, in any number and order,
    neither lose, duplicate nor reorder the recorded commands: [history]
    followed by [future] read backwards stays the same list. *)
Theorem undo_redo_keep_timeline {C : Type} `{!ItemContainer C}
    (ops : list op) (s s' : UndoStack.t) (w w' : world C) :
  Forall (fun o => o = Undo \/ o = Redo) ops ->
  run ops s w = (Ok tt, s', w') ->
  timeline s' = timeline s.
Proof.
  intros Hops. revert s w.
  induction Hops as [|o ops Ho _ IH]; intros s w Hrun.
  - by injection Hrun as <- <-.
  - apply run_cons_Ok in Hrun as (s1 & w1 & Hcall & Hrun).
    rewrite (IH _ _ Hrun). unfold timeline.
    destruct Ho as [-> | ->]; simpl in Hcall.
    + apply undo_Ok_inv in Hcall as (h & c & Hh & -> & _). simpl.
      by rewrite Hh, rev_unit, <- app_assoc.
    + apply redo_Ok_inv in Hcall as (f & c & Hf & -> & _). simpl.
      by rewrite Hf, rev_unit, <- app_assoc.
Qed.

Lemma undo_redo_keep_timeline_witness :
  Forall (fun o => o = Undo \/ o = Redo) [Undo; Undo; Redo; Undo] /\
  run [Undo; Undo; Redo; Undo] (UndoStack.Make [append_a; set_x_5] [])
      (World (<[1 := PyList [VStr "a"]]>
                (<[0 := Instance (<["x" := VInt 5]> ∅)]> ∅))
             (<[7 := VInt 1]> ∅)) =
    (Ok tt, UndoStack.Make [] [set_x_5; append_a],
     World (heap example_world) (<[7 := VInt 1]> ∅)) /\
  timeline (UndoStack.Make [] [set_x_5; append_a]) =
    timeline (UndoStack.Make [append_a; set_x_5] []).
Proof.
  assert (Forall (fun o => o = Undo \/ o = Redo) [Undo; Undo; Redo; Undo]) as Hops
    by (repeat constructor; auto).
  assert (run [Undo; Undo; Redo; Undo] (UndoStack.Make [append_a; set_x_5] [])
      (World (<[1 := PyList [VStr "a"]]>
                (<[0 := Instance (<["x" := VInt 5]> ∅)]> ∅))
             (<[7 := VInt 1]> ∅)) =
    (Ok tt, UndoStack.Make [] [set_x_5; append_a],
     World (heap example_world) (<[7 := VInt 1]> ∅))) as Hrun
    by (vm_compute; reflexivity).
  split; [exact Hops|]. split; [exact Hrun|].
  exact (undo_redo_keep_timeline _ _ _ _ _ Hops Hrun).
Defined.

(** X12. Along a run of successful calls from a fresh stack in which every
    [SetAttrCommand] object is executed by at most one [dispatch], and once
    by it, on targets whose [removeItem] is the opposite of [addItem]: any
    [k] [undo()] calls, [k] at most the length of [history], followed by
    [k] [redo()] calls all succeed and leave the targets, the
    [originalItem]s, [history] and [future] exactly as they were. *)
Theorem undos_then_redos_restore {C : Type} `{!ItemContainer C}
    (ops : list op) (w0 w : world C) (s : UndoStack.t) (k : nat) :
  remove_undoes_add C ->
  NoDup (flat_map setattr_objects (dispatched ops)) ->
  run ops UndoStack.init w0 = (Ok tt, s, w) ->
  k <= length (UndoStack.history s) ->
  run (repeat Undo k ++ repeat Redo k) s w = (Ok tt, s, w).
Proof.
  intros Hlaw Hnd Hrun Hk.
  destruct (run_plays ops w0 w s Hlaw Hnd Hrun) as [Hp _].
  destruct s as [h f]. simpl in Hk.
  set (pre := take (length h - k) h). set (post := drop (length h - k) h).
  assert (h = pre ++ post) as Hh by (symmetry; apply take_drop).
  assert (length post = k) as Hlen by (unfold post; rewrite length_drop; lia).
  rewrite Hh in Hp |- *. rewrite <- Hlen. clear Hlen Hk Hh.
  destruct (plays_undo_many w0 pre post f w Hlaw Hp) as (w1 & Hu & Hp1 & Ho1).
  destruct (plays_redo_many w0 pre post f w1 Hp1) as (w2 & Hr & Hp2 & Ho2).
  rewrite run_app, Hu, Hr. do 2 f_equal.
  apply world_eq; [by eapply plays_same_heap|congruence].
Qed.

Lemma undos_then_redos_restore_witness :
  NoDup (flat_map setattr_objects
           (dispatched [Dispatch set_x_5; Dispatch append_a; Dispatch set_x_9])) /\
  run [Dispatch set_x_5; Dispatch append_a; Dispatch set_x_9]
      UndoStack.init example_world =
    (Ok tt, UndoStack.Make [set_x_5; append_a; set_x_9] [],
     World (<[1 := PyList [VStr "a"]]>
              (<[0 := Instance (<["x" := VInt 9]> ∅)]> ∅))
           (<[8 := VInt 5]> (<[7 := VInt 1]> ∅))) /\
  2 <= length (UndoStack.history (UndoStack.Make [set_x_5; append_a; set_x_9] [])) /\
  run (repeat Undo 2 ++ repeat Redo 2)
      (UndoStack.Make [set_x_5; append_a; set_x_9] [])
      (World (<[1 := PyList [VStr "a"]]>
                (<[0 := Instance (<["x" := VInt 9]> ∅)]> ∅))
             (<[8 := VInt 5]> (<[7 := VInt 1]> ∅))) =
    (Ok tt, UndoStack.Make [set_x_5; append_a; set_x_9] [],
     World (<[1 := PyList [VStr "a"]]>
              (<[0 := Instance (<["x" := VInt 9]> ∅)]> ∅))
           (<[8 := VInt 5]> (<[7 := VInt 1]> ∅))).
Proof.
  assert (NoDup (flat_map setattr_objects
           (dispatched [Dispatch set_x_5; Dispatch append_a; Dispatch set_x_9])))
    as Hnd by (apply (bool_decide_unpack _); vm_compute; exact I).
  assert (run [Dispatch set_x_5; Dispatch append_a; Dispatch set_x_9]
      UndoStack.init example_world =
    (Ok tt, UndoStack.Make [set_x_5; append_a; set_x_9] [],
     World (<[1 := PyList [VStr "a"]]>
              (<[0 := Instance (<["x" := VInt 9]> ∅)]> ∅))
           (<[8 := VInt 5]> (<[7 := VInt 1]> ∅)))) as Hrun
    by (vm_compute; reflexivity).
  assert (2 <= length (UndoStack.history
                         (UndoStack.Make [set_x_5; append_a; set_x_9] [])))
    as Hk by (simpl; lia).
  split; [exact Hnd|]. split; [exact Hrun|]. split; [exact Hk|].
  exact (undos_then_redos_restore _ _ _ _ 2 item_list_remove_undoes_add Hnd Hrun Hk).
Defined.

(** X13. Along such a run, whenever [future] is not empty, [redo()]
    succeeds, and an [undo()] right after it succeeds and leaves the
    targets, the [originalItem]s, [history] and [future] as they were
    before the [redo()]. *)
Theorem redo_then_undo {C : Type} `{!ItemContainer C}
    (ops : list op) (w0 w : world C) (s : UndoStack.t) :
  remove_undoes_add C ->
  NoDup (flat_map setattr_objects (dispatched ops)) ->
  run ops UndoStack.init w0 = (Ok tt, s, w) ->
  UndoStack.future s <> [] ->
  exists s1 w1,
    UndoStack.redo s w = (Ok tt, s1, w1) /\
    UndoStack.undo s1 w1 = (Ok tt, s, w).
Proof.
  intros Hlaw Hnd Hrun Hne.
  destruct (run_plays ops w0 w s Hlaw Hnd Hrun) as [Hp _].
  destruct s as [h f]. simpl in Hne.
  destruct f as [|c f _] using rev_ind; [done|].
  destruct (plays_redo w0 h f c w Hp) as (wh1 & _ & Hr & Hp1).
  destruct (plays_undo w0 h f c _ Hlaw Hp1) as (wh2 & _ & Hu & Hp2).
  do 2 eexists. split; [exact Hr|]. rewrite Hu. do 2 f_equal.
  apply world_eq; [by eapply plays_same_heap|reflexivity].
Qed.

Lemma redo_then_undo_witness :
  NoDup (flat_map setattr_objects
           (dispatched [Dispatch set_x_5; Dispatch append_a; Undo])) /\
  run [Dispatch set_x_5; Dispatch append_a; Undo] UndoStack.init example_world =
    (Ok tt, UndoStack.Make [set_x_5] [append_a],
     World (<[1 := PyList []]> (<[0 := Instance (<["x" := VInt 5]> ∅)]> ∅))
           (<[7 := VInt 1]> ∅)) /\
  exists s1 w1,
    UndoStack.redo (UndoStack.Make [set_x_5] [append_a])
      (World (<[1 := PyList []]> (<[0 := Instance (<["x" := VInt 5]> ∅)]> ∅))
             (<[7 := VInt 1]> ∅)) = (Ok tt, s1, w1) /\
    UndoStack.undo s1 w1 =
      (Ok tt, UndoStack.Make [set_x_5] [append_a],
       World (<[1 := PyList []]> (<[0 := Instance (<["x" := VInt 5]> ∅)]> ∅))
             (<[7 := VInt 1]> ∅)).
Proof.
  assert (NoDup (flat_map setattr_objects
           (dispatched [Dispatch set_x_5; Dispatch append_a; Undo]))) as Hnd
    by (apply (bool_decide_unpack _); vm_compute; exact I).
  assert (run [Dispatch set_x_5; Dispatch append_a; Undo] UndoStack.init
              example_world =
    (Ok tt, UndoStack.Make [set_x_5] [append_a],
     World (<[1 := PyList []]> (<[0 := Instance (<["x" := VInt 5]> ∅)]> ∅))
           (<[7 := VInt 1]> ∅))) as Hrun by (vm_compute; reflexivity).
  split; [exact Hnd|]. split; [exact Hrun|].
  refine (redo_then_undo _ _ _ _ item_list_remove_undoes_add Hnd Hrun _).
  discriminate.
Defined.

(** X14. Dispatching one [SetAttrCommand] object twice loses the original
    value: on a target whose attribute holds [v], from any stack, the two
    dispatches and two [undo()] calls all succeed, and they leave the
    attribute at the new value [item], with [originalItem == item]. *)
Theorem dispatching_twice_loses_the_original {C : Type} `{!ItemContainer C}
    (w : world C) (s : UndoStack.t) (self : cref) (t : loc) (a : string)
    (v item : val) :
  attr_of w t a = Some v ->
  exists w',
    run [Dispatch (SetAttrCommand self t a item);
         Dispatch (SetAttrCommand self t a item); Undo; Undo] s w =
      (Ok tt,
       UndoStack.Make (UndoStack.history s)
         [SetAttrCommand self t a item; SetAttrCommand self t a item], w') /\
    attr_of w' t a = Some item /\
    originalItem w' !! self = Some item.
Proof.
  intros Hv.
  destruct (do_SetAttrCommand_on_attr w self t a v item Hv) as (d & Ho & Hd1).
  set (w1 := World (<[t := Instance (<[a := item]> d)]> (heap w))
                   (<[self := v]> (originalItem w))) in *.
  assert (attr_of w1 t a = Some item) as Hv1 by apply attr_of_insert.
  destruct (do_SetAttrCommand_on_attr w1 self t a item item Hv1) as (d1 & Ho1 & Hd2).
  set (w2 := World (<[t := Instance (<[a := item]> d1)]> (heap w1))
                   (<[self := item]> (originalItem w1))) in *.
  assert (heap w2 !! t = Some (Instance (<[a := item]> d1))) as Ho2
    by (simpl; apply lookup_insert_eq).
  assert (originalItem w2 !! self = Some item) as Hoi
    by (simpl; apply lookup_insert_eq).
  set (w3 := World (<[t := Instance (<[a := item]> (<[a := item]> d1))]> (heap w2))
                   (originalItem w2)).
  assert (undo (SetAttrCommand self t a item) w2 = (Ok tt, w3)) as Hu1
    by (rewrite (undo_SetAttrCommand self t a item w2 _ Ho2), Hoi; reflexivity).
  assert (heap w3 !! t = Some (Instance (<[a := item]> (<[a := item]> d1)))) as Ho3
    by (simpl; apply lookup_insert_eq).
  assert (undo (SetAttrCommand self t a item) w3 =
          (Ok tt, World (<[t := Instance (<[a := item]>
                                 (<[a := item]> (<[a := item]> d1)))]> (heap w3))
                        (originalItem w3))) as Hu2
    by (rewrite (undo_SetAttrCommand self t a item w3 _ Ho3);
        change (originalItem w3) with (originalItem w2); rewrite Hoi; reflexivity).
  eexists. split; [|split].
  - cbn [run call]. unfold UndoStack.dispatch. rewrite Hd1, Hd2.
    unfold UndoStack.undo, UndoStack.push.
    cbn [UndoStack.history UndoStack.future].
    rewrite pop_snoc. cbn [UndoStack.history UndoStack.future].
    rewrite Hu1. cbn [UndoStack.history UndoStack.future].
    rewrite pop_snoc, Hu2. reflexivity.
  - apply attr_of_insert.
  - exact Hoi.
Qed.

Lemma dispatching_twice_loses_the_original_witness :
  attr_of example_world 0 "x" = Some (VInt 1) /\
  exists w',
    run [Dispatch (SetAttrCommand 7 0 "x" (VInt 5));
         Dispatch (SetAttrCommand 7 0 "x" (VInt 5)); Undo; Undo]
        UndoStack.init example_world =
      (Ok tt,
       UndoStack.Make (UndoStack.history UndoStack.init)
         [SetAttrCommand 7 0 "x" (VInt 5); SetAttrCommand 7 0 "x" (VInt 5)], w') /\
    attr_of w' 0 "x" = Some (VInt 5) /\
    originalItem w' !! 7 = Some (VInt 5).
Proof.
  split; [reflexivity|].
  exact (dispatching_twice_loses_the_original example_world UndoStack.init
           7 0 "x" (VInt 1) (VInt 5) eq_refl).
Defined.

(** X15. [AppendCommand.undo()] removes the last element of the target list
    whichever it is: it does not look at the command's own [item]. *)
Theorem AppendCommand_undo_pops_any_last {C : Type} `{!ItemContainer C}
    (self : cref) (o : loc) (x y : val) (l : list val) (w : world C) :
  items_of w o = Some (l ++ [y]) ->
  undo (AppendCommand self o x) w =
    (Ok tt, World (<[o := PyList l]> (heap w)) (originalItem w)) /\
  items_of (undo (AppendCommand self o x) w).2 o = Some l.
Proof.
  intros H. apply items_of_Some in H.
  assert (undo (AppendCommand self o x) w =
    (Ok tt, World (<[o := PyList l]> (heap w)) (originalItem w))) as Hu.
  { simpl. unfold bind, list_pop. by rewrite H, pop_snoc. }
  split; [exact Hu|]. rewrite Hu. apply items_of_insert.
Qed.

Lemma AppendCommand_undo_pops_any_last_witness :
  items_of (World (<[1 := PyList [VStr "a"; VStr "z"]]> ∅) ∅ : world (list val)) 1 =
    Some ([VStr "a"] ++ [VStr "z"]) /\
  items_of (undo append_a
              (World (<[1 := PyList [VStr "a"; VStr "z"]]> ∅) ∅ : world (list val))).2 1 =
    Some [VStr "a"].
Proof.
  assert (items_of (World (<[1 := PyList [VStr "a"; VStr "z"]]> ∅) ∅
                     : world (list val)) 1 =
          Some ([VStr "a"] ++ [VStr "z"])) as H by (vm_compute; reflexivity).
  split; [exact H|].
  exact (proj2 (AppendCommand_undo_pops_any_last 3 1 (VStr "a") (VStr "z")
                  [VStr "a"] _ H)).
Defined.

(** X16. On an empty target list [AppendCommand.undo()] raises
    [IndexError] and changes nothing; [UndoStack.undo()] then raises that
    [IndexError] although [history] is not empty, and the command has left
    [history] without being put in [future]. *)
Theorem undo_of_AppendCommand_on_empty_list {C : Type} `{!ItemContainer C}
    (self : cref) (o : loc) (x : val) (h f : list command) (w : world C) :
  items_of w o = Some [] ->
  undo (AppendCommand self o x) w = (Raise IndexError, w) /\
  UndoStack.undo (UndoStack.Make (h ++ [AppendCommand self o x]) f) w =
    (Raise IndexError, UndoStack.Make h f, w).
Proof.
  intros H. apply items_of_Some in H.
  assert (undo (AppendCommand self o x) w = (Raise IndexError, w)) as Hu.
  { simpl. unfold bind, list_pop. by rewrite H. }
  split; [exact Hu|].
  unfold UndoStack.undo. simpl. by rewrite pop_snoc, Hu.
Qed.

Lemma undo_of_AppendCommand_on_empty_list_witness :
  items_of example_world 1 = Some [] /\
  UndoStack.undo (UndoStack.Make ([set_x_5] ++ [AppendCommand 3 1 (VStr "a")]) [])
    example_world =
    (Raise IndexError, UndoStack.Make [set_x_5] [], example_world).
Proof.
  assert (items_of example_world 1 = Some []) as H by (vm_compute; reflexivity).
  split; [exact H|].
  exact (proj2 (undo_of_AppendCommand_on_empty_list 3 1 (VStr "a") [set_x_5] []
                  example_world H)).
Defined.

(** X17. From any stack and any targets: after a successful [dispatch] of a
    command in which no [SetAttrCommand] object occurs twice, on targets
    whose [removeItem] is the opposite of [addItem], an immediate [undo()]
    succeeds and gives back exactly the targets from before the
    [dispatch], and a [redo()] after it gives back the stack and the
    targets the [dispatch] left. *)
Theorem dispatch_undo_redo_from_any_state {C : Type} `{!ItemContainer C}
    (c : command) (s s' : UndoStack.t) (w w' : world C) :
  remove_undoes_add C ->
  NoDup (setattr_objects c) ->
  UndoStack.dispatch c s w = (Ok tt, s', w') ->
  UndoStack.undo s' w' =
    (Ok tt, UndoStack.Make (UndoStack.history s) [c],
     World (heap w) (originalItem w')) /\
  UndoStack.redo (UndoStack.Make (UndoStack.history s) [c])
    (World (heap w) (originalItem w')) = (Ok tt, s', w').
Proof.
  intros Hlaw Hnd Hd. apply dispatch_Ok in Hd as [Hdo ->]. split.
  - unfold UndoStack.undo. simpl. rewrite pop_snoc.
    by rewrite (undo_of_do c w w' w' Hlaw Hdo Hnd eq_refl (fun _ _ => eq_refl)).
  - unfold UndoStack.redo. simpl.
    rewrite (redo_of_do c w w' (World (heap w) (originalItem w')) Hdo eq_refl).
    simpl. by rewrite world_eta.
Qed.

Lemma dispatch_undo_redo_from_any_state_witness :
  NoDup (setattr_objects (CommandGroup 9 [set_x_9; append_a])) /\
  UndoStack.dispatch (CommandGroup 9 [set_x_9; append_a])
    (UndoStack.Make [set_x_5] [set_x_5]) example_world =
    (Ok tt, UndoStack.Make [set_x_5; CommandGroup 9 [set_x_9; append_a]] [],
     World (<[1 := PyList [VStr "a"]]>
              (<[0 := Instance (<["x" := VInt 9]> ∅)]> ∅))
           (<[8 := VInt 1]> ∅)) /\
  UndoStack.undo (UndoStack.Make [set_x_5; CommandGroup 9 [set_x_9; append_a]] [])
    (World (<[1 := PyList [VStr "a"]]>
              (<[0 := Instance (<["x" := VInt 9]> ∅)]> ∅))
           (<[8 := VInt 1]> ∅)) =
    (Ok tt, UndoStack.Make [set_x_5] [CommandGroup 9 [set_x_9; append_a]],
     World (heap example_world) (<[8 := VInt 1]> ∅)).
Proof.
  assert (NoDup (setattr_objects (CommandGroup 9 [set_x_9; append_a]))) as Hnd
    by (apply (bool_decide_unpack _); vm_compute; exact I).
  assert (UndoStack.dispatch (CommandGroup 9 [set_x_9; append_a])
    (UndoStack.Make [set_x_5] [set_x_5]) example_world =
    (Ok tt, UndoStack.Make [set_x_5; CommandGroup 9 [set_x_9; append_a]] [],
     World (<[1 := PyList [VStr "a"]]>
              (<[0 := Instance (<["x" := VInt 9]> ∅)]> ∅))
           (<[8 := VInt 1]> ∅))) as Hd by (vm_compute; reflexivity).
  split; [exact Hnd|]. split; [exact Hd|].
  exact (proj1 (dispatch_undo_redo_from_any_state _ _ _ _ _
                  item_list_remove_undoes_add Hnd Hd)).
Defined.

(** ** Properties of the lists of [RigGraphicsView] *)

Section ListFacts.

Lemma list_remove_None (x : nat) (l : list nat) :
  RigGraphicsView.list_remove x l = None <-> x ∉ l.
Proof.
  induction l as [|y l IH]; simpl.
  - split; [intros _; apply not_elem_of_nil|done].
  - destruct (Nat.eqb_spec y x) as [->|Hne].
    + split; [discriminate|]. intros H. exfalso. apply H. by left.
    + destruct (RigGraphicsView.list_remove x l) as [r|].
      * split; [discriminate|]. intros H. apply not_elem_of_cons in H as [_ H].
        by apply IH in H.
      * split; [|done]. intros _. apply not_elem_of_cons. split; [done|].
        by apply IH.
Qed.

Lemma list_remove_Some (x : nat) (l r : list nat) :
  RigGraphicsView.list_remove x l = Some r ->
  exists pre post, l = pre ++ x :: post /\ r = pre ++ post /\ x ∉ pre.
Proof.
  revert r. induction l as [|y l IH]; intros r; simpl; [discriminate|].
  destruct (Nat.eqb_spec y x) as [->|Hne].
  - intros [= <-]. exists [], l. repeat split. apply not_elem_of_nil.
  - destruct (RigGraphicsView.list_remove x l) as [r'|]; [|discriminate].
    intros [= <-]. destruct (IH r' eq_refl) as (pre & post & -> & -> & Hpre).
    exists (y :: pre), post. repeat split.
    apply not_elem_of_cons. split; [done|exact Hpre].
Qed.

Lemma list_remove_snoc (x : nat) (l : list nat) :
  x ∉ l -> RigGraphicsView.list_remove x (l ++ [x]) = Some l.
Proof.
  induction l as [|y l IH]; simpl; intros H.
  - by rewrite Nat.eqb_refl.
  - apply not_elem_of_cons in H as [Hne H].
    destruct (Nat.eqb_spec y x) as [->|_]; [done|]. by rewrite IH.
Qed.

Lemma itemPresent_spec (x : nat) (l : list nat) :
  RigGraphicsView.itemPresent x l = true <-> x ∈ l.
Proof.
  unfold RigGraphicsView.itemPresent.
  assert (forall acc,
    fold_left (fun present item => if Nat.eqb x item then true else present) l acc
      = true <-> acc = true \/ x ∈ l) as H.
  { induction l as [|y l IH]; intros acc; simpl.
    - split; [by left|]. intros [H|H]; [done|]. by apply not_elem_of_nil in H.
    - rewrite IH. destruct (Nat.eqb_spec x y) as [->|Hne].
      + split; [intros _; right; by left|by left].
      + rewrite elem_of_cons. tauto. }
  rewrite H. intuition discriminate.
Qed.

Lemma removed_of_NoDup (x : nat) (pre post : list nat) :
  NoDup (pre ++ x :: post) ->
  NoDup (pre ++ post) /\ (x ∉ pre ++ post) /\
  forall y, y <> x -> (y ∈ pre ++ post <-> y ∈ pre ++ x :: post).
Proof.
  intros H. apply NoDup_app in H as (Hpre & Hd & Hpost).
  apply NoDup_cons in Hpost as [Hx Hpost]. split; [|split].
  - apply NoDup_app. split; [done|]. split; [|done].
    intros y Hy Hin. apply (Hd y Hy). by right.
  - rewrite elem_of_app. intros [Hin|Hin]; [|done].
    apply (Hd x Hin). by left.
  - intros y Hne. rewrite !elem_of_app, elem_of_cons. tauto.
Qed.

End ListFacts.

Section ViewFacts.
Variable marker_state : Type.
Variable setActive : bool -> marker_state -> marker_state.
Variable setActiveIndex : nat -> marker_state -> marker_state.

Abbreviation view := (RigGraphicsView.view marker_state).
Abbreviation processMarkerSelection :=
  (RigGraphicsView.processMarkerSelection marker_state setActive setActiveIndex).
Abbreviation processMarkerDelete :=
  (RigGraphicsView.processMarkerDelete marker_state setActive).
Abbreviation processMarkerActiveIndex :=
  (RigGraphicsView.processMarkerActiveIndex marker_state setActiveIndex).
Abbreviation markerList := (RigGraphicsView.markerList marker_state).
Abbreviation markerActiveList := (RigGraphicsView.markerActiveList marker_state).
Abbreviation markers := (RigGraphicsView.markers marker_state).

Lemma selection_active_list (marker : nat) (v : view) :
  (processMarkerSelection marker v).1 = RigGraphicsView.Returned /\
  markerList (processMarkerSelection marker v).2 = markerList v /\
  markerActiveList (processMarkerSelection marker v).2 =
    match RigGraphicsView.list_remove marker (markerActiveList v) with
    | Some l' => l'
    | None => markerActiveList v ++ [marker]
    end.
Proof.
  unfold RigGraphicsView.processMarkerSelection.
  destruct (RigGraphicsView.itemPresent marker (markerActiveList v)) eqn:Hp.
  - apply itemPresent_spec in Hp.
    destruct (RigGraphicsView.list_remove marker (markerActiveList v)) as [l'|] eqn:Hr;
      [|by apply list_remove_None in Hr].
    destruct (Nat.ltb_spec 1 (length (markerActiveList v))) as [Hlen|Hlen];
      [done|].
    apply list_remove_Some in Hr as (pre & post & Hl & -> & _).
    assert (pre = [] /\ post = []) as [-> ->].
    { rewrite Hl in Hlen. rewrite length_app in Hlen. simpl in Hlen.
      destruct pre, post; simpl in Hlen; try lia. done. }
    rewrite Hl. simpl. done.
  - assert (marker ∉ markerActiveList v) as Hn.
    { intros Hin. apply itemPresent_spec in Hin. congruence. }
    apply list_remove_None in Hn. by rewrite Hn.
Qed.

Lemma delete_lists (marker : nat) (v : view) :
  markerActiveList (processMarkerDelete marker v).2 =
    match RigGraphicsView.list_remove marker (markerActiveList v) with
    | Some l' => l'
    | None => markerActiveList v
    end /\
  match RigGraphicsView.list_remove marker (markerList v) with
  | Some l' =>
      (processMarkerDelete marker v).1 = RigGraphicsView.Returned /\
      markerList (processMarkerDelete marker v).2 = l'
  | None =>
      (processMarkerDelete marker v).1 = RigGraphicsView.ValueError /\
      markerList (processMarkerDelete marker v).2 = markerList v
  end.
Proof.
  unfold RigGraphicsView.processMarkerDelete.
  destruct (RigGraphicsView.itemPresent marker (markerActiveList v)) eqn:Hp.
  - apply itemPresent_spec in Hp.
    destruct (RigGraphicsView.list_remove marker (markerActiveList v)) as [l'|] eqn:Hr;
      [|by apply list_remove_None in Hr].
    destruct (Nat.ltb_spec 1 (length (markerActiveList v))) as [Hlen|Hlen].
    + simpl. by destruct (RigGraphicsView.list_remove marker (markerList v)).
    + apply list_remove_Some in Hr as (pre & post & Hl & -> & _).
      assert (pre = [] /\ post = []) as [-> ->].
      { rewrite Hl in Hlen. rewrite length_app in Hlen. simpl in Hlen.
        destruct pre, post; simpl in Hlen; try lia. done. }
      simpl. by destruct (RigGraphicsView.list_remove marker (markerList v)).
  - assert (marker ∉ markerActiveList v) as Hn.
    { intros Hin. apply itemPresent_spec in Hin. congruence. }
    apply list_remove_None in Hn. rewrite Hn.
    by destruct (RigGraphicsView.list_remove marker (markerList v)).
Qed.

Lemma setActiveIndex_from_outside (k : nat) (l : list nat)
    (ms : gmap nat marker_state) (m : nat) :
  m ∉ l ->
  RigGraphicsView.setActiveIndex_from marker_state setActiveIndex k l ms !! m =
    ms !! m.
Proof.
  revert k ms. induction l as [|y l IH]; intros k ms Hm; simpl; [done|].
  apply not_elem_of_cons in Hm as [Hne Hm].
  rewrite IH by done. by apply lookup_alter_ne.
Qed.

Lemma setActiveIndex_from_at (k i : nat) (l : list nat)
    (ms : gmap nat marker_state) (m : nat) :
  NoDup l -> l !! i = Some m ->
  RigGraphicsView.setActiveIndex_from marker_state setActiveIndex k l ms !! m =
    setActiveIndex (k + i) <$> ms !! m.
Proof.
  revert k i ms. induction l as [|y l IH]; intros k i ms Hnd Hi; [done|].
  apply NoDup_cons in Hnd as [Hy Hnd]. destruct i as [|i]; simpl in *.
  - injection Hi as ->. rewrite setActiveIndex_from_outside by done.
    by rewrite lookup_alter_eq, Nat.add_0_r.
  - rewrite (IH (S k) i _ Hnd Hi).
    assert (y <> m) as Hne.
    { intros ->. apply Hy. by eapply list_elem_of_lookup_2. }
    rewrite lookup_alter_ne by done. f_equal. f_equal. lia.
Qed.

End ViewFacts.

Lemma list_remove_middle (x : nat) (pre post : list nat) :
  x ∉ pre ->
  RigGraphicsView.list_remove x (pre ++ x :: post) = Some (pre ++ post).
Proof.
  induction pre as [|y pre IH]; simpl; intros H.
  - by rewrite Nat.eqb_refl.
  - apply not_elem_of_cons in H as [Hne H].
    destruct (Nat.eqb_spec y x) as [->|_]; [done|]. by rewrite IH.
Qed.

(** X18. [processMarkerSelection] toggles the marker in the list of active
    markers: on a list without repetitions it returns without raising and
    leaves [markerList] alone; a marker that was not on the list is
    appended at its end, a marker that was on it is taken out of its place
    and the others keep their order; hence the marker is on the list after
    the call exactly if it was not before, every other marker stays where
    it was, and the list stays without repetitions. *)
Theorem processMarkerSelection_toggles (marker_state : Type)
    (setActive : bool -> marker_state -> marker_state)
    (setActiveIndex : nat -> marker_state -> marker_state)
    (marker : nat) (v : RigGraphicsView.view marker_state) :
  NoDup (RigGraphicsView.markerActiveList _ v) ->
  (RigGraphicsView.processMarkerSelection _ setActive setActiveIndex marker v).1 =
    RigGraphicsView.Returned /\
  RigGraphicsView.markerList _
    (RigGraphicsView.processMarkerSelection _ setActive setActiveIndex marker v).2 =
    RigGraphicsView.markerList _ v /\
  (marker ∉ RigGraphicsView.markerActiveList _ v ->
   RigGraphicsView.markerActiveList _
     (RigGraphicsView.processMarkerSelection _ setActive setActiveIndex marker v).2 =
     RigGraphicsView.markerActiveList _ v ++ [marker]) /\
  (forall pre post,
     RigGraphicsView.markerActiveList _ v = pre ++ marker :: post ->
     RigGraphicsView.markerActiveList _
       (RigGraphicsView.processMarkerSelection _ setActive setActiveIndex marker v).2 =
       pre ++ post) /\
  NoDup (RigGraphicsView.markerActiveList _
    (RigGraphicsView.processMarkerSelection _ setActive setActiveIndex marker v).2) /\
  (marker ∈ RigGraphicsView.markerActiveList _
     (RigGraphicsView.processMarkerSelection _ setActive setActiveIndex marker v).2
   <-> marker ∉ RigGraphicsView.markerActiveList _ v) /\
  forall x, x <> marker ->
    (x ∈ RigGraphicsView.markerActiveList _
       (RigGraphicsView.processMarkerSelection _ setActive setActiveIndex marker v).2
     <-> x ∈ RigGraphicsView.markerActiveList _ v).
Proof.
  intros Hnd.
  destruct (selection_active_list _ setActive setActiveIndex marker v)
    as (Hr & Hm & Ha).
  split; [exact Hr|]. split; [exact Hm|]. rewrite Ha. clear Hr Hm Ha.
  split; [|split].
  { intros Hn. by rewrite (proj2 (list_remove_None _ _) Hn). }
  { intros pre post Hl. rewrite Hl in Hnd |- *.
    apply NoDup_app in Hnd as (_ & Hd & _).
    pose proof (list_remove_middle marker pre post) as E.
    unfold RigGraphicsView.mref in *. rewrite E; [done|].
    intros Hin. apply (Hd marker Hin). by left. }
  destruct (RigGraphicsView.list_remove marker (RigGraphicsView.markerActiveList _ v))
    as [l'|] eqn:E.
  - apply list_remove_Some in E as (pre & post & Hl & -> & _).
    rewrite Hl in Hnd |- *.
    destruct (removed_of_NoDup _ _ _ Hnd) as (H1 & H2 & H3).
    split; [exact H1|]. split; [|exact H3].
    split; [done|]. intros Hn. exfalso. apply Hn.
    apply elem_of_app. right. by left.
  - apply list_remove_None in E. split; [|split].
    + apply NoDup_app. split; [done|]. split; [|apply NoDup_singleton].
      intros x Hx Hin. apply list_elem_of_singleton in Hin as ->. done.
    + split; [done|]. intros _. apply elem_of_app. right. by left.
    + intros x Hne. rewrite elem_of_app, list_elem_of_singleton. tauto.
Qed.

Lemma processMarkerSelection_toggles_witness :
  NoDup (RigGraphicsView.markerActiveList _ example_view) /\
  (6 ∉ RigGraphicsView.markerActiveList _ example_view) /\
  RigGraphicsView.markerActiveList _
    (RigGraphicsView.processMarkerSelection _
       (fun b st => (b, st.2)) (fun i st => (st.1, i)) 6 example_view).2 =
    RigGraphicsView.markerActiveList _ example_view ++ [6] /\
  RigGraphicsView.markerActiveList _ example_view = [] ++ 5 :: [4] /\
  RigGraphicsView.markerActiveList _
    (RigGraphicsView.processMarkerSelection _
       (fun b st => (b, st.2)) (fun i st => (st.1, i)) 5 example_view).2 =
    [] ++ [4].
Proof.
  assert (NoDup (RigGraphicsView.markerActiveList _ example_view)) as H
    by (apply (bool_decide_unpack _); vm_compute; exact I).
  assert (6 ∉ RigGraphicsView.markerActiveList _ example_view) as H6.
  { intros Hin%list_elem_of_In. simpl in Hin. intuition discriminate. }
  split; [exact H|]. split; [exact H6|]. split; [|split; [reflexivity|]].
  - exact (proj1 (proj2 (proj2
      (processMarkerSelection_toggles _ (fun b st => (b, st.2))
         (fun i st => (st.1, i)) 6 example_view H))) H6).
  - exact (proj1 (proj2 (proj2 (proj2
      (processMarkerSelection_toggles _ (fun b st => (b, st.2))
         (fun i st => (st.1, i)) 5 example_view H)))) [] [4] eq_refl).
Defined.

(** X19. Selecting twice a marker that was not active gives back the list
    of active markers as it was, order included. *)
Theorem processMarkerSelection_twice (marker_state : Type)
    (setActive : bool -> marker_state -> marker_state)
    (setActiveIndex : nat -> marker_state -> marker_state)
    (marker : nat) (v : RigGraphicsView.view marker_state) :
  marker ∉ RigGraphicsView.markerActiveList _ v ->
  RigGraphicsView.markerActiveList _
    (RigGraphicsView.processMarkerSelection _ setActive setActiveIndex marker
       (RigGraphicsView.processMarkerSelection _ setActive setActiveIndex
          marker v).2).2 =
    RigGraphicsView.markerActiveList _ v.
Proof.
  intros Hn.
  destruct (selection_active_list _ setActive setActiveIndex marker v)
    as (_ & _ & Ha).
  destruct (selection_active_list _ setActive setActiveIndex marker
    (RigGraphicsView.processMarkerSelection _ setActive setActiveIndex marker v).2)
    as (_ & _ & Ha2).
  rewrite Ha2, Ha.
  rewrite (proj2 (list_remove_None _ _) Hn).
  pose proof (list_remove_snoc _ _ Hn) as E.
  unfold RigGraphicsView.mref in *. by rewrite E.
Qed.

Lemma processMarkerSelection_twice_witness :
  (6 ∉ RigGraphicsView.markerActiveList _ example_view) /\
  RigGraphicsView.markerActiveList _
    (RigGraphicsView.processMarkerSelection _
       (fun b st => (b, st.2)) (fun i st => (st.1, i)) 6
       (RigGraphicsView.processMarkerSelection _
          (fun b st => (b, st.2)) (fun i st => (st.1, i)) 6 example_view).2).2 =
    RigGraphicsView.markerActiveList _ example_view.
Proof.
  assert (6 ∉ RigGraphicsView.markerActiveList _ example_view) as H.
  { intros Hin%list_elem_of_In. simpl in Hin. intuition discriminate. }
  split; [exact H|].
  exact (processMarkerSelection_twice _ _ _ 6 example_view H).
Defined.

(** X20. [processMarkerActiveIndex] calls [setActiveIndex] on each active
    marker with the position the marker has in the list of active markers
    (from 0), and touches no other marker: on a list without repetitions,
    the marker at position [i] ends in the state [setActiveIndex(i)] gives
    from its previous state. *)
Theorem processMarkerActiveIndex_positions (marker_state : Type)
    (setActiveIndex : nat -> marker_state -> marker_state)
    (v : RigGraphicsView.view marker_state) (i m : nat) :
  NoDup (RigGraphicsView.markerActiveList _ v) ->
  RigGraphicsView.markerActiveList _ v !! i = Some m ->
  RigGraphicsView.markers _
    (RigGraphicsView.processMarkerActiveIndex _ setActiveIndex v) !! m =
    (setActiveIndex i <$> RigGraphicsView.markers _ v !! m) /\
  forall m', m' ∉ RigGraphicsView.markerActiveList _ v ->
    RigGraphicsView.markers _
      (RigGraphicsView.processMarkerActiveIndex _ setActiveIndex v) !! m' =
    RigGraphicsView.markers _ v !! m'.
Proof.
  intros Hnd Hi. split.
  - simpl. by rewrite (setActiveIndex_from_at _ _ 0 i _ _ m Hnd Hi).
  - intros m' Hm'. simpl. by apply setActiveIndex_from_outside.
Qed.

Lemma processMarkerActiveIndex_positions_witness :
  NoDup (RigGraphicsView.markerActiveList _
           (RigGraphicsView.View (bool * nat) [4; 5] [5; 4]
              (<[4 := (true, 7)]> (<[5 := (true, 9)]> ∅)))) /\
  RigGraphicsView.markers _
    (RigGraphicsView.processMarkerActiveIndex _ (fun i st => (st.1, i))
       (RigGraphicsView.View (bool * nat) [4; 5] [5; 4]
          (<[4 := (true, 7)]> (<[5 := (true, 9)]> ∅)))) !! 4 =
    Some (true, 1).
Proof.
  assert (NoDup (RigGraphicsView.markerActiveList _
           (RigGraphicsView.View (bool * nat) [4; 5] [5; 4]
              (<[4 := (true, 7)]> (<[5 := (true, 9)]> ∅))))) as H
    by (apply (bool_decide_unpack _); vm_compute; exact I).
  split; [exact H|].
  rewrite (proj1 (processMarkerActiveIndex_positions _ (fun i st => (st.1, i))
                    _ 1 4 H eq_refl)).
  reflexivity.
Defined.

(** X21. [processMarkerDelete] of a marker that is not in [markerList]
    raises [ValueError] (from [markerList.remove]) and leaves [markerList]
    as it was, but only after the marker has been taken off the list of
    active markers. *)
Theorem processMarkerDelete_unknown_marker (marker_state : Type)
    (setActive : bool -> marker_state -> marker_state)
    (marker : nat) (v : RigGraphicsView.view marker_state) :
  marker ∉ RigGraphicsView.markerList _ v ->
  NoDup (RigGraphicsView.markerActiveList _ v) ->
  (RigGraphicsView.processMarkerDelete _ setActive marker v).1 =
    RigGraphicsView.ValueError /\
  RigGraphicsView.markerList _
    (RigGraphicsView.processMarkerDelete _ setActive marker v).2 =
    RigGraphicsView.markerList _ v /\
  marker ∉ RigGraphicsView.markerActiveList _
    (RigGraphicsView.processMarkerDelete _ setActive marker v).2.
Proof.
  intros Hn Hnd.
  destruct (delete_lists _ setActive marker v) as (Ha & Hm).
  rewrite (proj2 (list_remove_None _ _) Hn) in Hm. destruct Hm as [Hr Hm].
  split; [exact Hr|]. split; [exact Hm|]. rewrite Ha.
  destruct (RigGraphicsView.list_remove marker (RigGraphicsView.markerActiveList _ v))
    as [l'|] eqn:E.
  - apply list_remove_Some in E as (pre & post & Hl & -> & _).
    rewrite Hl in Hnd. by destruct (removed_of_NoDup _ _ _ Hnd) as (_ & H2 & _).
  - by apply list_remove_None in E.
Qed.

Lemma processMarkerDelete_unknown_marker_witness :
  (5 ∉ RigGraphicsView.markerList _
         (RigGraphicsView.View (bool * nat) [4; 6] [5; 4] ∅)) /\
  NoDup (RigGraphicsView.markerActiveList _
           (RigGraphicsView.View (bool * nat) [4; 6] [5; 4] ∅)) /\
  (RigGraphicsView.processMarkerDelete _ (fun b st => (b, st.2)) 5
     (RigGraphicsView.View (bool * nat) [4; 6] [5; 4] ∅)).1 =
    RigGraphicsView.ValueError /\
  RigGraphicsView.markerActiveList _
    (RigGraphicsView.processMarkerDelete _ (fun b st => (b, st.2)) 5
       (RigGraphicsView.View (bool * nat) [4; 6] [5; 4] ∅)).2 = [4].
Proof.
  assert (5 ∉ RigGraphicsView.markerList _
                (RigGraphicsView.View (bool * nat) [4; 6] [5; 4] ∅)) as H.
  { intros Hin%list_elem_of_In. simpl in Hin. intuition discriminate. }
  assert (NoDup (RigGraphicsView.markerActiveList _
           (RigGraphicsView.View (bool * nat) [4; 6] [5; 4] ∅))) as Hnd
    by (apply (bool_decide_unpack _); vm_compute; exact I).
  split; [exact H|]. split; [exact Hnd|].
  split; [|reflexivity].
  exact (proj1 (processMarkerDelete_unknown_marker _ (fun b st => (b, st.2)) 5
                  _ H Hnd)).
Defined.

(** X22. [processMarkerDelete] of a marker that is in [markerList] returns
    without raising; with both lists without repetitions, the marker is
    then in neither list, both lists stay without repetitions, and every
    other marker is in a list after the call exactly if it was before. *)
Theorem processMarkerDelete_removes (marker_state : Type)
    (setActive : bool -> marker_state -> marker_state)
    (marker : nat) (v : RigGraphicsView.view marker_state) :
  marker ∈ RigGraphicsView.markerList _ v ->
  NoDup (RigGraphicsView.markerList _ v) ->
  NoDup (RigGraphicsView.markerActiveList _ v) ->
  (RigGraphicsView.processMarkerDelete _ setActive marker v).1 =
    RigGraphicsView.Returned /\
  (marker ∉ RigGraphicsView.markerList _
     (RigGraphicsView.processMarkerDelete _ setActive marker v).2) /\
  (marker ∉ RigGraphicsView.markerActiveList _
     (RigGraphicsView.processMarkerDelete _ setActive marker v).2) /\
  NoDup (RigGraphicsView.markerList _
     (RigGraphicsView.processMarkerDelete _ setActive marker v).2) /\
  NoDup (RigGraphicsView.markerActiveList _
     (RigGraphicsView.processMarkerDelete _ setActive marker v).2) /\
  forall x, x <> marker ->
    (x ∈ RigGraphicsView.markerList _
       (RigGraphicsView.processMarkerDelete _ setActive marker v).2
     <-> x ∈ RigGraphicsView.markerList _ v) /\
    (x ∈ RigGraphicsView.markerActiveList _
       (RigGraphicsView.processMarkerDelete _ setActive marker v).2
     <-> x ∈ RigGraphicsView.markerActiveList _ v).
Proof.
  intros Hin Hnd Hnda.
  destruct (delete_lists _ setActive marker v) as (Ha & Hm).
  destruct (RigGraphicsView.list_remove marker (RigGraphicsView.markerList _ v))
    as [l'|] eqn:E; [|by apply list_remove_None in E].
  destruct Hm as [Hr Hm]. rewrite Ha, Hm. clear Ha Hm.
  apply list_remove_Some in E as (pre & post & Hl & -> & _).
  rewrite Hl in Hnd |- *.
  destruct (removed_of_NoDup _ _ _ Hnd) as (H1 & H2 & H3).
  assert (
    (marker ∉ match RigGraphicsView.list_remove marker
                      (RigGraphicsView.markerActiveList _ v) with
              | Some l' => l'
              | None => RigGraphicsView.markerActiveList _ v
              end) /\
    NoDup (match RigGraphicsView.list_remove marker
                   (RigGraphicsView.markerActiveList _ v) with
           | Some l' => l'
           | None => RigGraphicsView.markerActiveList _ v
           end) /\
    forall x, x <> marker ->
      (x ∈ match RigGraphicsView.list_remove marker
                   (RigGraphicsView.markerActiveList _ v) with
           | Some l' => l'
           | None => RigGraphicsView.markerActiveList _ v
           end <-> x ∈ RigGraphicsView.markerActiveList _ v)) as (A1 & A2 & A3).
  { destruct (RigGraphicsView.list_remove marker
                (RigGraphicsView.markerActiveList _ v)) as [la|] eqn:Ea.
    - apply list_remove_Some in Ea as (pa & qa & Hla & -> & _).
      rewrite Hla in Hnda |- *.
      destruct (removed_of_NoDup _ _ _ Hnda) as (B1 & B2 & B3).
      split; [exact B2|]. split; [exact B1|exact B3].
    - apply list_remove_None in Ea.
      split; [exact Ea|]. split; [exact Hnda|]. by intros x _. }
  split; [exact Hr|]. split; [exact H2|]. split; [exact A1|].
  split; [exact H1|]. split; [exact A2|].
  intros x Hx. split; [by apply H3|by apply A3].
Qed.

Lemma processMarkerDelete_removes_witness :
  (5 ∈ RigGraphicsView.markerList _ example_view) /\
  NoDup (RigGraphicsView.markerList _ example_view) /\
  NoDup (RigGraphicsView.markerActiveList _ example_view) /\
  (RigGraphicsView.processMarkerDelete _ (fun b st => (b, st.2)) 5 example_view).1 =
    RigGraphicsView.Returned /\
  (5 ∉ RigGraphicsView.markerList _
     (RigGraphicsView.processMarkerDelete _ (fun b st => (b, st.2)) 5
        example_view).2).
Proof.
  assert (5 ∈ RigGraphicsView.markerList _ example_view) as H
    by (apply list_elem_of_In; simpl; tauto).
  assert (NoDup (RigGraphicsView.markerList _ example_view)) as H1
    by (apply (bool_decide_unpack _); vm_compute; exact I).
  assert (NoDup (RigGraphicsView.markerActiveList _ example_view)) as H2
    by (apply (bool_decide_unpack _); vm_compute; exact I).
  split; [exact H|]. split; [exact H1|]. split; [exact H2|].
  destruct (processMarkerDelete_removes _ (fun b st => (b, st.2)) 5
              example_view H H1 H2) as (R1 & R2 & _).
  split; [exact R1|exact R2].
Defined.

Section MenuFacts.
Variable item : Type.
Variable p : item -> bool.

Lemma fold_left_found (items : list item) (acc : bool) :
  fold_left (fun found it => if p it then true else found) items acc =
    acc || existsb p items.
Proof.
  revert acc. induction items as [|x items IH]; intros acc; simpl.
  - by rewrite orb_false_r.
  - rewrite IH. destruct (p x), acc; reflexivity.
Qed.

Lemma find_first (items : list item) :
  match find p items with
  | Some x =>
      exists pre post, items = pre ++ x :: post /\ p x = true /\
        Forall (fun y => p y = false) pre
  | None => Forall (fun y => p y = false) items
  end.
Proof.
  induction items as [|y items IH]; simpl; [constructor|].
  destruct (p y) eqn:Hy.
  - exists [], items. repeat split; [done|constructor].
  - destruct (find p items) as [x|].
    + destruct IH as (pre & post & -> & Hx & Hpre).
      exists (y :: pre), post. repeat split; [done|by constructor].
    + by constructor.
Qed.

End MenuFacts.

(** X23. [sortMenuItem] returns nothing exactly when no item is under the
    cursor.  Otherwise it returns the first item of the list that is not a
    [SkinningEllipse]; it returns a [SkinningEllipse], the first of the
    list, only when every item under the cursor is one. *)
Theorem sortMenuItem_prefers_other_items (item : Type)
    (is_SkinningEllipse : item -> bool) (items : list item) :
  (RigGraphicsView.sortMenuItem item is_SkinningEllipse items = None <->
   items = []) /\
  forall x,
    RigGraphicsView.sortMenuItem item is_SkinningEllipse items = Some x ->
    exists pre post,
      items = pre ++ x :: post /\
      Forall (fun y => is_SkinningEllipse y = true) pre /\
      (is_SkinningEllipse x = true ->
       pre = [] /\ Forall (fun y => is_SkinningEllipse y = true) post).
Proof.
  unfold RigGraphicsView.sortMenuItem.
  destruct items as [|i0 items]; [by split|].
  cbn [length Nat.eqb negb].
  rewrite (fold_left_found _ (fun it => negb (is_SkinningEllipse it))).
  cbn [orb].
  pose proof (find_first _ (fun it => negb (is_SkinningEllipse it)) (i0 :: items))
    as Hf.
  destruct (existsb _ (i0 :: items)) eqn:Hex.
  - destruct (find _ (i0 :: items)) as [x|] eqn:Hfind.
    + split; [by split|]. intros y [= <-].
      destruct Hf as (pre & post & Hl & Hx & Hpre).
      exists pre, post. split; [exact Hl|]. split.
      * eapply Forall_impl; [exact Hpre|]. intros z Hz. simpl in Hz.
        by apply negb_false_iff in Hz.
      * intros Hs. rewrite Hs in Hx. discriminate.
    + exfalso. apply existsb_exists in Hex as (z & Hz & Hpz).
      rewrite Forall_forall in Hf. apply list_elem_of_In in Hz.
      specialize (Hf z Hz). simpl in Hf. congruence.
  - split; [by split|]. intros y [= <-]. exists [], items.
    split; [done|]. split; [constructor|]. intros _. split; [done|].
    apply Forall_forall. intros z Hz.
    apply negb_false_iff.
    destruct (negb (is_SkinningEllipse z)) eqn:Hn; [|done].
    assert (existsb (fun it => negb (is_SkinningEllipse it)) (i0 :: items) = true)
      as Ht.
    { apply existsb_exists. exists z. split; [|done].
      right. by apply list_elem_of_In. }
    congruence.
Qed.

Lemma checkUniqueWireGroup_fold (wireGroup : Type) (getName : wireGroup -> string)
    (wireGroups : list wireGroup) (wireName : string) (acc : bool) :
  fold_left (fun unique wg => if String.eqb wireName (getName wg) then false else unique)
            wireGroups acc = true <->
  acc = true /\ wireName ∉ map getName wireGroups.
Proof.
  revert acc. induction wireGroups as [|wg wgs IH]; intros acc; simpl.
  - split; [intros ->; split; [done|apply not_elem_of_nil]|by intros [-> _]].
  - rewrite IH, not_elem_of_cons.
    destruct (String.eqb_spec wireName (getName wg)) as [->|Hne].
    + split; [by intros [? _]|]. by intros (_ & ? & _).
    + tauto.
Qed.

(** X24. [checkUniqueWireGroup] answers [True] exactly when no wire group
    of the view bears the name; it reads the whole list. *)
Theorem checkUniqueWireGroup_iff_unused (wireGroup : Type)
    (getName : wireGroup -> string) (wireGroups : list wireGroup)
    (wireName : string) :
  RigGraphicsView.checkUniqueWireGroup wireGroup getName wireGroups wireName = true
  <-> wireName ∉ map getName wireGroups.
Proof.
  unfold RigGraphicsView.checkUniqueWireGroup.
  rewrite checkUniqueWireGroup_fold. tauto.
Qed.

Lemma sortMenuItem_prefers_other_items_witness :
  RigGraphicsView.sortMenuItem nat (Nat.eqb 0) [0; 3; 0; 5] = Some 3 /\
  exists pre post,
    [0; 3; 0; 5] = pre ++ 3 :: post /\
    Forall (fun y => Nat.eqb 0 y = true) pre /\
    (Nat.eqb 0 3 = true -> pre = [] /\ Forall (fun y => Nat.eqb 0 y = true) post).
Proof.
  assert (RigGraphicsView.sortMenuItem nat (Nat.eqb 0) [0; 3; 0; 5] = Some 3) as H
    by reflexivity.
  split; [exact H|].
  exact (proj2 (sortMenuItem_prefers_other_items nat (Nat.eqb 0) [0; 3; 0; 5]) 3 H).
Defined.
